(** * shinsen_sim_app: the battle engine of [engine.py]

    A shallow embedding of the combat resolver ([Engine]) and of the Monte
    Carlo driver ([simulate_many]), with the properties of the design
    document stated and settled against it.

    Conventions of the embedding.
    - Python [int] is [Z].  A Python [float] is an IEEE 754 double.  The
      three formulas (damage, heal) and the rates of the driver are given
      in binary64 arithmetic ([Double], [rate]), with its rounding, its
      infinities and not-a-number.  The battle itself ([run_battle]) and
      the statistics of the driver are modelled over exact rationals [Q]:
      comparisons of doubles are exact there, but the amounts computed can
      differ by one from those of the code ([double_and_exact_damage]);
      what is proved of the battle uses of an amount only that it is at
      least 1 and takes one draw ([double_and_exact_formulas]), or relates
      the amount to its own value.
    - A [Dict[str, Status]] is a [gmap string Status]; the trigger counters,
      whose insertion order is observable through the top-15 cut of
      [simulate_many], are association lists in insertion order.
    - [Unit] objects are mutable and shared between [team_a], [team_b],
      [all_units] and [order]: they live in a store ([heap]) and the lists
      hold references (indices into the store).
    - [random.Random] is an interface ([RandomGen]); its state is threaded
      explicitly through every function that draws from it. *)

From Stdlib Require Import ZArith QArith Qround Lia Lqa Sorted Ascii SpecFloat.
From stdpp Require Import gmap strings list fin_maps.

Open Scope Z_scope.

(** ** Data model *)

(** [class Status]. *)
Record Status := mkStatus {
  status_name : string;
  turns_left : Z;
  stacks : Z
}.

(** One entry of [Skill.effects], a [Dict[str, Any]] read only through
    [eff.get(key, default)]: an absent key is [None]. *)
Record Effect := mkEffect {
  eff_type : option string;
  eff_rate : option Q;
  eff_count : option Z;
  eff_target : option string;
  eff_name : option string;
  eff_turns : option Z
}.

(** [class Skill]. *)
Record Skill := mkSkill {
  skill_id : string;
  skill_name : string;
  slot : string;
  timing : string;
  proc : Q;
  effects : list Effect
}.

(** [Unit.stats], the dictionary with the keys str / int / lea / spd. *)
Record Stats := mkStats {
  stat_str : Q;
  stat_int : Q;
  stat_lea : Q;
  stat_spd : Q
}.

(** [class Unit]. *)
Record Unit := mkUnit {
  unit_id : string;
  unit_name : string;
  stats : Stats;
  max_soldiers : Z;
  soldiers : Z;
  unique_skill : Skill;
  learn20_skill : option Skill;
  awaken_skill : option Skill;
  statuses : gmap string Status
}.

(** The tuning dictionary [Engine.T], read only through
    [self.T.get(key, default)]. *)
Record Tuning := mkTuning {
  attack_mix_lea : option Q;
  defense_factor_physical : option Q;
  physical_scale : option Q;
  defense_factor_strategy : option Q;
  strategy_scale : option Q;
  heal_scale : option Q;
  random_min : option Q;
  random_max : option Q;
  max_turns : option Z;
  confusion_skip_action : option bool
}.

(** The winner tag of a [BattleResult]: ["A"], ["B"] or ["draw"]. *)
Inductive Winner := WinA | WinB | WinDraw.

(** [class BattleResult]. *)
Record BattleResult := mkBattleResult {
  winner : Winner;
  turns : Z;
  a_loss_rate : Q;
  b_loss_rate : Q;
  res_triggers : list (string * Z)
}.

#[global] Instance Status_eq_dec : EqDecision Status.
Proof. solve_decision. Defined.

#[global] Instance Winner_eq_dec : EqDecision Winner.
Proof. solve_decision. Defined.

(** ** Field updates (attribute assignment) *)

Definition with_soldiers (u : Unit) (s : Z) : Unit :=
  mkUnit (unit_id u) (unit_name u) (stats u) (max_soldiers u) s
         (unique_skill u) (learn20_skill u) (awaken_skill u) (statuses u).

Definition with_statuses (u : Unit) (m : gmap string Status) : Unit :=
  mkUnit (unit_id u) (unit_name u) (stats u) (max_soldiers u) (soldiers u)
         (unique_skill u) (learn20_skill u) (awaken_skill u) m.

(** ** Methods of [Unit] *)

Definition is_alive (u : Unit) : bool := 0 <? soldiers u.

Definition has (u : Unit) (status : string) : bool :=
  match statuses u !! status with
  | Some s => 0 <? turns_left s
  | None => false
  end.

Definition add_status (u : Unit) (name : string) (turns_ stacks_ : Z) : Unit :=
  match statuses u !! name with
  | Some s =>
      with_statuses u
        (<[name := mkStatus (status_name s)
                            (Z.max (turns_left s) turns_)
                            (Z.min (stacks s + stacks_) 99)]> (statuses u))
  | None =>
      with_statuses u (<[name := mkStatus name turns_ stacks_]> (statuses u))
  end.

(** One key of [tick_statuses_end_of_turn]: decrement, delete at zero. *)
Definition tick_status (s : Status) : option Status :=
  let t := turns_left s - 1 in
  if t <=? 0 then None else Some (mkStatus (status_name s) t (stacks s)).

Definition tick_statuses_end_of_turn (u : Unit) : Unit :=
  with_statuses u (omap tick_status (statuses u)).

Definition all_skills (u : Unit) : list Skill :=
  unique_skill u
    :: match learn20_skill u with Some s => [s] | None => [] end
    ++ match awaken_skill u with Some s => [s] | None => [] end.

(** ** Python arithmetic on the rational model of [float] *)

Definition Qltb (x y : Q) : bool := negb (Qle_bool y x).

(** The builtin [max(a, b)] on two numbers: [b] when [b > a], else [a]. *)
Definition py_max (a b : Q) : Q := if Qltb a b then b else a.

(** [int(x)] on a float truncates toward zero. *)
Definition py_int (x : Q) : Z := Z.quot (Qnum x) (Z.pos (Qden x)).

(** [x / y] on two ints: true division, raising [ZeroDivisionError]
    (here [None]) on a zero divisor. *)
Definition truediv (x y : Z) : option Q :=
  if y =? 0 then None else Some (inject_Z x / inject_Z y)%Q.

(** ** Python arithmetic on doubles

    A Python [float] is an IEEE 754 binary64 number.  [spec_float] and its
    operations are the specification of that arithmetic in the standard
    library: zeros of both signs, infinities, not-a-number and the finite
    numbers [m * 2^e], every operation rounded to nearest, ties to even. *)

Definition float : Type := spec_float.

Definition fadd : float -> float -> float := SFadd 53 1024.
Definition fsub : float -> float -> float := SFsub 53 1024.
Definition fmul : float -> float -> float := SFmul 53 1024.
Definition fdiv : float -> float -> float := SFdiv 53 1024.

(** An [int] as the dividend or the divisor of a true division: the
    integer itself, whatever its size, so that the quotient is rounded
    once. *)
Definition int_operand (n : Z) : float :=
  match n with
  | Z0 => S754_zero false
  | Zpos p => S754_finite false p 0
  | Zneg p => S754_finite true p 0
  end.

(** The double nearest to a rational.  A double of the program is given in
    the records by its exact value, from which [of_Q] gives the double
    back; a literal such as [0.7] is the double nearest to 7/10. *)
Definition of_Q (q : Q) : float :=
  fdiv (int_operand (Qnum q)) (int_operand (Z.pos (Qden q))).

(** The value of a zero or of a finite double. *)
Definition fvalue (x : float) : Q :=
  match x with
  | S754_finite s m e =>
      let n := if s then Z.neg m else Z.pos m in
      match e with
      | Zneg p => Qmake n (2 ^ p)%positive
      | _ => inject_Z (n * 2 ^ e)
      end
  | _ => 0%Q
  end.

(** The value of a double, when it has one. *)
Definition real_value (x : float) : option Q :=
  match x with
  | S754_nan | S754_infinity _ => None
  | _ => Some (fvalue x)
  end.

(** [x < y] on two doubles: the order of the values, with the infinities
    at both ends; false when one of them is not a number. *)
Definition fltb (x y : float) : bool :=
  match x, y with
  | S754_nan, _ | _, S754_nan => false
  | S754_infinity sx, S754_infinity sy => sx && negb sy
  | S754_infinity sx, _ => sx
  | _, S754_infinity sy => negb sy
  | _, _ => Qltb (fvalue x) (fvalue y)
  end.

(** [n < x] on an int and a double, which Python compares exactly. *)
Definition int_ltb_float (n : Z) (x : float) : bool :=
  match x with
  | S754_nan => false
  | S754_infinity s => negb s
  | _ => Qltb (inject_Z n) (fvalue x)
  end.

(** [max(0.0, x)]: [x] when [x > 0.0], else [0.0]. *)
Definition fmax0 (x : float) : float :=
  if fltb (S754_zero false) x then x else S754_zero false.

(** [int(x)] on a double truncates toward zero; it raises [OverflowError]
    on an infinity and [ValueError] on not-a-number (here [None]). *)
Definition float_to_int (x : float) : option Z :=
  match x with
  | S754_nan | S754_infinity _ => None
  | _ => Some (py_int (fvalue x))
  end.

(** [int(max(1, x))]: [max] returns the double [x] when [x > 1], else the
    int 1. *)
Definition int_max1 (x : float) : option Z :=
  if int_ltb_float 1 x then float_to_int x else Some 1.

(** [x / y] on two ints: the correctly rounded quotient; [None] is the
    [ZeroDivisionError] of a zero divisor or the [OverflowError] of a
    quotient too large for a double. *)
Definition int_truediv (x y : Z) : option float :=
  if y =? 0 then None
  else match fdiv (int_operand x) (int_operand y) with
       | S754_infinity _ => None
       | q => Some q
       end.

(** ** The random generator

    [random.Random] belongs to the Python library, not to the repository:
    it is an interface with the contracts of the three calls the engine
    makes.  [rng_random] is [random()], a float of [[0, 1)];
    [rng_randbelow n] is the draw behind [choice] and [randint], an integer
    of [[0, n)] for positive [n]. *)
Class RandomGen := {
  rng_state : Type;
  rng_seed : Z -> rng_state;
  rng_random : rng_state -> Q * rng_state;
  rng_randbelow : Z -> rng_state -> Z * rng_state;
  rng_random_range :
    forall g, (0 <= fst (rng_random g))%Q /\ (fst (rng_random g) < 1)%Q;
  rng_randbelow_range :
    forall n g, 0 < n -> 0 <= fst (rng_randbelow n g) < n
}.

(** ** Dictionaries with insertion order: the trigger counters *)

Fixpoint counter_get (k : string) (c : list (string * Z)) : Z :=
  match c with
  | [] => 0
  | (k', v) :: c' => if String.eqb k' k then v else counter_get k c'
  end.

(** [c[k] = c.get(k, 0) + n]: an existing key keeps its position, a new
    key goes last. *)
Fixpoint counter_add (k : string) (n : Z) (c : list (string * Z))
  : list (string * Z) :=
  match c with
  | [] => [(k, 0 + n)]
  | (k', v) :: c' =>
      if String.eqb k' k then (k', v + n) :: c'
      else (k', v) :: counter_add k n c'
  end.

(** ** Stable sorting, as [list.sort] and [sorted] do it

    [before y x] says that [y] has to precede [x] although [x] came first.
    Insertion from the right end keeps the original order of elements that
    neither has to precede the other, which is the result of any stable
    sort. *)
Fixpoint insert_by {A} (before : A -> A -> bool) (x : A) (l : list A)
  : list A :=
  match l with
  | [] => [x]
  | y :: l' => if before y x then y :: insert_by before x l' else x :: l
  end.

Definition stable_sort {A} (before : A -> A -> bool) (l : list A) : list A :=
  foldr (insert_by before) [] l.

(** ** Equality of dataclass instances

    [@dataclass] generates [__eq__] that compares the fields as tuples;
    [u in team] uses it (after the identity test).  These are the
    comparisons of [Effect] dictionaries, [Skill] and [Unit]. *)

Definition option_eqb {A} (eqb : A -> A -> bool) (x y : option A) : bool :=
  match x, y with
  | Some a, Some b => eqb a b
  | None, None => true
  | _, _ => false
  end.

Fixpoint list_eqb {A} (eqb : A -> A -> bool) (l1 l2 : list A) : bool :=
  match l1, l2 with
  | [], [] => true
  | x :: l1', y :: l2' => eqb x y && list_eqb eqb l1' l2'
  | _, _ => false
  end.

Definition Effect_eqb (e1 e2 : Effect) : bool :=
  option_eqb String.eqb (eff_type e1) (eff_type e2)
  && option_eqb Qeq_bool (eff_rate e1) (eff_rate e2)
  && option_eqb Z.eqb (eff_count e1) (eff_count e2)
  && option_eqb String.eqb (eff_target e1) (eff_target e2)
  && option_eqb String.eqb (eff_name e1) (eff_name e2)
  && option_eqb Z.eqb (eff_turns e1) (eff_turns e2).

Definition Skill_eqb (s1 s2 : Skill) : bool :=
  String.eqb (skill_id s1) (skill_id s2)
  && String.eqb (skill_name s1) (skill_name s2)
  && String.eqb (slot s1) (slot s2)
  && String.eqb (timing s1) (timing s2)
  && Qeq_bool (proc s1) (proc s2)
  && list_eqb Effect_eqb (effects s1) (effects s2).

Definition Stats_eqb (s1 s2 : Stats) : bool :=
  Qeq_bool (stat_str s1) (stat_str s2)
  && Qeq_bool (stat_int s1) (stat_int s2)
  && Qeq_bool (stat_lea s1) (stat_lea s2)
  && Qeq_bool (stat_spd s1) (stat_spd s2).

Definition Unit_eqb (u v : Unit) : bool :=
  String.eqb (unit_id u) (unit_id v)
  && String.eqb (unit_name u) (unit_name v)
  && Stats_eqb (stats u) (stats v)
  && (max_soldiers u =? max_soldiers v)
  && (soldiers u =? soldiers v)
  && Skill_eqb (unique_skill u) (unique_skill v)
  && option_eqb Skill_eqb (learn20_skill u) (learn20_skill v)
  && option_eqb Skill_eqb (awaken_skill u) (awaken_skill v)
  && bool_decide (statuses u = statuses v).

(** ** The engine *)

Section Engine.
Context `{RG : RandomGen}.

(** [class Engine]: the tuning, the generator and the trigger counters. *)
Record Engine := mkEngine {
  T : Tuning;
  rng : rng_state;
  triggers : list (string * Z)
}.

(** [Engine.__init__]. *)
Definition new_engine (tuning : Tuning) (seed : Z) : Engine :=
  mkEngine tuning (rng_seed seed) [].

Definition with_rng (E : Engine) (g : rng_state) : Engine :=
  mkEngine (T E) g (triggers E).

(** The engine together with the store of the [Unit] objects of a battle. *)
Record World := mkWorld {
  eng : Engine;
  heap : list Unit
}.

(** [rng.uniform(a, b)], which the library computes as
    [a + (b - a) * random()]. *)
Definition uniform (a b : Q) (g : rng_state) : Q * rng_state :=
  let (r, g') := rng_random g in ((a + (b - a) * r)%Q, g').

Definition random_factor (E : Engine) : Q * rng_state :=
  uniform (default (95 # 100)%Q (random_min (T E)))
          (default (105 # 100)%Q (random_max (T E))) (rng E).

(** *** Tunable formulas *)

(** [(a.soldiers / a.max_soldiers) if a.max_soldiers else 1.0], with the
    division that can raise. *)
Definition troop_scale_checked (a : Unit) : option Q :=
  if negb (max_soldiers a =? 0)
  then truediv (soldiers a) (max_soldiers a)
  else Some 1%Q.

(** The same expression as a total function; [troop_scale_checked_total]
    shows that the two agree, that is, that the division never raises. *)
Definition troop_scale (a : Unit) : Q :=
  if negb (max_soldiers a =? 0)
  then (inject_Z (soldiers a) / inject_Z (max_soldiers a))%Q
  else 1%Q.

(** [base * rate * scale] in [physical_damage]. *)
Definition physical_power (tn : Tuning) (a d : Unit) (rate : Q) : Q :=
  let atk_mix_lea := default (1 # 2)%Q (attack_mix_lea tn) in
  let def_fac := default (7 # 10)%Q (defense_factor_physical tn) in
  let scale := default 20%Q (physical_scale tn) in
  let atk := (stat_str (stats a) + atk_mix_lea * stat_lea (stats a))%Q in
  let df := stat_lea (stats d) in
  let base := py_max 0%Q (atk - def_fac * df)%Q in
  (base * rate * scale)%Q.

(** The value of [dmg] in [physical_damage] before the random factor. *)
Definition physical_base (tn : Tuning) (a d : Unit) (rate : Q) : Q :=
  (physical_power tn a d rate * troop_scale a)%Q.

Definition physical_damage (E : Engine) (a d : Unit) (rate : Q)
  : Z * Engine :=
  let dmg := physical_base (T E) a d rate in
  let (r, g) := random_factor E in
  (py_int (py_max 1%Q (dmg * r)%Q), with_rng E g).

(** [base * rate * scale] in [strategy_damage]. *)
Definition strategy_power (tn : Tuning) (a d : Unit) (rate : Q) : Q :=
  let def_fac := default (8 # 10)%Q (defense_factor_strategy tn) in
  let scale := default 22%Q (strategy_scale tn) in
  let atk := stat_int (stats a) in
  let df := stat_int (stats d) in
  let base := py_max 0%Q (atk - def_fac * df)%Q in
  (base * rate * scale)%Q.

(** The value of [dmg] in [strategy_damage] before the random factor. *)
Definition strategy_base (tn : Tuning) (a d : Unit) (rate : Q) : Q :=
  (strategy_power tn a d rate * troop_scale a)%Q.

Definition strategy_damage (E : Engine) (a d : Unit) (rate : Q)
  : Z * Engine :=
  let dmg := strategy_base (T E) a d rate in
  let (r, g) := random_factor E in
  (py_int (py_max 1%Q (dmg * r)%Q), with_rng E g).

(** The value of [base] in [heal] before the random factor. *)
Definition heal_base (tn : Tuning) (h : Unit) (rate : Q) : Q :=
  let scale := default 18%Q (heal_scale tn) in
  (stat_int (stats h) * rate * scale)%Q.

(** [heal(h, t, rate)]: the returned amount, the target after the
    assignment to [t.soldiers], and the engine after the draw. *)
Definition heal (E : Engine) (h t : Unit) (rate : Q) : Z * Unit * Engine :=
  let base := heal_base (T E) h rate in
  let (r, g) := random_factor E in
  let amt := py_int (py_max 1%Q (base * r)%Q) in
  (amt,
   with_soldiers t (Z.min (max_soldiers t) (soldiers t + amt)),
   with_rng E g).

(** *** Selection of units *)

Definition alive_at (h : list Unit) (r : nat) : bool :=
  match h !! r with Some u => is_alive u | None => false end.

Definition soldiers_at (h : list Unit) (r : nat) : Z :=
  match h !! r with Some u => soldiers u | None => 0 end.

Definition spd_at (h : list Unit) (r : nat) : Q :=
  match h !! r with Some u => stat_spd (stats u) | None => 0%Q end.

Definition _alive (h : list Unit) (team : list nat) : list nat :=
  List.filter (alive_at h) team.

(** [rng.choice(alive) if alive else None]; [choice] indexes the list with
    one draw below its length. *)
Definition _pick_enemy (E : Engine) (h : list Unit) (enemy_team : list nat)
  : option nat * Engine :=
  match _alive h enemy_team with
  | [] => (None, E)
  | r0 :: rest =>
      let alive := r0 :: rest in
      let (i, g) := rng_randbelow (Z.of_nat (length alive)) (rng E) in
      (Some (nth (Z.to_nat i) alive r0), with_rng E g)
  end.

Definition _pick_allies_lowest (h : list Unit) (team : list nat) (count : Z)
  : list nat :=
  let alive :=
    stable_sort (fun y x => soldiers_at h y <? soldiers_at h x)
                (_alive h team) in
  take (Z.to_nat (Z.max 0 (Z.min count (Z.of_nat (length alive))))) alive.

Definition _record (E : Engine) (sk : Skill) : Engine :=
  mkEngine (T E) (rng E) (counter_add (skill_name sk) 1 (triggers E)).

(** [u in team]: some element of [team] is the object [u] or equals it. *)
Definition in_team (h : list Unit) (u : nat) (team : list nat) : bool :=
  existsb
    (fun r =>
       Nat.eqb r u
       || match h !! r, h !! u with
          | Some x, Some y => Unit_eqb x y
          | _, _ => false
          end)
    team.

(** *** The effect interpreter *)

(** [target.soldiers = max(0, target.soldiers - dmg)]. *)
Definition hit (h : list Unit) (r : nat) (dmg : Z) : list Unit :=
  match h !! r with
  | Some d => <[r := with_soldiers d (Z.max 0 (soldiers d - dmg))]> h
  | None => h
  end.

Definition damage_with (formula : Engine -> Unit -> Unit -> Q -> Z * Engine)
    (w : World) (self_u enemy_u : nat) (rate : Q) : World :=
  match heap w !! self_u, heap w !! enemy_u with
  | Some a, Some d =>
      let (dmg, E') := formula (eng w) a d rate in
      mkWorld E' (hit (heap w) enemy_u dmg)
  | _, _ => w
  end.

(** One iteration of [for t in targets: self.heal(self_u, t, rate)]. *)
Definition heal_ref (self_u : nat) (rate : Q) (w : World) (t : nat) : World :=
  match heap w !! self_u, heap w !! t with
  | Some hu, Some tu =>
      let '(_, tu', E') := heal (eng w) hu tu rate in
      mkWorld E' (<[t := tu']> (heap w))
  | _, _ => w
  end.

Definition opt_is (o : option string) (s : string) : bool :=
  option_eqb String.eqb o (Some s).

(** The body of the loop of [_apply_effects]. *)
Definition apply_effect (self_u enemy_u : nat)
    (team_self team_enemy : list nat) (w : World) (eff : Effect) : World :=
  let et := eff_type eff in
  if opt_is et "physical_damage" then
    damage_with physical_damage w self_u enemy_u (default 1%Q (eff_rate eff))
  else if opt_is et "strategy_damage" then
    damage_with strategy_damage w self_u enemy_u (default 1%Q (eff_rate eff))
  else if opt_is et "heal" then
    let count := default 1 (eff_count eff) in
    let targets :=
      if opt_is (eff_target eff) "ally_lowest"
      then _pick_allies_lowest (heap w) team_self count
      else [self_u] in
    foldl (heal_ref self_u (default 1%Q (eff_rate eff))) w targets
  else if opt_is et "status" then
    if opt_is (eff_name eff) "confusion" then
      match heap w !! enemy_u with
      | Some d =>
          mkWorld (eng w)
            (<[enemy_u := add_status d "confusion" (default 1 (eff_turns eff)) 1]>
               (heap w))
      | None => w
      end
    else w
  else w.

Definition _apply_effects (w : World) (sk : Skill) (self_u enemy_u : nat)
    (team_self team_enemy : list nat) : World :=
  foldl (apply_effect self_u enemy_u team_self team_enemy) w (effects sk).

(** *** The battle resolver *)

(** The sort key [(u.stats.get("spd", 0.0), self.rng.random())] of every
    unit, computed in list order: one draw per unit. *)
Fixpoint sort_keys (h : list Unit) (g : rng_state) (l : list nat)
  : list (nat * (Q * Q)) * rng_state :=
  match l with
  | [] => ([], g)
  | r :: l' =>
      let (x, g1) := rng_random g in
      let (ks, g2) := sort_keys h g1 l' in
      ((r, (spd_at h r, x)) :: ks, g2)
  end.

(** [k1 < k2] on tuples of two floats. *)
Definition key_lt (k1 k2 : Q * Q) : bool :=
  if Qeq_bool (fst k1) (fst k2) then Qltb (snd k1) (snd k2)
  else Qltb (fst k1) (fst k2).

(** [sorted([u for u in all_units if u.is_alive()], key=..., reverse=True)]. *)
Definition turn_order (w : World) (all_units : list nat) : list nat * World :=
  let (ks, g) := sort_keys (heap w) (rng (eng w)) (_alive (heap w) all_units) in
  (map fst (stable_sort (fun y x => key_lt (snd x) (snd y)) ks),
   mkWorld (with_rng (eng w) g) (heap w)).

(** [self.T.get("confusion_skip_action", True) and u.has("confusion")]. *)
Definition confused (tn : Tuning) (u : Unit) : bool :=
  default true (confusion_skip_action tn) && has u "confusion".

(** The loop [for sk in u.all_skills()] of both passes, for the timing
    [tm]: the draw against [proc] is made only for a skill of that timing,
    and the team of [u] is looked up again at every trigger. *)
Definition fire_skill (tm : string) (team_a team_b : list nat)
    (u target : nat) (enemy_team : list nat) (w : World) (sk : Skill)
  : World :=
  if String.eqb (timing sk) tm then
    let (x, g) := rng_random (rng (eng w)) in
    if Qltb x (proc sk) then
      let w1 := mkWorld (_record (with_rng (eng w) g) sk) (heap w) in
      _apply_effects w1 sk u target
        (if in_team (heap w1) u team_a then team_a else team_b) enemy_team
    else mkWorld (with_rng (eng w) g) (heap w)
  else w.

Definition fire_skills (tm : string) (team_a team_b : list nat)
    (u target : nat) (enemy_team : list nat) (w : World)
    (sks : list Skill) : World :=
  foldl (fire_skill tm team_a team_b u target enemy_team) w sks.

(** The body of the loop "start timing skills". *)
Definition start_action (team_a team_b : list nat) (w : World) (u : nat)
  : World :=
  match heap w !! u with
  | None => w
  | Some uv =>
      if negb (is_alive uv) then w
      else if confused (T (eng w)) uv then w
      else
        let enemy_team :=
          if in_team (heap w) u team_a then team_b else team_a in
        match _pick_enemy (eng w) (heap w) enemy_team with
        | (None, _) => w
        | (Some target, E1) =>
            fire_skills "start" team_a team_b u target enemy_team
                        (mkWorld E1 (heap w)) (all_skills uv)
        end
  end.

(** The first half of the body of the loop "normal attack + after_attack":
    the guards, the choice of the target and the basic attack.  [None]
    stands for [continue]. *)
Definition basic_attack (team_a team_b : list nat) (w : World) (u : nat)
  : option (nat * list nat * World) :=
  match heap w !! u with
  | None => None
  | Some uv =>
      if negb (is_alive uv) then None
      else if confused (T (eng w)) uv then None
      else
        let enemy_team :=
          if in_team (heap w) u team_a then team_b else team_a in
        match _pick_enemy (eng w) (heap w) enemy_team with
        | (None, _) => None
        | (Some target, E1) =>
            Some (target, enemy_team,
                  damage_with physical_damage (mkWorld E1 (heap w))
                              u target 1%Q)
        end
  end.

(** The whole body: after the basic attack, the after_attack skills when
    [target.is_alive()]. *)
Definition attack_action (team_a team_b : list nat) (w : World) (u : nat)
  : World :=
  match basic_attack team_a team_b w u with
  | None => w
  | Some (target, enemy_team, w1) =>
      if alive_at (heap w1) target then
        match heap w1 !! u with
        | Some uv =>
            fire_skills "after_attack" team_a team_b u target enemy_team
                        w1 (all_skills uv)
        | None => w1
        end
      else w1
  end.

(** [for u in all_units: if u.is_alive(): u.tick_statuses_end_of_turn()]. *)
Definition tick_ref (h : list Unit) (r : nat) : list Unit :=
  match h !! r with
  | Some u => if is_alive u then <[r := tick_statuses_end_of_turn u]> h else h
  | None => h
  end.

(** One iteration of [for turn in range(1, max_turns + 1)] after the two
    termination checks. *)
Definition turn_body (team_a team_b : list nat) (w : World) : World :=
  let all_units := team_a ++ team_b in
  let (order, w0) := turn_order w all_units in
  let w1 := foldl (start_action team_a team_b) w0 order in
  let w2 := foldl (attack_action team_a team_b) w1 order in
  mkWorld (eng w2) (foldl tick_ref (heap w2) all_units).

Definition sum_soldiers (h : list Unit) (team : list nat) : Z :=
  foldr (fun r acc => soldiers_at h r + acc) 0 team.

(** [(initial - now) / initial if initial else 0.0]. *)
Definition loss_rate (initial now : Z) : Q :=
  if negb (initial =? 0) then (inject_Z (initial - now) / inject_Z initial)%Q
  else 0%Q.

Definition _final (w : World) (win : Winner) (turns_ : Z)
    (a_initial b_initial : Z) (team_a team_b : list nat) : BattleResult :=
  let a_now := sum_soldiers (heap w) team_a in
  let b_now := sum_soldiers (heap w) team_b in
  mkBattleResult win turns_ (loss_rate a_initial a_now)
                 (loss_rate b_initial b_now) (triggers (eng w)).

(** The loop of [run_battle]: [n] iterations remain, [turn] is the loop
    variable. *)
Fixpoint battle_loop (n : nat) (turn : Z) (mx a_initial b_initial : Z)
    (team_a team_b : list nat) (w : World) : BattleResult * World :=
  match n with
  | O => (_final w WinDraw mx a_initial b_initial team_a team_b, w)
  | S n' =>
      match _alive (heap w) team_a with
      | [] => (_final w WinB (turn - 1) a_initial b_initial team_a team_b, w)
      | _ :: _ =>
          match _alive (heap w) team_b with
          | [] =>
              (_final w WinA (turn - 1) a_initial b_initial team_a team_b, w)
          | _ :: _ =>
              battle_loop n' (turn + 1) mx a_initial b_initial team_a team_b
                          (turn_body team_a team_b w)
          end
      end
  end.

(** [run_battle] on teams given as lists of references into the store. *)
Definition run_battle_refs (w : World) (team_a team_b : list nat)
  : BattleResult * World :=
  let mx := default 8 (max_turns (T (eng w))) in
  battle_loop (Z.to_nat mx) 1 mx
              (sum_soldiers (heap w) team_a) (sum_soldiers (heap w) team_b)
              team_a team_b w.

(** The references of two teams of distinct objects laid out one after the
    other in a fresh store. *)
Definition refs_a (team_a : list Unit) : list nat := seq 0 (length team_a).
Definition refs_b (team_a team_b : list Unit) : list nat :=
  seq (length team_a) (length team_b).

(** [Engine.run_battle(team_a, team_b)] on two lists of distinct [Unit]
    objects: the result, and the engine and the units as the call leaves
    them. *)
Definition run_battle (E : Engine) (team_a team_b : list Unit)
  : BattleResult * World :=
  run_battle_refs (mkWorld E (team_a ++ team_b))
                  (refs_a team_a) (refs_b team_a team_b).

End Engine.

(** ** The formulas in doubles

    [physical_damage], [strategy_damage] and [heal] as the code computes
    them, operation by operation in binary64.  The stats, the rate, the
    tunables and the draw of [random()] are doubles, given by their exact
    values.  [None] is an exception raised by the call: the
    [OverflowError] of [int] on an infinite amount, or that of the troop
    division. *)

Module Double.
Section Formulas.
Context `{RG : RandomGen}.

(** [rng.uniform(a, b)], which the library computes as
    [a + (b - a) * random()]. *)
Definition uniform (a b : float) (g : rng_state) : float * rng_state :=
  let (r, g') := rng_random g in (fadd a (fmul (fsub b a) (of_Q r)), g').

Definition random_factor (E : Engine) : float * rng_state :=
  uniform (of_Q (default (95 # 100)%Q (random_min (T E))))
          (of_Q (default (105 # 100)%Q (random_max (T E)))) (rng E).

(** [(a.soldiers / a.max_soldiers) if a.max_soldiers else 1.0]. *)
Definition troop_scale (a : Unit) : option float :=
  if negb (max_soldiers a =? 0)
  then int_truediv (soldiers a) (max_soldiers a)
  else Some (of_Q 1).

Definition physical_damage (E : Engine) (a d : Unit) (rate : Q)
  : option (Z * Engine) :=
  let atk_mix_lea := of_Q (default (1 # 2)%Q (attack_mix_lea (T E))) in
  let def_fac := of_Q (default (7 # 10)%Q (defense_factor_physical (T E))) in
  let scale := of_Q (default 20%Q (physical_scale (T E))) in
  let atk := fadd (of_Q (stat_str (stats a)))
                  (fmul atk_mix_lea (of_Q (stat_lea (stats a)))) in
  let df := of_Q (stat_lea (stats d)) in
  let base := fmax0 (fsub atk (fmul def_fac df)) in
  match troop_scale a with
  | None => None
  | Some ts =>
      let dmg := fmul (fmul (fmul base (of_Q rate)) scale) ts in
      let (r, g) := random_factor E in
      match int_max1 (fmul dmg r) with
      | Some n => Some (n, with_rng E g)
      | None => None
      end
  end.

Definition strategy_damage (E : Engine) (a d : Unit) (rate : Q)
  : option (Z * Engine) :=
  let def_fac := of_Q (default (8 # 10)%Q (defense_factor_strategy (T E))) in
  let scale := of_Q (default 22%Q (strategy_scale (T E))) in
  let atk := of_Q (stat_int (stats a)) in
  let df := of_Q (stat_int (stats d)) in
  let base := fmax0 (fsub atk (fmul def_fac df)) in
  match troop_scale a with
  | None => None
  | Some ts =>
      let dmg := fmul (fmul (fmul base (of_Q rate)) scale) ts in
      let (r, g) := random_factor E in
      match int_max1 (fmul dmg r) with
      | Some n => Some (n, with_rng E g)
      | None => None
      end
  end.

(** [heal(h, t, rate)]: the returned amount, the target after the
    assignment to [t.soldiers], and the engine after the draw. *)
Definition heal (E : Engine) (h t : Unit) (rate : Q)
  : option (Z * Unit * Engine) :=
  let scale := of_Q (default 18%Q (heal_scale (T E))) in
  let base := fmul (fmul (of_Q (stat_int (stats h))) (of_Q rate)) scale in
  let (r, g) := random_factor E in
  match int_max1 (fmul base r) with
  | Some amt =>
      Some (amt,
            with_soldiers t (Z.min (max_soldiers t) (soldiers t + amt)),
            with_rng E g)
  | None => None
  end.

End Formulas.
End Double.

(** [max(1, floor(v))], the amount of the specification for a computed
    value [v]: there is no floor of an infinite value above 1; a value
    that is not above 1 (minus infinity, not-a-number) gives 1. *)
Definition floor_min_one (v : float) : option Z :=
  match v with
  | S754_infinity false => None
  | S754_infinity true | S754_nan => Some 1
  | _ => Some (Z.max 1 (Qfloor (fvalue v)))
  end.

(** ** The Monte Carlo driver *)

Section Aggregator.
Context `{RG : RandomGen}.

(** Whatever a Python callable can read and write besides its argument. *)
Variable Env : Type.

(** [statistics.pstdev], a square root: a function of the sample list that
    the rational model does not define. *)
Variable pstdev : list Q -> Q.

(** The dictionary returned by the local function [stats]. *)
Record Summary := mkSummary {
  s_mean : Q;
  s_median : Q;
  s_min : Q;
  s_max : Q;
  s_stdev : Q
}.

(** The dictionary [wins]. *)
Record Wins := mkWins {
  wins_A : Z;
  wins_B : Z;
  wins_draw : Z
}.

(** The dictionary returned by [simulate_many]. *)
Record AggregateResult := mkAggregateResult {
  agg_n : Z;
  agg_wins : Wins;
  win_rate_A : float;
  win_rate_B : float;
  draw_rate : float;
  loss_A : Summary;
  loss_B : Summary;
  skill_triggers_top : list (string * Z)
}.

(** The accumulators of the loop. *)
Record Acc := mkAcc {
  acc_wins : Wins;
  a_losses : list Q;
  b_losses : list Q;
  trig : list (string * Z)
}.

Definition acc0 : Acc := mkAcc (mkWins 0 0 0) [] [] [].

(** [wins[res.winner] += 1]. *)
Definition count_win (ws : Wins) (x : Winner) : Wins :=
  match x with
  | WinA => mkWins (wins_A ws + 1) (wins_B ws) (wins_draw ws)
  | WinB => mkWins (wins_A ws) (wins_B ws + 1) (wins_draw ws)
  | WinDraw => mkWins (wins_A ws) (wins_B ws) (wins_draw ws + 1)
  end.

(** The loop body after the call of [build_once]. *)
Definition fold_result (acc : Acc) (res : BattleResult) : Acc :=
  mkAcc (count_win (acc_wins acc) (winner res))
        (a_losses acc ++ [a_loss_rate res])
        (b_losses acc ++ [b_loss_rate res])
        (foldl (fun t kv => counter_add (fst kv) (snd kv) t)
               (trig acc) (res_triggers res)).

(** [rng.randint(0, 10**9)]. *)
Definition randint_seed (g : rng_state) : Z * rng_state :=
  rng_randbelow (10 ^ 9 + 1) g.

(** [for _ in range(n)], with [k] iterations remaining. *)
Fixpoint trials (build_once : Z -> Env -> BattleResult * Env) (k : nat)
    (g : rng_state) (acc : Acc) (env : Env) : Acc * Env :=
  match k with
  | O => (acc, env)
  | S k' =>
      let (sd, g') := randint_seed g in
      let (res, env') := build_once sd env in
      trials build_once k' g' (fold_result acc res) env'
  end.

Definition Qsum (xs : list Q) : Q := foldr Qplus 0%Q xs.

Definition Qsorted (xs : list Q) : list Q := stable_sort Qltb xs.

(** [statistics.median]. *)
Definition median (xs : list Q) : Q :=
  let data := Qsorted xs in
  let n := length data in
  if Nat.odd n then nth (n / 2) data 0%Q
  else ((nth (n / 2 - 1) data 0 + nth (n / 2) data 0) / 2)%Q.

Definition Qmin_list (xs : list Q) : Q :=
  match xs with
  | [] => 0%Q
  | x :: xs' => foldl (fun m y => if Qltb y m then y else m) x xs'
  end.

Definition Qmax_list (xs : list Q) : Q :=
  match xs with
  | [] => 0%Q
  | x :: xs' => foldl (fun m y => if Qltb m y then y else m) x xs'
  end.

(** The local function [stats]. *)
Definition summary (xs : list Q) : Summary :=
  match xs with
  | [] => mkSummary 0 0 0 0 0
  | _ :: _ =>
      mkSummary (Qsum xs / inject_Z (Z.of_nat (length xs)))%Q (median xs)
                (Qmin_list xs) (Qmax_list xs) (pstdev xs)
  end.

(** [wins[k] / n if n else 0.0]: the correctly rounded quotient of the
    two ints, which cannot overflow for a count of at most [n] trials. *)
Definition rate (c n : Z) : float :=
  if negb (n =? 0) then fdiv (int_operand c) (int_operand n)
  else S754_zero false.

(** [dict(sorted(trig.items(), key=lambda x: x[1], reverse=True)[:15])]. *)
Definition trig_top (t : list (string * Z)) : list (string * Z) :=
  take 15 (stable_sort (fun y x => snd x <? snd y) t).

(** The dictionary built after the loop. *)
Definition finish (n : Z) (acc : Acc) : AggregateResult :=
  let ws := acc_wins acc in
  mkAggregateResult n ws (rate (wins_A ws) n) (rate (wins_B ws) n)
                    (rate (wins_draw ws) n)
                    (summary (a_losses acc)) (summary (b_losses acc))
                    (trig_top (trig acc)).

Definition simulate_many (build_once : Z -> Env -> BattleResult * Env)
    (n : Z) (seed : Z) (env : Env) : AggregateResult * Env :=
  let (acc, env') :=
    trials build_once (Z.to_nat n) (rng_seed seed) acc0 env in
  (finish n acc, env').

(** The first [k] draws of [rng.randint(0, 10**9)] from the generator [g]:
    the sub-seeds of [k] trials. *)
Fixpoint sub_seeds (k : nat) (g : rng_state) : list Z :=
  match k with
  | O => []
  | S k' => let (sd, g') := randint_seed g in sd :: sub_seeds k' g'
  end.

End Aggregator.

Arguments trials {RG Env} build_once k g acc env.
Arguments simulate_many {RG Env} pstdev build_once n seed env.

(** ** A generator to run the engine with

    A linear congruential generator, an instance of [RandomGen] on which
    the definitions above evaluate. *)

Definition lcg_modulus : Z := 2147483648.

Definition lcg_next (g : Z) : Z := (1103515245 * g + 12345) mod lcg_modulus.

Definition lcg_random (g : Z) : Q * Z :=
  let g' := lcg_next g in (Qmake g' (Z.to_pos lcg_modulus), g').

Definition lcg_randbelow (n : Z) (g : Z) : Z * Z :=
  let g' := lcg_next g in (g' mod n, g').

Lemma lcg_next_range (g : Z) : 0 <= lcg_next g < lcg_modulus.
Proof. unfold lcg_next. apply Z.mod_pos_bound. reflexivity. Qed.

Lemma lcg_random_range (g : Z) :
  (0 <= fst (lcg_random g))%Q /\ (fst (lcg_random g) < 1)%Q.
Proof.
  pose proof (lcg_next_range g) as Hg. unfold lcg_random, Qle, Qlt.
  cbn [fst Qnum Qden]. unfold lcg_modulus in *. cbn [Z.to_pos]. lia.
Qed.

Lemma lcg_randbelow_range (n g : Z) :
  0 < n -> 0 <= fst (lcg_randbelow n g) < n.
Proof. intros Hn. unfold lcg_randbelow. simpl. apply Z.mod_pos_bound, Hn. Qed.

#[global] Instance lcg : RandomGen := {|
  rng_state := Z;
  rng_seed := fun s => s mod lcg_modulus;
  rng_random := lcg_random;
  rng_randbelow := lcg_randbelow;
  rng_random_range := lcg_random_range;
  rng_randbelow_range := lcg_randbelow_range
|}.

(** ** Sample data *)

(** An empty tuning dictionary: every tunable takes its default. *)
Definition no_tuning : Tuning :=
  mkTuning None None None None None None None None None None.

(** A start skill that always triggers: a strategy hit, then a heal of the
    caster. *)
Definition sk_drain : Skill :=
  mkSkill "s1" "drain" "unique" "start" 1%Q
    [mkEffect (Some "strategy_damage") (Some 100%Q) None None None None;
     mkEffect (Some "heal") None None None None None].

(** A skill that never triggers, as [make_unit] builds it for a unit
    without a unique skill. *)
Definition sk_none : Skill :=
  mkSkill "" "" "unique" "after_attack" 0%Q [].

Definition general (sk : Skill) (mx s : Z) : Unit :=
  mkUnit "u1" "general" (mkStats 100 100 0 10) mx s sk None None ∅.

(** A unit at full strength with the skill [sk_drain]. *)
Definition mirror : Unit := general sk_drain 10000 10000.

(** A unit at full strength without any effective skill. *)
Definition plain : Unit := general sk_none 10000 10000.

(** A unit with few troops left. *)
Definition weakened : Unit := general sk_none 10000 100.

(** A unit that was never fielded: no troops and no capacity. *)
Definition no_troops : Unit := general sk_none 0 0.

(** A unit that carries confusion for two more turns. *)
Definition dazed : Unit :=
  with_statuses plain {[ "confusion" := mkStatus "confusion" 2 1 ]}.

(** ** Rational arithmetic *)

Lemma Qltb_lt (x y : Q) : Qltb x y = true <-> (x < y)%Q.
Proof.
  unfold Qltb. rewrite negb_true_iff. split.
  - intros H. apply Qnot_le_lt. intros Hle.
    apply Qle_bool_iff in Hle. congruence.
  - intros H. destruct (Qle_bool y x) eqn:E; [|reflexivity].
    apply Qle_bool_iff in E. exfalso. exact (Qlt_not_le _ _ H E).
Qed.

Lemma Qltb_ge (x y : Q) : Qltb x y = false <-> (y <= x)%Q.
Proof.
  unfold Qltb. rewrite negb_false_iff. apply Qle_bool_iff.
Qed.

(** [int(max(1, x))] is [max(1, floor x)]: the truncation of [int] is only
    ever applied to a value above 1, where it is the floor. *)
Lemma py_int_max1 (x : Q) : py_int (py_max 1%Q x) = Z.max 1 (Qfloor x).
Proof.
  unfold py_max. destruct (Qltb 1 x) eqn:E.
  - apply Qltb_lt in E.
    assert (H1 : 1 <= Qfloor x).
    { change 1 with (Qfloor 1). apply Qfloor_resp_le, Qlt_le_weak, E. }
    rewrite Z.max_r by exact H1.
    destruct x as [n d]. unfold py_int, Qfloor in *. cbn [Qnum Qden] in *.
    apply Z.quot_div_nonneg; [|reflexivity].
    unfold Qlt in E. cbn in E. lia.
  - apply Qltb_ge in E.
    assert (H1 : Qfloor x <= 1).
    { change 1 with (Qfloor 1). apply Qfloor_resp_le, E. }
    rewrite Z.max_l by exact H1. reflexivity.
Qed.

Lemma py_int_max1_pos (x : Q) : 1 <= py_int (py_max 1%Q x).
Proof. rewrite py_int_max1. lia. Qed.

(** ** Statuses *)

(** C7. Re-applying a status that the unit carries sets its [turns_left]
    to the maximum of the old and the new value and adds the stacks, capped
    at 99; applying one that it does not carry creates it with the given
    turns and stacks. *)
Theorem add_status_refresh (u : Unit) (name : string) (turns_ stacks_ : Z) :
  (forall s : Status,
      statuses u !! name = Some s ->
      statuses (add_status u name turns_ stacks_) !! name
      = Some (mkStatus (status_name s)
                       (Z.max (turns_left s) turns_)
                       (Z.min (stacks s + stacks_) 99)))
  /\ (statuses u !! name = None ->
      statuses (add_status u name turns_ stacks_) !! name
      = Some (mkStatus name turns_ stacks_)).
Proof.
  unfold add_status. split.
  - intros s Hs. rewrite Hs. cbn. apply lookup_insert_eq.
  - intros Hn. rewrite Hn. cbn. apply lookup_insert_eq.
Qed.

Lemma add_status_refresh_witness :
  statuses (add_status dazed "confusion" 1 1) !! "confusion"
  = Some (mkStatus "confusion" 2 2)
  /\ statuses (add_status plain "confusion" 3 1) !! "confusion"
     = Some (mkStatus "confusion" 3 1).
Proof.
  split.
  - apply (proj1 (add_status_refresh dazed "confusion" 1 1)
                 (mkStatus "confusion" 2 1)).
    reflexivity.
  - apply (proj2 (add_status_refresh plain "confusion" 3 1)).
    reflexivity.
Defined.

(** ** Formulas *)

Section Formulas.
Context `{RG : RandomGen}.

(** The guarded division of the troop scale never raises. *)
Lemma troop_scale_checked_total (a : Unit) :
  troop_scale_checked a = Some (troop_scale a).
Proof.
  unfold troop_scale_checked, troop_scale, truediv.
  destruct (max_soldiers a =? 0); reflexivity.
Qed.

(** C3, as the code has it. For an attacker whose [max_soldiers] is 0 the
    troop scale of [physical_damage] and of [strategy_damage] is 1.0, and
    its computation does not raise: the damage before the random factor is
    the full [base * rate * scale]. *)
Theorem troop_scale_zero_max (tn : Tuning) (a d : Unit) (rate : Q) :
  max_soldiers a = 0 ->
  troop_scale_checked a = Some 1%Q
  /\ physical_base tn a d rate = (physical_power tn a d rate * 1)%Q
  /\ strategy_base tn a d rate = (strategy_power tn a d rate * 1)%Q.
Proof.
  intros Hz. unfold physical_base, strategy_base.
  rewrite troop_scale_checked_total. unfold troop_scale. rewrite Hz.
  repeat split.
Qed.



Lemma heal_value (E : Engine) (h t : Unit) (rate : Q) :
  heal E h t rate
  = (Z.max 1 (Qfloor (heal_base (T E) h rate * fst (random_factor E))),
     with_soldiers t
       (Z.min (max_soldiers t)
              (soldiers t
               + Z.max 1 (Qfloor (heal_base (T E) h rate
                                  * fst (random_factor E))))),
     with_rng E (snd (random_factor E))).
Proof.
  unfold heal. destruct (random_factor E) as [r g]. cbn [fst snd].
  rewrite py_int_max1. reflexivity.
Qed.

(** [int(max(1, v))] on a double is the [max(1, floor(v))] of the
    specification: [max] lets [v] through only when it is above 1, where
    the truncation of [int] is the floor and where the only failure is
    that of an infinite [v]. *)
Lemma int_max1_spec (v : float) :
  int_max1 v = floor_min_one v
  /\ (forall n, int_max1 v = Some n -> 1 <= n)
  /\ (forall q, real_value v = Some q -> (1 <= q)%Q ->
                int_max1 v = Some (Qfloor q))
  /\ (int_max1 v = None <-> v = S754_infinity false).
Proof.
  assert (H : int_max1 v = floor_min_one v).
  { destruct v as [s|[|]| |s m e]; try reflexivity.
    unfold int_max1, int_ltb_float, float_to_int, floor_min_one.
    rewrite <- py_int_max1. unfold py_max.
    change (inject_Z 1) with 1%Q.
    destruct (Qltb 1 (fvalue (S754_finite s m e))); reflexivity. }
  rewrite H. split; [reflexivity|]. split; [|split].
  - intros n. destruct v as [s|[|]| |s m e]; cbn; intros [= <-]; lia.
  - intros q Hq Hle. apply Qfloor_resp_le in Hle.
    change (Qfloor 1) with 1 in Hle.
    destruct v as [s|[|]| |s m e]; cbn [real_value] in Hq;
      try discriminate; injection Hq as <-; cbn [floor_min_one].
    + exfalso. change (Qfloor 0%Q) with 0%Z in Hle. lia.
    + f_equal. unfold fvalue. lia.
  - destruct v as [s|[|]| |s m e]; cbn; split; congruence.
Qed.

(** C6, as the code has it. Let [v] be the damage that the formula
    computes in doubles, [base * rate * scale * troopScale * randomFactor]
    taken from left to right, where [base] is
    [max(0.0, atk - defenseFactor * def)], [troopScale] the troop ratio
    (1.0 for [max_soldiers = 0]) and [randomFactor] the value of
    [uniform(randomMin, randomMax)].  Both damage formulas return
    [max(1, floor(v))]: an integer that is at least 1 and that is the floor
    of [v] whenever [v] is at least 1.  Only when [v] is plus infinity do
    they return nothing: [int] raises [OverflowError]. *)
Theorem damage_floor_min_one (E : Engine) (a d : Unit) (rate : Q)
    (troopScale : float) :
  (if negb (max_soldiers a =? 0)
   then int_truediv (soldiers a) (max_soldiers a)
   else Some (of_Q 1)) = Some troopScale ->
  let tn := T E in
  let randomMin := of_Q (default (95 # 100)%Q (random_min tn)) in
  let randomMax := of_Q (default (105 # 100)%Q (random_max tn)) in
  let randomFactor :=
    fadd randomMin
         (fmul (fsub randomMax randomMin) (of_Q (fst (rng_random (rng E))))) in
  let base_p :=
    fmax0 (fsub (fadd (of_Q (stat_str (stats a)))
                      (fmul (of_Q (default (1 # 2)%Q (attack_mix_lea tn)))
                            (of_Q (stat_lea (stats a)))))
                (fmul (of_Q (default (7 # 10)%Q (defense_factor_physical tn)))
                      (of_Q (stat_lea (stats d))))) in
  let base_s :=
    fmax0 (fsub (of_Q (stat_int (stats a)))
                (fmul (of_Q (default (8 # 10)%Q (defense_factor_strategy tn)))
                      (of_Q (stat_int (stats d))))) in
  let vp :=
    fmul (fmul (fmul (fmul base_p (of_Q rate))
                     (of_Q (default 20%Q (physical_scale tn))))
               troopScale)
         randomFactor in
  let vs :=
    fmul (fmul (fmul (fmul base_s (of_Q rate))
                     (of_Q (default 22%Q (strategy_scale tn))))
               troopScale)
         randomFactor in
  let floored (res : option (Z * Engine)) (v : float) :=
    fst <$> res = floor_min_one v
    /\ (forall n E', res = Some (n, E') -> 1 <= n)
    /\ (forall q, real_value v = Some q -> (1 <= q)%Q ->
                  fst <$> res = Some (Qfloor q))
    /\ (res = None <-> v = S754_infinity false) in
  floored (Double.physical_damage E a d rate) vp
  /\ floored (Double.strategy_damage E a d rate) vs.
Proof.
  intros Hts. cbv zeta.
  unfold Double.physical_damage, Double.strategy_damage, Double.troop_scale,
    Double.random_factor, Double.uniform.
  rewrite Hts. destruct (rng_random (rng E)) as [x g]. cbn [fst].
  split.
  - match goal with |- context [int_max1 ?v] =>
      destruct (int_max1_spec v) as (H1 & H2 & H3 & H4);
      destruct (int_max1 v) as [n|]
    end.
    + split; [exact H1|]. split; [intros n' E' [= <- _]; apply H2; reflexivity|].
      split; [intros q Hq Hle; apply (H3 q Hq Hle)|].
      rewrite <- H4. split; discriminate.
    + split; [exact H1|]. split; [discriminate|].
      split; [intros q Hq Hle; apply (H3 q Hq Hle)|].
      rewrite <- H4. split; reflexivity.
  - match goal with |- context [int_max1 ?v] =>
      destruct (int_max1_spec v) as (H1 & H2 & H3 & H4);
      destruct (int_max1 v) as [n|]
    end.
    + split; [exact H1|]. split; [intros n' E' [= <- _]; apply H2; reflexivity|].
      split; [intros q Hq Hle; apply (H3 q Hq Hle)|].
      rewrite <- H4. split; discriminate.
    + split; [exact H1|]. split; [discriminate|].
      split; [intros q Hq Hle; apply (H3 q Hq Hle)|].
      rewrite <- H4. split; reflexivity.
Qed.

(** C5. Let [v] be the amount that [heal] computes in doubles,
    [int * rate * healScale * randomFactor] taken from left to right.
    [heal] returns [max(1, floor(v))], which is at least 1, whatever room
    the target has, and assigns [min(max_soldiers, soldiers + amount)]:
    the soldiers never exceed [max_soldiers] after a heal; a target that
    is at [max_soldiers] keeps its soldiers, so that the amount returned
    is not the amount applied (0); with room for the whole amount, the
    amount returned is the amount applied.  Only when [v] is plus infinity
    does [heal] return nothing, and then assigns nothing. *)
Theorem heal_cap (E : Engine) (h t : Unit) (rate : Q) :
  let tn := T E in
  let randomMin := of_Q (default (95 # 100)%Q (random_min tn)) in
  let randomMax := of_Q (default (105 # 100)%Q (random_max tn)) in
  let randomFactor :=
    fadd randomMin
         (fmul (fsub randomMax randomMin) (of_Q (fst (rng_random (rng E))))) in
  let v :=
    fmul (fmul (fmul (of_Q (stat_int (stats h))) (of_Q rate))
               (of_Q (default 18%Q (heal_scale tn))))
         randomFactor in
  match floor_min_one v with
  | None => v = S754_infinity false /\ Double.heal E h t rate = None
  | Some amt =>
      exists t',
        Double.heal E h t rate
        = Some (amt, t', with_rng E (snd (rng_random (rng E))))
        /\ 1 <= amt
        /\ t' = with_soldiers t (Z.min (max_soldiers t) (soldiers t + amt))
        /\ soldiers t' <= max_soldiers t
        /\ (soldiers t = max_soldiers t ->
            soldiers t' = soldiers t /\ soldiers t' - soldiers t < amt)
        /\ (soldiers t + amt <= max_soldiers t ->
            soldiers t' - soldiers t = amt)
  end.
Proof.
  cbv zeta. unfold Double.heal, Double.random_factor, Double.uniform.
  destruct (rng_random (rng E)) as [x g]. cbn [fst snd].
  match goal with |- context [int_max1 ?v] =>
    destruct (int_max1_spec v) as (H1 & H2 & _ & H4); rewrite <- H1;
    destruct (int_max1 v) as [amt|]
  end.
  - specialize (H2 amt eq_refl).
    exists (with_soldiers t (Z.min (max_soldiers t) (soldiers t + amt))).
    cbn [soldiers with_soldiers].
    split; [reflexivity|]. split; [exact H2|]. split; [reflexivity|].
    repeat split; lia.
  - split; [apply H4|]; reflexivity.
Qed.

(** What the battle uses of the three formulas holds of both versions:
    whenever the formula in doubles returns, it has made the one draw that
    the formula over the rationals makes, and both amounts are at least
    1. *)
Lemma double_and_exact_formulas (E : Engine) (a d : Unit) (rate : Q) :
  (forall n E', Double.physical_damage E a d rate = Some (n, E') ->
                E' = snd (physical_damage E a d rate)
                /\ 1 <= n /\ 1 <= fst (physical_damage E a d rate))
  /\ (forall n E', Double.strategy_damage E a d rate = Some (n, E') ->
                   E' = snd (strategy_damage E a d rate)
                   /\ 1 <= n /\ 1 <= fst (strategy_damage E a d rate))
  /\ (forall n t' E', Double.heal E a d rate = Some (n, t', E') ->
                      E' = snd (heal E a d rate)
                      /\ 1 <= n /\ 1 <= fst (fst (heal E a d rate))).
Proof.
  unfold Double.physical_damage, Double.strategy_damage, Double.heal,
    Double.random_factor, Double.uniform, physical_damage, strategy_damage,
    heal, random_factor, uniform.
  destruct (rng_random (rng E)) as [x g]. cbn [fst snd].
  split; [|split].
  - intros n E'. destruct (Double.troop_scale a); [|discriminate].
    match goal with |- context [int_max1 ?v] =>
      destruct (int_max1_spec v) as (_ & H2 & _); destruct (int_max1 v)
    end; [|discriminate].
    intros [= <- <-]. split; [reflexivity|].
    split; [apply H2; reflexivity | apply py_int_max1_pos].
  - intros n E'. destruct (Double.troop_scale a); [|discriminate].
    match goal with |- context [int_max1 ?v] =>
      destruct (int_max1_spec v) as (_ & H2 & _); destruct (int_max1 v)
    end; [|discriminate].
    intros [= <- <-]. split; [reflexivity|].
    split; [apply H2; reflexivity | apply py_int_max1_pos].
  - intros n t' E'.
    match goal with |- context [int_max1 ?v] =>
      destruct (int_max1_spec v) as (_ & H2 & _); destruct (int_max1 v)
    end; [|discriminate].
    intros [= <- <- <-]. split; [reflexivity|].
    split; [apply H2; reflexivity | apply py_int_max1_pos].
Qed.

End Formulas.

Lemma troop_scale_zero_max_witness :
  troop_scale_checked no_troops = Some 1%Q
  /\ physical_base no_tuning no_troops plain 1
     = (physical_power no_tuning no_troops plain 1 * 1)%Q
  /\ strategy_base no_tuning no_troops plain 1
     = (strategy_power no_tuning no_troops plain 1 * 1)%Q.
Proof. apply (troop_scale_zero_max no_tuning no_troops plain 1). reflexivity. Defined.

(** C3, as the specification states it, fails: the troop scale of a unit
    with [max_soldiers = 0] is 1, not 0, and its basic attack is at full
    strength (1900 here) where a scale of 0 would give the minimum 1. *)
Lemma troop_scale_zero_max_counterexample :
  max_soldiers no_troops = 0
  /\ troop_scale_checked no_troops = Some 1%Q
  /\ Qeq_bool 1 0 = false
  /\ fst (physical_damage (new_engine no_tuning 0) no_troops plain 1) = 1900.
Proof. vm_compute. repeat split. Qed.

Lemma fst_None {A B} (x : option (A * B)) : fst <$> x = None -> x = None.
Proof. destruct x; [discriminate | reflexivity]. Qed.

(** A tuning without random spread: [uniform(1.0, 1.0)] is 1.0. *)
Definition steady : Tuning :=
  mkTuning None None None None None None (Some 1%Q) (Some 1%Q) None None.

(** A unit of strength 55 with 6900 of its 10000 soldiers left. *)
Definition veteran : Unit :=
  mkUnit "u3" "veteran" (mkStats 55 0 0 10) 10000 6900 sk_none None None ∅.

(** The double [6900 / 10000]. *)
Definition ratio_069 : float := S754_finite false 6214967485771284 (-53).

Lemma damage_floor_min_one_witness :
  let E := @new_engine lcg steady 0 in
  fst <$> Double.physical_damage E veteran plain 1 = Some 758
  /\ fst <$> Double.strategy_damage E veteran plain 1 = Some 1.
Proof.
  cbv zeta.
  assert (Hts : (if negb (max_soldiers veteran =? 0)
                 then int_truediv (soldiers veteran) (max_soldiers veteran)
                 else Some (of_Q 1)) = Some ratio_069)
    by (vm_compute; reflexivity).
  pose proof (damage_floor_min_one (@new_engine lcg steady 0) veteran plain 1
                ratio_069 Hts) as H.
  cbv zeta in H. destruct H as [(Hp & _) (Hs & _)].
  rewrite Hp, Hs. split; vm_compute; reflexivity.
Defined.

(** C6, as the specification states it, fails: a damage formula does not
    return an integer for every rate.  With the rate [2^1023] (a finite
    double, about 9e307) the damage of a unit of strength 100 is infinite,
    and [int] raises. *)
Lemma damage_floor_min_one_counterexample :
  let E := @new_engine lcg no_tuning 0 in
  let rate := inject_Z (2 ^ 1023) in
  real_value (of_Q rate) = Some rate
  /\ Double.physical_damage E plain plain rate = None
  /\ Double.strategy_damage E plain plain rate = None.
Proof.
  cbv zeta. split; [vm_compute; reflexivity|].
  split; apply fst_None; vm_compute; reflexivity.
Qed.

(** The doubles of the code and the exact rationals of the battle model
    can differ by one: 1100.0 times the double [6900 / 10000] is just
    below 759. *)
Remark double_and_exact_damage :
  let E := @new_engine lcg steady 0 in
  fst <$> Double.physical_damage E veteran plain 1 = Some 758
  /\ fst (physical_damage E veteran plain 1) = 759.
Proof. vm_compute. repeat split. Qed.

(** An engine whose next draw of [random()] is 0.75. *)
Definition engine_075 : @Engine lcg := mkEngine no_tuning 1551345283 [].

Lemma heal_cap_witness :
  of_Q (fst (rng_random (rng engine_075))) = of_Q (3 # 4)
  /\ (exists t',
        Double.heal engine_075 plain plain 1
        = Some (1844, t', with_rng engine_075
                            (snd (rng_random (rng engine_075))))
        /\ soldiers t' = soldiers plain)
  /\ (exists t',
        Double.heal engine_075 plain weakened 1
        = Some (1844, t', with_rng engine_075
                            (snd (rng_random (rng engine_075))))
        /\ soldiers t' - soldiers weakened = 1844).
Proof.
  split; [vm_compute; reflexivity|]. split.
  - pose proof (heal_cap engine_075 plain plain 1) as H. cbv zeta in H.
    match type of H with match ?x with _ => _ end =>
      replace x with (Some 1844) in H by (vm_compute; reflexivity)
    end.
    destruct H as (t' & H1 & _ & _ & _ & H5 & _).
    exists t'. split; [exact H1|]. apply H5. reflexivity.
  - pose proof (heal_cap engine_075 plain weakened 1) as H. cbv zeta in H.
    match type of H with match ?x with _ => _ end =>
      replace x with (Some 1844) in H by (vm_compute; reflexivity)
    end.
    destruct H as (t' & H1 & _ & _ & _ & _ & H6).
    exists t'. split; [exact H1|]. apply H6. vm_compute. discriminate.
Defined.

(** ** The battle as a sequence of primitive updates

    Every assignment that [run_battle] makes is one of a few kinds: a draw
    from the generator, a trigger recorded, or an attribute of one unit
    written.  [mutation] lists the writes to a unit; [wstep] is one update
    of the world. *)

Inductive mutation : Unit -> Unit -> Prop :=
| mut_damage (u : Unit) (dmg : Z) :
    1 <= dmg ->
    mutation u (with_soldiers u (Z.max 0 (soldiers u - dmg)))
| mut_heal (u : Unit) (amt : Z) :
    1 <= amt ->
    mutation u (with_soldiers u (Z.min (max_soldiers u) (soldiers u + amt)))
| mut_status (u : Unit) (name : string) (turns_ stacks_ : Z) :
    mutation u (add_status u name turns_ stacks_)
| mut_tick (u : Unit) :
    mutation u (tick_statuses_end_of_turn u).

(** The soldier bound of the data model. *)
Definition bounded (u : Unit) : Prop := 0 <= soldiers u <= max_soldiers u.

Section Steps.
Context `{RG : RandomGen}.

Inductive wstep : World -> World -> Prop :=
| step_draw (w : World) (g : rng_state) :
    wstep w (mkWorld (with_rng (eng w) g) (heap w))
| step_record (w : World) (sk : Skill) :
    wstep w (mkWorld (_record (eng w) sk) (heap w))
| step_write (w : World) (r : nat) (u u' : Unit) :
    heap w !! r = Some u ->
    mutation u u' ->
    wstep w (mkWorld (eng w) (<[r := u']> (heap w))).

Lemma world_eta (w : World) : mkWorld (eng w) (heap w) = w.
Proof. destruct w; reflexivity. Qed.

Lemma steps_foldl {B} (f : World -> B -> World) (l : list B) :
  (forall w x, rtc wstep w (f w x)) ->
  forall w, rtc wstep w (foldl f w l).
Proof.
  intros Hf. induction l as [|x l IH]; intros w; cbn.
  - reflexivity.
  - etrans; [apply Hf | apply IH].
Qed.

(** A damage formula draws once and returns at least 1. *)
Definition good_formula (f : Engine -> Unit -> Unit -> Q -> Z * Engine)
  : Prop :=
  forall E a d rate, exists dmg g, f E a d rate = (dmg, with_rng E g) /\ 1 <= dmg.

Lemma physical_damage_good : good_formula physical_damage.
Proof.
  intros E a d rate. unfold physical_damage.
  destruct (random_factor E) as [r g]. eexists _, _.
  split; [reflexivity | apply py_int_max1_pos].
Qed.

Lemma strategy_damage_good : good_formula strategy_damage.
Proof.
  intros E a d rate. unfold strategy_damage.
  destruct (random_factor E) as [r g]. eexists _, _.
  split; [reflexivity | apply py_int_max1_pos].
Qed.

Lemma steps_damage_with f (w : World) (self_u enemy_u : nat) (rate : Q) :
  good_formula f -> rtc wstep w (damage_with f w self_u enemy_u rate).
Proof.
  intros Hf. unfold damage_with.
  destruct (heap w !! self_u) as [a|]; [|reflexivity].
  destruct (heap w !! enemy_u) as [d|] eqn:Hd; [|reflexivity].
  destruct (Hf (eng w) a d rate) as (dmg & g & -> & Hdmg).
  unfold hit. rewrite Hd.
  eapply rtc_l; [apply (step_draw w g)|].
  apply rtc_once.
  apply (step_write (mkWorld (with_rng (eng w) g) (heap w)) enemy_u d _ Hd).
  apply mut_damage, Hdmg.
Qed.

Lemma steps_heal_ref (self_u : nat) (rate : Q) (w : World) (t : nat) :
  rtc wstep w (heal_ref self_u rate w t).
Proof.
  unfold heal_ref.
  destruct (heap w !! self_u) as [hu|]; [|reflexivity].
  destruct (heap w !! t) as [tu|] eqn:Ht; [|reflexivity].
  rewrite heal_value.
  eapply rtc_l; [apply (step_draw w (snd (random_factor (eng w))))|].
  apply rtc_once.
  apply (step_write (mkWorld (with_rng (eng w) _) (heap w)) t tu _ Ht).
  apply mut_heal. lia.
Qed.

Lemma steps_apply_effect (self_u enemy_u : nat) (ts te : list nat)
    (w : World) (eff : Effect) :
  rtc wstep w (apply_effect self_u enemy_u ts te w eff).
Proof.
  unfold apply_effect.
  destruct (opt_is (eff_type eff) "physical_damage").
  { apply steps_damage_with, physical_damage_good. }
  destruct (opt_is (eff_type eff) "strategy_damage").
  { apply steps_damage_with, strategy_damage_good. }
  destruct (opt_is (eff_type eff) "heal").
  { apply steps_foldl. intros; apply steps_heal_ref. }
  destruct (opt_is (eff_type eff) "status"); [|reflexivity].
  destruct (opt_is (eff_name eff) "confusion"); [|reflexivity].
  destruct (heap w !! enemy_u) as [d|] eqn:Hd; [|reflexivity].
  apply rtc_once. apply (step_write w enemy_u d _ Hd). apply mut_status.
Qed.

Lemma steps_apply_effects (w : World) (sk : Skill) (self_u enemy_u : nat)
    (ts te : list nat) :
  rtc wstep w (_apply_effects w sk self_u enemy_u ts te).
Proof.
  unfold _apply_effects. apply steps_foldl. intros; apply steps_apply_effect.
Qed.

Lemma steps_fire_skill (tm : string) (ta tb : list nat) (u target : nat)
    (te : list nat) (w : World) (sk : Skill) :
  rtc wstep w (fire_skill tm ta tb u target te w sk).
Proof.
  unfold fire_skill. destruct (String.eqb (timing sk) tm); [|reflexivity].
  destruct (rng_random (rng (eng w))) as [x g].
  eapply rtc_l; [apply (step_draw w g)|].
  destruct (Qltb x (proc sk)); [|reflexivity].
  eapply rtc_l;
    [apply (step_record (mkWorld (with_rng (eng w) g) (heap w)) sk)|].
  apply steps_apply_effects.
Qed.

Lemma steps_fire_skills (tm : string) (ta tb : list nat) (u target : nat)
    (te : list nat) (w : World) (sks : list Skill) :
  rtc wstep w (fire_skills tm ta tb u target te w sks).
Proof.
  unfold fire_skills. apply steps_foldl. intros; apply steps_fire_skill.
Qed.

Lemma pick_enemy_engine (E : Engine) (h : list Unit) (team : list nat) :
  exists g, snd (_pick_enemy E h team) = with_rng E g.
Proof.
  unfold _pick_enemy. destruct (_alive h team) as [|r0 rest].
  - exists (rng E). destruct E; reflexivity.
  - cbv zeta. destruct (rng_randbelow _ _) as [i g]. exists g. reflexivity.
Qed.

Lemma steps_start_action (ta tb : list nat) (w : World) (u : nat) :
  rtc wstep w (start_action ta tb w u).
Proof.
  unfold start_action. destruct (heap w !! u) as [uv|]; [|reflexivity].
  destruct (negb (is_alive uv)); [reflexivity|].
  destruct (confused (T (eng w)) uv); [reflexivity|].
  cbv zeta.
  destruct (pick_enemy_engine (eng w) (heap w)
              (if in_team (heap w) u ta then tb else ta)) as [g Hg].
  destruct (_pick_enemy _ _ _) as [[target|] E1]; [|reflexivity].
  cbn [snd] in Hg. subst E1.
  eapply rtc_l; [apply (step_draw w g)|]. apply steps_fire_skills.
Qed.

Lemma steps_basic_attack (ta tb : list nat) (w : World) (u target : nat)
    (te : list nat) (w1 : World) :
  basic_attack ta tb w u = Some (target, te, w1) -> rtc wstep w w1.
Proof.
  unfold basic_attack. destruct (heap w !! u) as [uv|]; [|discriminate].
  destruct (negb (is_alive uv)); [discriminate|].
  destruct (confused (T (eng w)) uv); [discriminate|].
  cbv zeta.
  destruct (pick_enemy_engine (eng w) (heap w)
              (if in_team (heap w) u ta then tb else ta)) as [g Hg].
  destruct (_pick_enemy _ _ _) as [[t|] E1]; [|discriminate].
  cbn [snd] in Hg. subst E1. intros [= <- <- <-].
  eapply rtc_l; [apply (step_draw w g)|].
  apply steps_damage_with, physical_damage_good.
Qed.

Lemma steps_attack_action (ta tb : list nat) (w : World) (u : nat) :
  rtc wstep w (attack_action ta tb w u).
Proof.
  unfold attack_action.
  destruct (basic_attack ta tb w u) as [[[target te] w1]|] eqn:Hb;
    [|reflexivity].
  apply steps_basic_attack in Hb.
  destruct (alive_at (heap w1) target); [|exact Hb].
  destruct (heap w1 !! u); [|exact Hb].
  etrans; [exact Hb | apply steps_fire_skills].
Qed.

Lemma steps_ticks (E : Engine) (l : list nat) (h : list Unit) :
  rtc wstep (mkWorld E h) (mkWorld E (foldl tick_ref h l)).
Proof.
  revert h. induction l as [|r l IH]; intros h; cbn [foldl].
  - reflexivity.
  - etrans; [|apply IH]. unfold tick_ref.
    destruct (h !! r) as [u|] eqn:Hr; [|reflexivity].
    destruct (is_alive u); [|reflexivity].
    apply rtc_once. apply (step_write (mkWorld E h) r u _ Hr), mut_tick.
Qed.

Lemma turn_order_world (w : World) (all_units : list nat) :
  exists g, snd (turn_order w all_units) = mkWorld (with_rng (eng w) g) (heap w).
Proof.
  unfold turn_order. destruct (sort_keys _ _ _) as [ks g]. exists g.
  reflexivity.
Qed.

Lemma steps_turn_body (ta tb : list nat) (w : World) :
  rtc wstep w (turn_body ta tb w).
Proof.
  unfold turn_body.
  destruct (turn_order_world w (ta ++ tb)) as [g Hg].
  destruct (turn_order w (ta ++ tb)) as [order w0]. cbn [snd] in Hg. subst w0.
  eapply rtc_l; [apply (step_draw w g)|].
  etrans; [apply (steps_foldl (start_action ta tb) order);
           intros; apply steps_start_action|].
  etrans; [apply (steps_foldl (attack_action ta tb) order);
           intros; apply steps_attack_action|].
  rewrite <- (world_eta (foldl (attack_action ta tb) _ order)) at 1.
  apply steps_ticks.
Qed.

Lemma steps_battle_loop (n : nat) (turn mx ai bi : Z) (ta tb : list nat)
    (w : World) :
  rtc wstep w (snd (battle_loop n turn mx ai bi ta tb w)).
Proof.
  revert turn w. induction n as [|n IH]; intros turn w; cbn [battle_loop].
  - reflexivity.
  - destruct (_alive (heap w) ta); [reflexivity|].
    destruct (_alive (heap w) tb); [reflexivity|].
    etrans; [apply steps_turn_body | apply IH].
Qed.

Lemma steps_run_battle_refs (w : World) (ta tb : list nat) :
  rtc wstep w (snd (run_battle_refs w ta tb)).
Proof. unfold run_battle_refs. apply steps_battle_loop. Qed.

(** An invariant of the updates holds along a whole run. *)
Lemma steps_invariant (P : World -> Prop) :
  (forall w w', wstep w w' -> P w -> P w') ->
  forall w w', rtc wstep w w' -> P w -> P w'.
Proof. intros HP w w' H. induction H; eauto. Qed.

End Steps.

(** ** Soldier bounds *)

Lemma mutation_bounded (u u' : Unit) : mutation u u' -> bounded u -> bounded u'.
Proof.
  unfold bounded. intros Hm Hb. destruct Hm; cbn [soldiers max_soldiers with_soldiers].
  - lia.
  - lia.
  - unfold add_status. destruct (statuses u !! name); cbn; lia.
  - cbn. lia.
Qed.

Section Bounds.
Context `{RG : RandomGen}.

Lemma wstep_bounded (w w' : World) :
  wstep w w' -> Forall bounded (heap w) -> Forall bounded (heap w').
Proof.
  intros Hs Hb. destruct Hs as [w g|w sk|w r u u' Hr Hm]; cbn [heap]; trivial.
  apply Forall_insert; [exact Hb|].
  apply (mutation_bounded u u' Hm).
  eapply Forall_lookup_1; eauto.
Qed.

(** C2. In a battle started with every unit within [0 <= soldiers <=
    max_soldiers], the run is a sequence of primitive updates, every
    update reached from the start leaves every unit within the bound, each
    kind of write to a unit (skill or basic-attack damage, heal, status,
    tick) preserves the bound of that unit, and the units are within the
    bound when [run_battle] returns. *)
Theorem soldier_bounds (E : Engine) (team_a team_b : list Unit) :
  Forall bounded (team_a ++ team_b) ->
  let w0 := mkWorld E (team_a ++ team_b) in
  rtc wstep w0 (snd (run_battle E team_a team_b))
  /\ (forall w w', rtc wstep w0 w -> wstep w w' -> Forall bounded (heap w'))
  /\ (forall u u', bounded u -> mutation u u' -> bounded u')
  /\ Forall bounded (heap (snd (run_battle E team_a team_b))).
Proof.
  intros Hb w0.
  assert (Hinv : forall w, rtc wstep w0 w -> Forall bounded (heap w)).
  { intros w Hw.
    apply (steps_invariant (fun w => Forall bounded (heap w))
                           wstep_bounded w0 w Hw Hb). }
  assert (Hrun : rtc wstep w0 (snd (run_battle E team_a team_b))).
  { apply steps_run_battle_refs. }
  split; [|split; [|split]].
  - exact Hrun.
  - intros w w' Hw Hs. apply Hinv. eapply rtc_r; eauto.
  - intros u u' Hu Hm. exact (mutation_bounded u u' Hm Hu).
  - apply Hinv, Hrun.
Qed.

End Bounds.

Lemma soldier_bounds_witness :
  let E := new_engine no_tuning 0 in
  let w0 := mkWorld E ([mirror] ++ [mirror]) in
  rtc wstep w0 (snd (run_battle E [mirror] [mirror]))
  /\ (forall w w', rtc wstep w0 w -> wstep w w' -> Forall bounded (heap w'))
  /\ (forall u u', bounded u -> mutation u u' -> bounded u')
  /\ Forall bounded (heap (snd (run_battle E [mirror] [mirror]))).
Proof.
  apply (soldier_bounds (new_engine no_tuning 0) [mirror] [mirror]).
  repeat constructor; vm_compute; discriminate.
Defined.

(** ** Trigger counters *)

Lemma counter_get_add (k k' : string) (n : Z) (c : list (string * Z)) :
  counter_get k' (counter_add k n c)
  = if String.eqb k k' then counter_get k' c + n else counter_get k' c.
Proof.
  induction c as [|[a v] c IH]; cbn [counter_add counter_get].
  - destruct (String.eqb k k'); reflexivity.
  - destruct (String.eqb a k) eqn:Eak; cbn [counter_get].
    + apply String.eqb_eq in Eak. subst a.
      destruct (String.eqb k k'); reflexivity.
    + rewrite IH. destruct (String.eqb k k') eqn:Ekk.
      * apply String.eqb_eq in Ekk. subst k'. rewrite Eak. reflexivity.
      * reflexivity.
Qed.

Section Triggers.
Context `{RG : RandomGen}.

Lemma wstep_triggers (k : string) (w w' : World) :
  wstep w w' ->
  counter_get k (triggers (eng w)) <= counter_get k (triggers (eng w')).
Proof.
  intros Hs. destruct Hs as [w g|w sk|w r u u' Hr Hm]; cbn; try lia.
  rewrite counter_get_add. destruct (String.eqb (skill_name sk) k); lia.
Qed.

Lemma steps_triggers (k : string) (w w' : World) :
  rtc wstep w w' ->
  counter_get k (triggers (eng w)) <= counter_get k (triggers (eng w')).
Proof.
  intros H. induction H as [|w1 w2 w3 Hs _ IH]; [lia|].
  pose proof (wstep_triggers k w1 w2 Hs). lia.
Qed.

(** The result carries a copy of the counters of the engine. *)
Lemma battle_loop_triggers (n : nat) (turn mx ai bi : Z) (ta tb : list nat)
    (w : World) :
  res_triggers (fst (battle_loop n turn mx ai bi ta tb w))
  = triggers (eng (snd (battle_loop n turn mx ai bi ta tb w))).
Proof.
  revert turn w. induction n as [|n IH]; intros turn w; cbn [battle_loop].
  - reflexivity.
  - destruct (_alive (heap w) ta); [reflexivity|].
    destruct (_alive (heap w) tb); [reflexivity|]. apply IH.
Qed.

Lemma run_battle_triggers (E : Engine) (team_a team_b : list Unit) :
  res_triggers (fst (run_battle E team_a team_b))
  = triggers (eng (snd (run_battle E team_a team_b))).
Proof. apply battle_loop_triggers. Qed.

Lemma run_battle_triggers_mono (k : string) (E : Engine)
    (team_a team_b : list Unit) :
  counter_get k (triggers E)
  <= counter_get k (res_triggers (fst (run_battle E team_a team_b))).
Proof.
  rewrite run_battle_triggers.
  apply (steps_triggers k (mkWorld E (team_a ++ team_b))).
  apply steps_run_battle_refs.
Qed.

End Triggers.

(** C9. [run_battle] never resets the trigger counters of its engine: the
    counters reported by a battle are those of the engine after it, they
    are at least those the engine had before, and there is an engine on
    which a second battle, fought by fresh units whose skills cannot
    trigger, reports the triggers of the first battle, where a fresh engine
    reports none. *)
Theorem triggers_never_reset :
  (forall (RG : RandomGen) (E : Engine) (a1 b1 a2 b2 : list Unit) (k : string),
      let r1 := fst (run_battle E a1 b1) in
      let E1 := eng (snd (run_battle E a1 b1)) in
      let r2 := fst (run_battle E1 a2 b2) in
      res_triggers r1 = triggers E1
      /\ counter_get k (triggers E) <= counter_get k (res_triggers r1)
      /\ counter_get k (res_triggers r1) <= counter_get k (res_triggers r2))
  /\ (let E := @new_engine lcg no_tuning 0 in
      let r1 := fst (run_battle E [mirror] [mirror]) in
      let E1 := eng (snd (run_battle E [mirror] [mirror])) in
      res_triggers r1 = [("drain", 2)]
      /\ res_triggers (fst (run_battle E1 [plain] [plain])) = [("drain", 2)]
      /\ res_triggers (fst (run_battle (@new_engine lcg no_tuning 0)
                                       [plain] [plain])) = []).
Proof.
  split.
  - intros RG E a1 b1 a2 b2 k. cbv zeta. split; [|split].
    + apply run_battle_triggers.
    + apply run_battle_triggers_mono.
    + rewrite (run_battle_triggers E a1 b1). apply run_battle_triggers_mono.
  - vm_compute. repeat split.
Qed.

(** ** The attack pass *)

Section Attack.
Context `{RG : RandomGen}.

Lemma alive_at_lookup (h : list Unit) (r : nat) :
  alive_at h r = true -> exists u, h !! r = Some u /\ 0 < soldiers u.
Proof.
  unfold alive_at, is_alive. destruct (h !! r) as [u|]; [|discriminate].
  intros H. exists u. split; [reflexivity | lia].
Qed.

(** The unit picked is one of the living units of the team. *)
Lemma pick_enemy_alive (E E1 : Engine) (h : list Unit) (team : list nat)
    (t : nat) :
  _pick_enemy E h team = (Some t, E1) -> In t team /\ alive_at h t = true.
Proof.
  unfold _pick_enemy. destruct (_alive h team) as [|r0 rest] eqn:Ea;
    [discriminate|].
  cbv zeta. destruct (rng_randbelow _ _) as [i g]. intros [= Ht _].
  assert (Hin : In t (r0 :: rest)).
  { rewrite <- Ht.
    change (In (nth (Z.to_nat i) (r0 :: rest) r0) (r0 :: rest)).
    destruct (nth_in_or_default (Z.to_nat i) (r0 :: rest) r0) as [H|H];
      [exact H | rewrite H; left; reflexivity]. }
  rewrite <- Ea in Hin. unfold _alive in Hin.
  apply filter_In in Hin. exact Hin.
Qed.

(** What the basic attack of [u] does when it takes place: nothing is
    recorded, and only the soldiers of the target are written. *)
Lemma basic_attack_effect (ta tb : list nat) (w : World) (u target : nat)
    (te : list nat) (w1 : World) :
  basic_attack ta tb w u = Some (target, te, w1) ->
  triggers (eng w1) = triggers (eng w)
  /\ exists d dmg,
       heap w !! target = Some d /\ 1 <= dmg
       /\ heap w1
          = <[target := with_soldiers d (Z.max 0 (soldiers d - dmg))]> (heap w).
Proof.
  unfold basic_attack. destruct (heap w !! u) as [uv|] eqn:Hu; [|discriminate].
  destruct (negb (is_alive uv)); [discriminate|].
  destruct (confused (T (eng w)) uv); [discriminate|].
  cbv zeta.
  destruct (pick_enemy_engine (eng w) (heap w)
              (if in_team (heap w) u ta then tb else ta)) as [g Hg].
  destruct (_pick_enemy _ _ _) as [[t|] E1] eqn:Hp; [|discriminate].
  cbn [snd] in Hg. subst E1. intros [= <- <- <-].
  apply pick_enemy_alive in Hp. destruct Hp as [_ Hp].
  apply alive_at_lookup in Hp. destruct Hp as (d & Hd & _).
  unfold damage_with. cbn [heap eng]. rewrite Hu, Hd.
  destruct (physical_damage_good (with_rng (eng w) g) uv d 1%Q)
    as (dmg & g' & -> & Hdmg).
  cbn [heap eng]. split; [reflexivity|].
  exists d, dmg. unfold hit. rewrite Hd. auto.
Qed.

End Attack.

(** ** Termination of the battle *)

Section Termination.
Context `{RG : RandomGen}.

(** The world at the termination check of turn [k], when the turns before
    it were played in full. *)
Definition world_before_turn (ta tb : list nat) (w : World) (k : Z) : World :=
  Nat.iter (Z.to_nat (k - 1)) (turn_body ta tb) w.

(** Both teams have a living unit at the termination check of turn [j]. *)
Definition both_alive (ta tb : list nat) (w : World) (j : Z) : Prop :=
  _alive (heap (world_before_turn ta tb w j)) ta <> []
  /\ _alive (heap (world_before_turn ta tb w j)) tb <> [].

Lemma battle_loop_played (m n : nat) (turn mx ai bi : Z) (ta tb : list nat)
    (w : World) :
  (forall i, (i < m)%nat ->
             _alive (heap (Nat.iter i (turn_body ta tb) w)) ta <> []
             /\ _alive (heap (Nat.iter i (turn_body ta tb) w)) tb <> []) ->
  battle_loop (m + n) turn mx ai bi ta tb w
  = battle_loop n (turn + Z.of_nat m) mx ai bi ta tb
                (Nat.iter m (turn_body ta tb) w).
Proof.
  revert turn w. induction m as [|m IH]; intros turn w Hall.
  - cbn [Nat.iter Nat.add]. f_equal. lia.
  - change (S m + n)%nat with (S (m + n)). cbn [battle_loop].
    destruct (Hall 0%nat ltac:(lia)) as [Ha Hb].
    change (Nat.iter 0 (turn_body ta tb) w) with w in Ha, Hb.
    destruct (_alive (heap w) ta); [congruence|].
    destruct (_alive (heap w) tb); [congruence|].
    rewrite IH.
    + rewrite Nat.iter_succ_r. f_equal. lia.
    + intros i Hi. rewrite <- Nat.iter_succ_r. apply Hall. lia.
Qed.

Lemma run_battle_refs_terminal (w : World) (ta tb : list nat) (k : Z) :
  1 <= k <= default 8 (max_turns (T (eng w))) ->
  (forall j, 1 <= j < k -> both_alive ta tb w j) ->
  _alive (heap (world_before_turn ta tb w k)) tb = [] ->
  _alive (heap (world_before_turn ta tb w k)) ta <> [] ->
  winner (fst (run_battle_refs w ta tb)) = WinA
  /\ turns (fst (run_battle_refs w ta tb)) = k - 1.
Proof.
  intros Hk Hplayed Hb Ha. unfold run_battle_refs.
  set (mx := default 8 (max_turns (T (eng w)))) in *.
  replace (Z.to_nat mx)
    with (Z.to_nat (k - 1) + S (Z.to_nat (mx - k)))%nat by lia.
  rewrite battle_loop_played.
  - fold (world_before_turn ta tb w k). cbn [battle_loop].
    destruct (_alive (heap (world_before_turn ta tb w k)) ta);
      [congruence|].
    rewrite Hb. cbn [fst _final winner turns]. split; [reflexivity | lia].
  - intros i Hi.
    specialize (Hplayed (Z.of_nat i + 1) ltac:(lia)).
    unfold both_alive, world_before_turn in Hplayed.
    replace (Z.to_nat (Z.of_nat i + 1 - 1)) with i in Hplayed by lia.
    exact Hplayed.
Qed.

(** C1, as the code has it. For every turn index [k] with
    [1 <= k <= max_turns] whose termination check is reached (both teams
    had a living unit at the checks of the turns before): if at that check
    team B has no living unit and team A has one, [run_battle] returns the
    winner A and [turns = k - 1]. *)
Theorem terminal_correctness (E : Engine) (team_a team_b : list Unit)
    (k : Z) :
  let w := mkWorld E (team_a ++ team_b) in
  let ta := refs_a team_a in
  let tb := refs_b team_a team_b in
  1 <= k <= default 8 (max_turns (T E)) ->
  (forall j, 1 <= j < k -> both_alive ta tb w j) ->
  _alive (heap (world_before_turn ta tb w k)) tb = [] ->
  _alive (heap (world_before_turn ta tb w k)) ta <> [] ->
  winner (fst (run_battle E team_a team_b)) = WinA
  /\ turns (fst (run_battle E team_a team_b)) = k - 1.
Proof.
  cbv zeta. intros Hk Hplayed Hb Ha.
  apply (run_battle_refs_terminal (mkWorld E (team_a ++ team_b))); assumption.
Qed.

End Termination.

(** A unit whose troops are all lost. *)
Definition fallen : Unit := general sk_none 10000 0.

Lemma terminal_correctness_witness :
  winner (fst (run_battle (@new_engine lcg no_tuning 0) [mirror] [mirror]))
  = WinA
  /\ turns (fst (run_battle (@new_engine lcg no_tuning 0) [mirror] [mirror]))
     = 2 - 1.
Proof.
  apply (terminal_correctness (@new_engine lcg no_tuning 0)
                              [mirror] [mirror] 2).
  - vm_compute. split; discriminate.
  - intros j Hj. assert (j = 1) as -> by lia.
    vm_compute. split; discriminate.
  - vm_compute. reflexivity.
  - vm_compute. discriminate.
Defined.

(** C1, as the specification states it, fails when team A has no living
    unit either: the check of team A comes first, and the winner is B. *)
Lemma terminal_correctness_counterexample :
  let E := @new_engine lcg no_tuning 0 in
  let w := mkWorld E ([fallen] ++ [fallen]) in
  1 <= 1 <= default 8 (max_turns (T E))
  /\ _alive (heap (world_before_turn (refs_a [fallen])
                                     (refs_b [fallen] [fallen]) w 1))
            (refs_b [fallen] [fallen]) = []
  /\ winner (fst (run_battle E [fallen] [fallen])) = WinB
  /\ turns (fst (run_battle E [fallen] [fallen])) = 1 - 1.
Proof. vm_compute. repeat split; discriminate. Qed.

(** ** Reproducibility of the Monte Carlo driver *)

Section Reproducibility.
Context `{RG : RandomGen}.
Variable Env : Type.
Variable pstdev : list Q -> Q.
Variable build_once : Z -> Env -> BattleResult * Env.

(** The calls of [build_once] are made, in order, with the sub-seeds drawn
    from the generator. *)
Lemma trials_calls (k : nat) (g : rng_state) (acc : Acc) (env : Env) :
  snd (trials build_once k g acc env)
  = foldl (fun e sd => snd (build_once sd e)) env (sub_seeds k g).
Proof.
  revert g acc env. induction k as [|k IH]; intros g acc env;
    cbn [trials sub_seeds].
  - reflexivity.
  - destruct (randint_seed g) as [sd g'].
    destruct (build_once sd env) as [res env'] eqn:Eb.
    rewrite IH. cbn [foldl]. rewrite Eb. reflexivity.
Qed.

Lemma trials_results (fp : Z -> BattleResult) (k : nat) (g : rng_state)
    (acc : Acc) (env : Env) :
  (forall sd e, fst (build_once sd e) = fp sd) ->
  fst (trials build_once k g acc env)
  = foldl fold_result acc (fp <$> sub_seeds k g).
Proof.
  intros Hdet. revert g acc env. induction k as [|k IH]; intros g acc env;
    cbn [trials sub_seeds].
  - reflexivity.
  - destruct (randint_seed g) as [sd g'].
    pose proof (Hdet sd env) as Hsd.
    destruct (build_once sd env) as [res env']. cbn [fst] in Hsd. subst res.
    rewrite IH. reflexivity.
Qed.

(** The generator after [i] calls of [randint(0, 10**9)], each of which
    is one draw below [10**9 + 1]. *)
Definition after_draws (i : nat) (g : rng_state) : rng_state :=
  Nat.iter i (fun g' => snd (rng_randbelow (10 ^ 9 + 1) g')) g.

(** The [k] first numbers that [randint(0, 10**9)] yields on the generator
    [g]: number [i] is drawn in the state that the [i] draws before it
    have left. *)
Definition generator_draws (k : nat) (g : rng_state) : list Z :=
  map (fun i => fst (rng_randbelow (10 ^ 9 + 1) (after_draws i g))) (seq 0 k).

(** The sub-seeds that the loop hands to the factory are the draws of the
    generator. *)
Lemma sub_seeds_draws (k : nat) (g : rng_state) :
  sub_seeds k g = generator_draws k g.
Proof.
  unfold generator_draws. revert g.
  induction k as [|k IH]; intros g; [reflexivity|].
  cbn [sub_seeds seq map]. unfold randint_seed.
  destruct (rng_randbelow (10 ^ 9 + 1) g) as [sd g'] eqn:Eg.
  rewrite IH, <- seq_shift, map_map. f_equal.
  - change (sd = fst (rng_randbelow (10 ^ 9 + 1) g)). rewrite Eg. reflexivity.
  - apply map_ext. intros i. unfold after_draws.
    rewrite Nat.iter_succ_r. cbv beta. rewrite Eg. reflexivity.
Qed.

Lemma generator_draws_range (k : nat) (g : rng_state) :
  length (generator_draws k g) = k
  /\ Forall (fun sd => 0 <= sd <= 10 ^ 9) (generator_draws k g).
Proof.
  unfold generator_draws. split.
  - rewrite length_map, length_seq. reflexivity.
  - apply Forall_map, Forall_forall. intros i _.
    pose proof (rng_randbelow_range (10 ^ 9 + 1) (after_draws i g)
                  ltac:(lia)) as Hr.
    cbn beta. lia.
Qed.

(** C4. For a factory whose result is a function [fp] of its seed
    argument alone, whatever else it can read or write: two invocations of
    [simulate_many] with the same [n] and [seed] return equal aggregates.
    The sub-seeds are the [n] first numbers that [randint(0, 10**9)]
    yields on one generator created from [seed], each drawn in the state
    the draws before it have left: the aggregate is the summary of the
    results of [fp] on them, and the factory is called with exactly them,
    in order. *)
Theorem simulate_many_reproducible (fp : Z -> BattleResult) (n seed : Z)
    (env1 env2 : Env) :
  (forall sd e, fst (build_once sd e) = fp sd) ->
  let random := rng_seed seed in
  let seeds :=
    map (fun i => fst (rng_randbelow (10 ^ 9 + 1)
                         (Nat.iter i
                            (fun g => snd (rng_randbelow (10 ^ 9 + 1) g))
                            random)))
        (seq 0 (Z.to_nat n)) in
  fst (simulate_many pstdev build_once n seed env1)
  = fst (simulate_many pstdev build_once n seed env2)
  /\ fst (simulate_many pstdev build_once n seed env1)
     = finish pstdev n (foldl fold_result acc0 (fp <$> seeds))
  /\ snd (simulate_many pstdev build_once n seed env1)
     = foldl (fun e sd => snd (build_once sd e)) env1 seeds
  /\ length seeds = Z.to_nat n
  /\ Forall (fun sd => 0 <= sd <= 10 ^ 9) seeds.
Proof.
  intros Hdet random seeds.
  assert (Hs : sub_seeds (Z.to_nat n) (rng_seed seed) = seeds)
    by apply sub_seeds_draws.
  assert (Hagg : forall env,
             fst (simulate_many pstdev build_once n seed env)
             = finish pstdev n (foldl fold_result acc0 (fp <$> seeds))).
  { intros env. unfold simulate_many.
    pose proof (trials_results fp (Z.to_nat n) (rng_seed seed) acc0 env Hdet)
      as Hr.
    destruct (trials build_once _ _ _ env) as [acc env']. cbn [fst] in *.
    rewrite Hr, Hs. reflexivity. }
  split; [|split; [|split]].
  - rewrite (Hagg env1), (Hagg env2). reflexivity.
  - apply Hagg.
  - unfold simulate_many.
    pose proof (trials_calls (Z.to_nat n) (rng_seed seed) acc0 env1) as Hc.
    destruct (trials build_once _ _ _ env1) as [acc env']. cbn [snd] in *.
    rewrite Hc, Hs. reflexivity.
  - apply (generator_draws_range (Z.to_nat n) (rng_seed seed)).
Qed.

End Reproducibility.

(** A trial as the application builds it: a fresh engine on the trial
    seed and fresh units. *)
Definition mirror_result (sd : Z) : BattleResult :=
  fst (run_battle (@new_engine lcg no_tuning sd) [mirror] [mirror]).

(** The factory of these trials; it also counts its calls in the
    environment. *)
Definition mirror_factory (sd : Z) (calls : Z) : BattleResult * Z :=
  (mirror_result sd, calls + 1).

(** The three first numbers that [randint(0, 10**9)] yields on the
    generator of seed 42. *)
Definition seeds_42 : list Z := [250496026; 116302263; 676752].

Lemma simulate_many_reproducible_witness :
  fst (simulate_many (fun _ => 0%Q) mirror_factory 3 42 0)
  = fst (simulate_many (fun _ => 0%Q) mirror_factory 3 42 7)
  /\ fst (simulate_many (fun _ => 0%Q) mirror_factory 3 42 0)
     = finish (fun _ => 0%Q) 3
              (foldl fold_result acc0 (mirror_result <$> seeds_42))
  /\ snd (simulate_many (fun _ => 0%Q) mirror_factory 3 42 0)
     = foldl (fun e sd => snd (mirror_factory sd e)) 0 seeds_42
  /\ snd (simulate_many (fun _ => 0%Q) mirror_factory 3 42 0) = 3.
Proof.
  assert (Hdet : forall sd e, fst (mirror_factory sd e) = mirror_result sd)
    by (intros sd e; unfold mirror_factory; cbn [fst]; reflexivity).
  pose proof (simulate_many_reproducible Z (fun _ => 0%Q) mirror_factory
                mirror_result 3 42 0 7 Hdet) as H.
  cbv zeta in H.
  match type of H with context [map ?f (seq 0 ?k)] =>
    replace (map f (seq 0 k)) with seeds_42 in H by (vm_compute; reflexivity)
  end.
  destruct H as (H1 & H2 & H3 & _).
  split; [exact H1|]. split; [exact H2|]. split; [exact H3|].
  rewrite H3. reflexivity.
Defined.

(** ** Dead units

    [u in team_a] compares dataclass instances by value.  In a mirror
    match (the same general with the same troops and skills on both sides)
    the unit of team B equals the unit of team A as long as neither has
    been touched; when it moves first it is taken for a unit of team A,
    picks its target in team B and so targets itself. *)

(** The world in which the skill [sk_drain] of the unit of team B is
    applied in the start pass of the first turn: after the draws of the
    turn order, of the target and against [proc], and after the record. *)
Definition mirror_world : World :=
  let w0 := mkWorld (@new_engine lcg no_tuning 0) ([mirror] ++ [mirror]) in
  let w1 := snd (turn_order w0 [0; 1]%nat) in
  let E2 := snd (_pick_enemy (eng w1) (heap w1) [1%nat]) in
  let g := snd (rng_random (rng E2)) in
  mkWorld (_record (with_rng E2 g) sk_drain) (heap w1).

(** C10 on a mirror match. The unit of team B (reference 1) moves first,
    is found in team A, targets itself, loses all its soldiers to the first
    effect of its own skill and is healed by the second: its soldiers go
    from 10000 to 0 and from 0 to 1802 within one action. *)
Theorem mirror_match_revives :
  let w0 := mkWorld (@new_engine lcg no_tuning 0) ([mirror] ++ [mirror]) in
  let ta := refs_a [mirror] in
  let tb := refs_b [mirror] [mirror] in
  let w1 := snd (turn_order w0 (ta ++ tb)) in
  let damage := mkEffect (Some "strategy_damage") (Some 100%Q)
                         None None None None in
  fst (turn_order w0 (ta ++ tb)) = [1; 0]%nat
  /\ in_team (heap w1) 1 ta = true
  /\ fst (_pick_enemy (eng w1) (heap w1) tb) = Some 1%nat
  /\ soldiers_at (heap mirror_world) 1 = 10000
  /\ soldiers_at (heap (apply_effect 1 1 ta tb mirror_world damage)) 1 = 0
  /\ soldiers_at (heap (_apply_effects mirror_world sk_drain 1 1 ta tb)) 1
     = 1802
  /\ soldiers_at (heap (start_action ta tb w1 1)) 1 = 1802.
Proof. vm_compute. repeat split. Qed.

(** ** Dead units stay dead when the teams are told apart

    The defect above needs a unit of team B that equals a unit of team A.
    When the two teams have no [unit_id] in common, [u in team_a] finds the
    team of [u], a unit never targets itself, every heal reaches a living
    unit, and a unit whose soldiers are 0 keeps them at 0. *)

(** No write of the battle changes [unit_id]. *)
Lemma mutation_unit_id (u u' : Unit) : mutation u u' -> unit_id u' = unit_id u.
Proof.
  intros Hm. destruct Hm; cbn; try reflexivity.
  unfold add_status. destruct (statuses u !! name); reflexivity.
Qed.

Lemma insert_by_In {A} (before : A -> A -> bool) (x y : A) (l : list A) :
  In y (insert_by before x l) <-> y = x \/ In y l.
Proof.
  induction l as [|z l IH]; cbn.
  - intuition.
  - destruct (before z x); cbn; rewrite ?IH; intuition.
Qed.

Lemma stable_sort_In {A} (before : A -> A -> bool) (y : A) (l : list A) :
  In y (stable_sort before l) <-> In y l.
Proof.
  unfold stable_sort. induction l as [|x l IH]; cbn.
  - reflexivity.
  - rewrite insert_by_In, IH. intuition.
Qed.

Lemma take_In {A} (n : nat) (y : A) (l : list A) : In y (take n l) -> In y l.
Proof.
  revert l. induction n as [|n IH]; intros [|x l]; cbn; try tauto.
  intros [H|H]; [left; exact H | right; apply IH, H].
Qed.

Lemma soldiers_at_insert (h : list Unit) (i r : nat) (u x : Unit) :
  h !! i = Some u ->
  soldiers_at (<[i := x]> h) r
  = if Nat.eqb i r then soldiers x else soldiers_at h r.
Proof.
  intros Hi. unfold soldiers_at. destruct (Nat.eqb i r) eqn:E.
  - apply Nat.eqb_eq in E. subst r.
    rewrite list_lookup_insert_eq by (eapply lookup_lt_Some; eauto).
    reflexivity.
  - apply Nat.eqb_neq in E. rewrite list_lookup_insert_ne by exact E.
    reflexivity.
Qed.

Lemma alive_at_soldiers (h : list Unit) (r : nat) :
  alive_at h r = true <-> 0 < soldiers_at h r.
Proof.
  unfold alive_at, soldiers_at, is_alive. destruct (h !! r); [|split; [discriminate | lia]].
  rewrite Z.ltb_lt. reflexivity.
Qed.

Section Safe.
Context `{RG : RandomGen}.

(** An update that leaves the dead dead. *)
Definition quiet (w w' : World) : Prop :=
  forall r, soldiers_at (heap w) r = 0 -> soldiers_at (heap w') r = 0.

(** A primitive update that leaves the dead dead. *)
Definition sstep (w w' : World) : Prop := wstep w w' /\ quiet w w'.

(** No unit other than [e] loses soldiers. *)
Definition grows_except (e : nat) (w w' : World) : Prop :=
  forall r, r <> e -> soldiers_at (heap w) r <= soldiers_at (heap w') r.

Lemma sstep_steps (w w' : World) : rtc sstep w w' -> rtc wstep w w'.
Proof. apply rtc_subrel. intros x y [H _]. exact H. Qed.

Lemma sstep_bounded (w w' : World) :
  rtc sstep w w' -> Forall bounded (heap w) -> Forall bounded (heap w').
Proof.
  intros H. apply sstep_steps in H.
  exact (steps_invariant (fun w => Forall bounded (heap w))
                         wstep_bounded w w' H).
Qed.

Lemma grows_except_refl (e : nat) (w : World) : grows_except e w w.
Proof. intros r _. lia. Qed.

Lemma grows_except_trans (e : nat) (w1 w2 w3 : World) :
  grows_except e w1 w2 -> grows_except e w2 w3 -> grows_except e w1 w3.
Proof. intros H1 H2 r Hr. specialize (H1 r Hr). specialize (H2 r Hr). lia. Qed.

Lemma safe_draw (w : World) (g : rng_state) :
  sstep w (mkWorld (with_rng (eng w) g) (heap w)).
Proof. split; [apply step_draw | intros r H; exact H]. Qed.

Lemma safe_record (w : World) (sk : Skill) :
  sstep w (mkWorld (_record (eng w) sk) (heap w)).
Proof. split; [apply step_record | intros r H; exact H]. Qed.

Lemma safe_write (w : World) (r : nat) (u u' : Unit) :
  heap w !! r = Some u ->
  mutation u u' ->
  (soldiers u = 0 -> soldiers u' = 0) ->
  sstep w (mkWorld (eng w) (<[r := u']> (heap w))).
Proof.
  intros Hr Hm Hz. split; [apply (step_write w r u u' Hr Hm)|].
  intros r' H0. cbn [heap]. rewrite (soldiers_at_insert _ r r' u u' Hr).
  destruct (Nat.eqb r r') eqn:E; [|exact H0].
  apply Nat.eqb_eq in E. subst r'. apply Hz.
  unfold soldiers_at in H0. rewrite Hr in H0. exact H0.
Qed.

Lemma safe_damage_with f (w : World) (self_u enemy_u : nat) (rate : Q) :
  good_formula f ->
  rtc sstep w (damage_with f w self_u enemy_u rate)
  /\ grows_except enemy_u w (damage_with f w self_u enemy_u rate).
Proof.
  intros Hf. unfold damage_with.
  destruct (heap w !! self_u) as [a|];
    [|split; [reflexivity | apply grows_except_refl]].
  destruct (heap w !! enemy_u) as [d|] eqn:Hd;
    [|split; [reflexivity | apply grows_except_refl]].
  destruct (Hf (eng w) a d rate) as (dmg & g & -> & Hdmg).
  unfold hit. rewrite Hd. split.
  - eapply rtc_l; [apply (safe_draw w g)|]. apply rtc_once.
    apply (safe_write (mkWorld (with_rng (eng w) g) (heap w)) enemy_u d _ Hd).
    + apply mut_damage, Hdmg.
    + cbn. lia.
  - intros r Hr. cbn [heap]. rewrite (soldiers_at_insert _ _ _ d _ Hd).
    destruct (Nat.eqb enemy_u r) eqn:E; [|lia].
    apply Nat.eqb_eq in E. congruence.
Qed.

(** A heal of a living unit within its bound: nobody loses. *)
Lemma safe_heal_ref (self_u : nat) (rate : Q) (w : World) (t : nat) :
  Forall bounded (heap w) ->
  alive_at (heap w) t = true ->
  rtc sstep w (heal_ref self_u rate w t)
  /\ forall r,
       soldiers_at (heap w) r <= soldiers_at (heap (heal_ref self_u rate w t)) r.
Proof.
  intros Hb Ha. unfold heal_ref.
  destruct (heap w !! self_u) as [hu|]; [|split; [reflexivity | intros; lia]].
  destruct (heap w !! t) as [tu|] eqn:Ht; [|split; [reflexivity | intros; lia]].
  rewrite heal_value.
  assert (Hs : 0 < soldiers tu).
  { apply alive_at_soldiers in Ha. unfold soldiers_at in Ha.
    rewrite Ht in Ha. exact Ha. }
  assert (Hbt : bounded tu) by (eapply Forall_lookup_1; eauto).
  unfold bounded in Hbt. split.
  - eapply rtc_l; [apply (safe_draw w (snd (random_factor (eng w))))|].
    apply rtc_once.
    apply (safe_write (mkWorld (with_rng (eng w) _) (heap w)) t tu _ Ht).
    + apply mut_heal. lia.
    + lia.
  - intros r. cbn [heap]. rewrite (soldiers_at_insert _ _ _ tu _ Ht).
    destruct (Nat.eqb t r) eqn:E; [|lia].
    apply Nat.eqb_eq in E. subst r. unfold soldiers_at. rewrite Ht.
    cbn. lia.
Qed.

Lemma safe_heals (self_u : nat) (rate : Q) (targets : list nat) (w : World) :
  Forall bounded (heap w) ->
  (forall t, In t targets -> alive_at (heap w) t = true) ->
  rtc sstep w (foldl (heal_ref self_u rate) w targets)
  /\ forall r,
       soldiers_at (heap w) r
       <= soldiers_at (heap (foldl (heal_ref self_u rate) w targets)) r.
Proof.
  revert w. induction targets as [|t ts IH]; intros w Hb Ha; cbn [foldl].
  - split; [reflexivity | intros; lia].
  - destruct (safe_heal_ref self_u rate w t Hb (Ha t (or_introl eq_refl)))
      as [H1 G1].
    destruct (IH (heal_ref self_u rate w t)) as [H2 G2].
    + exact (sstep_bounded _ _ H1 Hb).
    + intros t' Ht'. apply alive_at_soldiers.
      pose proof (proj1 (alive_at_soldiers _ _) (Ha t' (or_intror Ht'))).
      specialize (G1 t'). lia.
    + split; [etrans; eauto|]. intros r. specialize (G1 r).
      specialize (G2 r). lia.
Qed.

Lemma pick_allies_alive (h : list Unit) (team : list nat) (count : Z)
    (t : nat) :
  In t (_pick_allies_lowest h team count) -> alive_at h t = true.
Proof.
  unfold _pick_allies_lowest. intros H. apply take_In in H.
  apply stable_sort_In in H. unfold _alive in H.
  apply filter_In in H. apply H.
Qed.

Lemma safe_apply_effect (self_u enemy_u : nat) (ts te : list nat)
    (w : World) (eff : Effect) :
  Forall bounded (heap w) ->
  alive_at (heap w) self_u = true ->
  rtc sstep w (apply_effect self_u enemy_u ts te w eff)
  /\ grows_except enemy_u w (apply_effect self_u enemy_u ts te w eff).
Proof.
  intros Hb Ha. unfold apply_effect.
  destruct (opt_is (eff_type eff) "physical_damage").
  { apply safe_damage_with, physical_damage_good. }
  destruct (opt_is (eff_type eff) "strategy_damage").
  { apply safe_damage_with, strategy_damage_good. }
  destruct (opt_is (eff_type eff) "heal").
  { match goal with
    | |- context [foldl (heal_ref ?s ?r) w ?l] =>
        destruct (safe_heals s r l w Hb) as [H G]
    end.
    - intros t Ht. destruct (opt_is (eff_target eff) "ally_lowest").
      + eapply pick_allies_alive, Ht.
      + destruct Ht as [<-|[]]. exact Ha.
    - split; [exact H | intros r _; apply G]. }
  destruct (opt_is (eff_type eff) "status");
    [|split; [reflexivity | apply grows_except_refl]].
  destruct (opt_is (eff_name eff) "confusion");
    [|split; [reflexivity | apply grows_except_refl]].
  destruct (heap w !! enemy_u) as [d|] eqn:Hd;
    [|split; [reflexivity | apply grows_except_refl]].
  split.
  - apply rtc_once. apply (safe_write w enemy_u d _ Hd); [apply mut_status|].
    unfold add_status. destruct (statuses d !! "confusion"); cbn; tauto.
  - intros r _. cbn [heap]. rewrite (soldiers_at_insert _ _ _ d _ Hd).
    destruct (Nat.eqb enemy_u r) eqn:E; [|lia].
    apply Nat.eqb_eq in E. subst r. unfold soldiers_at. rewrite Hd.
    unfold add_status. destruct (statuses d !! "confusion"); cbn; lia.
Qed.

Lemma safe_apply_effects (self_u enemy_u : nat) (ts te : list nat)
    (sk : Skill) (w : World) :
  Forall bounded (heap w) ->
  alive_at (heap w) self_u = true ->
  enemy_u <> self_u ->
  rtc sstep w (_apply_effects w sk self_u enemy_u ts te)
  /\ grows_except enemy_u w (_apply_effects w sk self_u enemy_u ts te).
Proof.
  intros Hb Ha Hne. unfold _apply_effects. revert w Hb Ha.
  induction (effects sk) as [|eff effs IH]; intros w Hb Ha; cbn [foldl].
  - split; [reflexivity | apply grows_except_refl].
  - destruct (safe_apply_effect self_u enemy_u ts te w eff Hb Ha) as [H1 G1].
    destruct (IH (apply_effect self_u enemy_u ts te w eff)) as [H2 G2].
    + exact (sstep_bounded _ _ H1 Hb).
    + apply alive_at_soldiers. apply alive_at_soldiers in Ha.
      specialize (G1 self_u ltac:(congruence)). lia.
    + split; [etrans; eauto | eapply grows_except_trans; eauto].
Qed.

Lemma safe_fire_skill (tm : string) (ta tb : list nat) (u target : nat)
    (te : list nat) (w : World) (sk : Skill) :
  Forall bounded (heap w) ->
  alive_at (heap w) u = true ->
  target <> u ->
  rtc sstep w (fire_skill tm ta tb u target te w sk)
  /\ grows_except target w (fire_skill tm ta tb u target te w sk).
Proof.
  intros Hb Ha Hne. unfold fire_skill.
  destruct (String.eqb (timing sk) tm);
    [|split; [reflexivity | apply grows_except_refl]].
  destruct (rng_random (rng (eng w))) as [x g].
  destruct (Qltb x (proc sk)).
  - match goal with
    | |- context [_apply_effects ?w1 sk u target ?s te] =>
        destruct (safe_apply_effects u target s te sk w1 Hb Ha Hne)
          as [H G]
    end.
    split; [|exact G].
    eapply rtc_l; [apply (safe_draw w g)|].
    eapply rtc_l;
      [apply (safe_record (mkWorld (with_rng (eng w) g) (heap w)) sk)|].
    exact H.
  - split; [apply rtc_once; apply (safe_draw w g)|].
    intros r _. cbn [heap]. lia.
Qed.

Lemma safe_fire_skills (tm : string) (ta tb : list nat) (u target : nat)
    (te : list nat) (sks : list Skill) (w : World) :
  Forall bounded (heap w) ->
  alive_at (heap w) u = true ->
  target <> u ->
  rtc sstep w (fire_skills tm ta tb u target te w sks)
  /\ grows_except target w (fire_skills tm ta tb u target te w sks).
Proof.
  intros Hb Ha Hne. unfold fire_skills. revert w Hb Ha.
  induction sks as [|sk sks IH]; intros w Hb Ha; cbn [foldl].
  - split; [reflexivity | apply grows_except_refl].
  - destruct (safe_fire_skill tm ta tb u target te w sk Hb Ha Hne)
      as [H1 G1].
    destruct (IH (fire_skill tm ta tb u target te w sk)) as [H2 G2].
    + exact (sstep_bounded _ _ H1 Hb).
    + apply alive_at_soldiers. apply alive_at_soldiers in Ha.
      specialize (G1 u ltac:(congruence)). lia.
    + split; [etrans; eauto | eapply grows_except_trans; eauto].
Qed.

(** *** Telling the teams apart *)

(** The identifiers of the units of the store, by reference. *)
Definition ids_of (w : World) : list string := unit_id <$> heap w.

(** No identifier occurs in both teams. *)
Definition teams_apart (ids : list string) (ta tb : list nat) : Prop :=
  forall i j a b,
    In i ta -> In j tb -> ids !! i = Some a -> ids !! j = Some b -> a <> b.

Lemma wstep_ids (w w' : World) : wstep w w' -> ids_of w' = ids_of w.
Proof.
  intros Hs. destruct Hs as [w g|w sk|w r u u' Hr Hm]; try reflexivity.
  unfold ids_of. cbn [heap]. rewrite list_fmap_insert.
  rewrite (mutation_unit_id u u' Hm). apply list_insert_id.
  rewrite list_lookup_fmap, Hr. reflexivity.
Qed.

Lemma sstep_ids (w w' : World) : rtc sstep w w' -> ids_of w' = ids_of w.
Proof.
  intros H. apply sstep_steps in H.
  induction H as [|w1 w2 w3 Hs _ IH]; [reflexivity|].
  rewrite IH. apply wstep_ids, Hs.
Qed.

Lemma Unit_eqb_unit_id (x y : Unit) : Unit_eqb x y = true -> unit_id x = unit_id y.
Proof.
  unfold Unit_eqb. intros H.
  repeat (apply andb_prop in H; destruct H as [H _]).
  apply String.eqb_eq, H.
Qed.

Lemma in_team_self (h : list Unit) (u : nat) (team : list nat) :
  In u team -> in_team h u team = true.
Proof.
  intros Hin. unfold in_team. apply existsb_exists. exists u.
  split; [exact Hin|]. rewrite Nat.eqb_refl. reflexivity.
Qed.

(** A unit that [u in team_a] finds in team A is not a unit of team B. *)
Lemma in_team_not_other (w : World) (ta tb : list nat) (u : nat) (uv : Unit) :
  teams_apart (ids_of w) ta tb ->
  heap w !! u = Some uv ->
  in_team (heap w) u ta = true ->
  ~ In u tb.
Proof.
  intros Hap Hu Hin Hb. unfold in_team in Hin.
  apply existsb_exists in Hin. destruct Hin as (r & Hr & Hor).
  assert (Hidu : ids_of w !! u = Some (unit_id uv)).
  { unfold ids_of. rewrite list_lookup_fmap, Hu. reflexivity. }
  apply orb_prop in Hor. destruct Hor as [He|He].
  - apply Nat.eqb_eq in He. subst r.
    exact (Hap u u _ _ Hr Hb Hidu Hidu eq_refl).
  - destruct (heap w !! r) as [x|] eqn:Hx; [|discriminate].
    rewrite Hu in He. apply Unit_eqb_unit_id in He.
    assert (Hidr : ids_of w !! r = Some (unit_id x)).
    { unfold ids_of. rewrite list_lookup_fmap, Hx. reflexivity. }
    exact (Hap r u _ _ Hr Hb Hidr Hidu He).
Qed.

(** With the teams told apart, the target is never the acting unit. *)
Lemma target_not_self (w : World) (ta tb : list nat) (u t : nat) (uv : Unit)
    (E E1 : Engine) :
  teams_apart (ids_of w) ta tb ->
  heap w !! u = Some uv ->
  _pick_enemy E (heap w) (if in_team (heap w) u ta then tb else ta)
  = (Some t, E1) ->
  t <> u.
Proof.
  intros Hap Hu Hp. apply pick_enemy_alive in Hp. destruct Hp as [Hin _].
  intros ->. destruct (in_team (heap w) u ta) eqn:Hit.
  - exact (in_team_not_other w ta tb u uv Hap Hu Hit Hin).
  - rewrite (in_team_self (heap w) u ta Hin) in Hit. discriminate.
Qed.

(** *** The passes of a turn *)

(** What the passes keep: the soldier bound and the identifiers. *)
Definition settled (ids : list string) (w : World) : Prop :=
  Forall bounded (heap w) /\ ids_of w = ids.

Lemma sstep_settled (ids : list string) (w w' : World) :
  rtc sstep w w' -> settled ids w -> settled ids w'.
Proof.
  intros H [Hb Hi]. split; [exact (sstep_bounded w w' H Hb)|].
  rewrite (sstep_ids w w' H). exact Hi.
Qed.

Lemma safe_foldl {B} (ids : list string) (f : World -> B -> World)
    (l : list B) :
  (forall w x, settled ids w -> rtc sstep w (f w x)) ->
  forall w, settled ids w -> rtc sstep w (foldl f w l).
Proof.
  intros Hf. induction l as [|x l IH]; intros w Hw; cbn [foldl].
  - reflexivity.
  - pose proof (Hf w x Hw) as H1.
    etrans; [exact H1 | apply IH, (sstep_settled ids w _ H1 Hw)].
Qed.

Lemma safe_start_action (ids : list string) (ta tb : list nat) (w : World)
    (u : nat) :
  teams_apart ids ta tb ->
  settled ids w ->
  rtc sstep w (start_action ta tb w u).
Proof.
  intros Hap [Hb Hi]. subst ids. unfold start_action.
  destruct (heap w !! u) as [uv|] eqn:Hu; [|reflexivity].
  destruct (is_alive uv) eqn:Hal; cbn [negb]; [|reflexivity].
  destruct (confused (T (eng w)) uv); [reflexivity|].
  cbv zeta.
  destruct (pick_enemy_engine (eng w) (heap w)
              (if in_team (heap w) u ta then tb else ta)) as [g Hg].
  destruct (_pick_enemy _ _ _) as [[target|] E1] eqn:Hp; [|reflexivity].
  cbn [snd] in Hg. subst E1.
  pose proof (target_not_self w ta tb u target uv _ _ Hap Hu Hp) as Hne.
  eapply rtc_l; [apply (safe_draw w g)|].
  apply safe_fire_skills; [exact Hb | | exact Hne].
  cbn [heap]. unfold alive_at. rewrite Hu. exact Hal.
Qed.

Lemma safe_attack_action (ids : list string) (ta tb : list nat) (w : World)
    (u : nat) :
  teams_apart ids ta tb ->
  settled ids w ->
  rtc sstep w (attack_action ta tb w u).
Proof.
  intros Hap [Hb Hi]. subst ids. unfold attack_action, basic_attack.
  destruct (heap w !! u) as [uv|] eqn:Hu; [|reflexivity].
  destruct (is_alive uv) eqn:Hal; cbn [negb]; [|reflexivity].
  destruct (confused (T (eng w)) uv); [reflexivity|].
  cbv zeta.
  destruct (pick_enemy_engine (eng w) (heap w)
              (if in_team (heap w) u ta then tb else ta)) as [g Hg].
  destruct (_pick_enemy _ _ _) as [[target|] E1] eqn:Hp; [|reflexivity].
  cbn [snd] in Hg. subst E1.
  pose proof (target_not_self w ta tb u target uv _ _ Hap Hu Hp) as Hne.
  set (w0 := mkWorld (with_rng (eng w) g) (heap w)).
  destruct (safe_damage_with physical_damage w0 u target 1%Q
              physical_damage_good) as [H1 G1].
  set (w1 := damage_with physical_damage w0 u target 1%Q) in *.
  assert (H01 : rtc sstep w w1).
  { eapply rtc_l; [apply (safe_draw w g) | exact H1]. }
  destruct (alive_at (heap w1) target); [|exact H01].
  destruct (heap w1 !! u) as [uv1|] eqn:Hu1; [|exact H01].
  etrans; [exact H01|].
  apply safe_fire_skills; [exact (sstep_bounded _ _ H01 Hb) | | exact Hne].
  apply alive_at_soldiers. specialize (G1 u ltac:(congruence)).
  assert (0 < soldiers_at (heap w0) u); [|lia].
  apply alive_at_soldiers. cbn [heap w0]. unfold alive_at.
  rewrite Hu. exact Hal.
Qed.

Lemma safe_ticks (E : Engine) (l : list nat) (h : list Unit) :
  rtc sstep (mkWorld E h) (mkWorld E (foldl tick_ref h l)).
Proof.
  revert h. induction l as [|r l IH]; intros h; cbn [foldl].
  - reflexivity.
  - etrans; [|apply IH]. unfold tick_ref.
    destruct (h !! r) as [u|] eqn:Hr; [|reflexivity].
    destruct (is_alive u); [|reflexivity].
    apply rtc_once.
    apply (safe_write (mkWorld E h) r u _ Hr); [apply mut_tick|].
    cbn. tauto.
Qed.

Lemma safe_turn_body (ids : list string) (ta tb : list nat) (w : World) :
  teams_apart ids ta tb ->
  settled ids w ->
  rtc sstep w (turn_body ta tb w).
Proof.
  intros Hap Hw. unfold turn_body.
  destruct (turn_order_world w (ta ++ tb)) as [g Hg].
  destruct (turn_order w (ta ++ tb)) as [order w0]. cbn [snd] in Hg. subst w0.
  pose proof (rtc_once _ _ (safe_draw w g)) as H0.
  pose proof (sstep_settled ids _ _ H0 Hw) as Hw0.
  pose proof (safe_foldl ids (start_action ta tb) order
                (fun w x => safe_start_action ids ta tb w x Hap) _ Hw0) as H1.
  pose proof (sstep_settled ids _ _ H1 Hw0) as Hw1.
  pose proof (safe_foldl ids (attack_action ta tb) order
                (fun w x => safe_attack_action ids ta tb w x Hap) _ Hw1) as H2.
  etrans; [exact H0|]. etrans; [exact H1|]. etrans; [exact H2|].
  rewrite <- (world_eta (foldl (attack_action ta tb) _ order)) at 1.
  apply safe_ticks.
Qed.

Lemma safe_battle_loop (ids : list string) (n : nat) (turn mx ai bi : Z)
    (ta tb : list nat) (w : World) :
  teams_apart ids ta tb ->
  settled ids w ->
  rtc sstep w (snd (battle_loop n turn mx ai bi ta tb w)).
Proof.
  intros Hap. revert turn w.
  induction n as [|n IH]; intros turn w Hw; cbn [battle_loop].
  - reflexivity.
  - destruct (_alive (heap w) ta); [reflexivity|].
    destruct (_alive (heap w) tb); [reflexivity|].
    pose proof (safe_turn_body ids ta tb w Hap Hw) as H1.
    etrans; [exact H1 | apply IH, (sstep_settled ids _ _ H1 Hw)].
Qed.

Lemma quiet_run (w w' : World) : rtc sstep w w' -> quiet w w'.
Proof.
  intros H. induction H as [w|w1 w2 w3 [_ Hq] _ IH]; intros r Hr;
    [exact Hr | apply IH, Hq, Hr].
Qed.

(** The teams of [run_battle] are told apart when no unit of team A has
    the [unit_id] of a unit of team B. *)
Lemma fresh_teams_apart (team_a team_b : list Unit) :
  (forall a b, In a team_a -> In b team_b -> unit_id a <> unit_id b) ->
  teams_apart (unit_id <$> (team_a ++ team_b))
              (refs_a team_a) (refs_b team_a team_b).
Proof.
  intros Hd i j a b Hi Hj Ha Hb.
  unfold refs_a in Hi. unfold refs_b in Hj.
  apply in_seq in Hi. apply in_seq in Hj.
  rewrite list_lookup_fmap in Ha, Hb.
  rewrite lookup_app_l in Ha by lia.
  rewrite lookup_app_r in Hb by lia.
  destruct (team_a !! i) as [x|] eqn:Hx; [|discriminate].
  destruct (team_b !! (j - length team_a)%nat) as [y|] eqn:Hy; [|discriminate].
  cbn in Ha, Hb. injection Ha as <-. injection Hb as <-.
  apply Hd; apply list_elem_of_In; eapply list_elem_of_lookup_2; eauto.
Qed.

(** C10 when the teams are told apart. In a battle of units within their
    bound in which no unit of team A has the [unit_id] of a unit of team
    B, the run is a sequence of primitive updates each of which leaves
    the dead dead: a unit whose soldiers are 0 at some point of the run
    has 0 soldiers at every later point, up to the end of the battle. *)
Theorem dead_stay_dead (E : Engine) (team_a team_b : list Unit) :
  Forall bounded (team_a ++ team_b) ->
  (forall a b, In a team_a -> In b team_b -> unit_id a <> unit_id b) ->
  let w0 := mkWorld E (team_a ++ team_b) in
  rtc sstep w0 (snd (run_battle E team_a team_b))
  /\ (forall w w' r,
        rtc sstep w w' ->
        soldiers_at (heap w) r = 0 -> soldiers_at (heap w') r = 0).
Proof.
  intros Hb Hd w0. split.
  - apply (safe_battle_loop (unit_id <$> (team_a ++ team_b))).
    + apply fresh_teams_apart, Hd.
    + split; [exact Hb | reflexivity].
  - intros w w' r H. apply (quiet_run w w' H).
Qed.

End Safe.

(** A unit built from another record: the same general under another
    [unit_id]. *)
Definition rival : Unit :=
  mkUnit "u2" "rival" (mkStats 100 100 0 10) 10000 10000 sk_drain None None ∅.

(** The hypotheses of [dead_stay_dead] hold for a battle of [mirror]
    against [rival]. *)
Lemma dead_stay_dead_example :
  let w0 := mkWorld (@new_engine lcg no_tuning 0) ([mirror] ++ [rival]) in
  rtc sstep w0 (snd (run_battle (@new_engine lcg no_tuning 0) [mirror] [rival]))
  /\ (forall w w' r,
        rtc sstep w w' ->
        soldiers_at (heap w) r = 0 -> soldiers_at (heap w') r = 0).
Proof.
  apply (dead_stay_dead (@new_engine lcg no_tuning 0) [mirror] [rival]).
  - repeat constructor; vm_compute; discriminate.
  - intros a b [<-|[]] [<-|[]]. discriminate.
Defined.

(** * Further properties of the engine *)

(** ** The life of a status *)

Lemma add_status_lookup_fresh (u : Unit) (name : string) (n s : Z) :
  (forall st, statuses u !! name = Some st ->
              statuses (add_status u name n s) !! name
              = Some (mkStatus (status_name st) (Z.max (turns_left st) n)
                               (Z.min (stacks st + s) 99)))
  /\ (statuses u !! name = None ->
      statuses (add_status u name n s) !! name = Some (mkStatus name n s)).
Proof.
  unfold add_status. split.
  - intros st Hs. rewrite Hs. cbn. apply lookup_insert_eq.
  - intros Hn. rewrite Hn. cbn. apply lookup_insert_eq.
Qed.

Lemma tick_lookup (u : Unit) (name : string) :
  statuses (tick_statuses_end_of_turn u) !! name
  = statuses u !! name ≫= tick_status.
Proof. unfold tick_statuses_end_of_turn. cbn. apply lookup_omap. Qed.

(** A status carried with [turns_left = n] is there for [n - 1] more
    end-of-turn ticks and is deleted by the next. *)
Lemma ticks_lookup (u : Unit) (name : string) (st : Status) (k : nat) :
  statuses u !! name = Some st ->
  statuses (Nat.iter k tick_statuses_end_of_turn u) !! name
  = if Nat.eqb k 0 || (Z.of_nat k <? turns_left st)
    then Some (mkStatus (status_name st) (turns_left st - Z.of_nat k)
                        (stacks st))
    else None.
Proof.
  intros Hst. induction k as [|k IH].
  - cbn. rewrite Hst. destruct st; cbn. f_equal. f_equal. lia.
  - rewrite Nat.iter_succ, tick_lookup, IH. cbn [Nat.eqb orb].
    destruct (Nat.eqb k 0 || (Z.of_nat k <? turns_left st)) eqn:Ek.
    + cbn. unfold tick_status. cbn.
      destruct (Z.of_nat (S k) <? turns_left st) eqn:Es.
      * apply Z.ltb_lt in Es.
        destruct (turns_left st - Z.of_nat k - 1 <=? 0) eqn:El;
          [apply Z.leb_le in El; lia|].
        f_equal. f_equal. lia.
      * apply Z.ltb_ge in Es.
        destruct (turns_left st - Z.of_nat k - 1 <=? 0) eqn:El;
          [reflexivity | apply Z.leb_gt in El; lia].
    + cbn. apply orb_false_elim in Ek. destruct Ek as [_ Ek].
      apply Z.ltb_ge in Ek.
      destruct (Z.of_nat (S k) <? turns_left st) eqn:Es;
        [apply Z.ltb_lt in Es; lia | reflexivity].
Qed.

(** X1. A status applied with [turns = n] to a unit that does not carry
    it is active ([has]) after [k] end-of-turn ticks exactly when [k < n]:
    it counts down by one per tick and is deleted by the tick that takes
    it to 0 (a status applied with [n <= 0] is stored but never active,
    and the first tick deletes it). *)
Theorem status_lifetime (u : Unit) (name : string) (n s : Z) (k : nat) :
  statuses u !! name = None ->
  let u' := Nat.iter k tick_statuses_end_of_turn (add_status u name n s) in
  statuses u' !! name
  = (if Nat.eqb k 0 || (Z.of_nat k <? n)
     then Some (mkStatus name (n - Z.of_nat k) s) else None)
  /\ has u' name = (Z.of_nat k <? n).
Proof.
  intros Hn u'.
  assert (Hl : statuses u' !! name
               = if Nat.eqb k 0 || (Z.of_nat k <? n)
                 then Some (mkStatus name (n - Z.of_nat k) s) else None).
  { unfold u'.
    rewrite (ticks_lookup _ name (mkStatus name n s) k); [reflexivity|].
    apply (proj2 (add_status_lookup_fresh u name n s) Hn). }
  split; [exact Hl|]. unfold has. rewrite Hl.
  destruct (Nat.eqb k 0) eqn:E0; cbn [orb].
  - apply Nat.eqb_eq in E0. subst k. cbn. f_equal. lia.
  - destruct (Z.of_nat k <? n) eqn:E; [|reflexivity].
    cbn. apply Z.ltb_lt in E. apply Z.ltb_lt. lia.
Qed.

Lemma status_lifetime_witness :
  let u' := Nat.iter 2 tick_statuses_end_of_turn
                     (add_status plain "confusion" 2 1) in
  statuses u' !! "confusion"
  = (if Nat.eqb 2 0 || (Z.of_nat 2 <? 2)
     then Some (mkStatus "confusion" (2 - Z.of_nat 2) 1) else None)
  /\ has u' "confusion" = (Z.of_nat 2 <? 2).
Proof. apply (status_lifetime plain "confusion" 2 1 2). reflexivity. Defined.

(** X2. After an end-of-turn tick every status that is left has
    [turns_left >= 1], so that [has] is then the same as carrying the
    status; nothing but the statuses of the unit is written. *)
Theorem tick_leaves_active (u : Unit) (name : string) :
  let u' := tick_statuses_end_of_turn u in
  (forall st, statuses u' !! name = Some st -> 1 <= turns_left st)
  /\ has u' name = bool_decide (is_Some (statuses u' !! name))
  /\ soldiers u' = soldiers u
  /\ max_soldiers u' = max_soldiers u
  /\ all_skills u' = all_skills u.
Proof.
  cbv zeta.
  assert (Hpos : forall st,
             statuses (tick_statuses_end_of_turn u) !! name = Some st ->
             1 <= turns_left st).
  { intros st. rewrite tick_lookup.
    destruct (statuses u !! name) as [s0|]; cbn; [|discriminate].
    unfold tick_status.
    destruct (turns_left s0 - 1 <=? 0) eqn:E; [discriminate|].
    apply Z.leb_gt in E. intros [= <-]. cbn. lia. }
  split; [exact Hpos|]. split; [|repeat split].
  unfold has.
  destruct (statuses (tick_statuses_end_of_turn u) !! name) as [st|] eqn:Hs.
  - specialize (Hpos st eq_refl).
    rewrite bool_decide_eq_true_2 by eauto. apply Z.ltb_lt. lia.
  - rewrite bool_decide_eq_false_2; [reflexivity|].
    intros [x Hx]. discriminate.
Qed.

(** ** The choice of a target *)

Section Choice.
Context `{RG : RandomGen}.

(** X3. [_pick_enemy] returns [None] exactly when the team has no living
    unit, and then makes no draw; otherwise it returns a living unit of
    the team, the one at the drawn index of the list of the living (the
    index is in range: the [choice] of the library does not raise), and
    only the generator of the engine has changed. *)
Theorem pick_enemy_spec (E : Engine) (h : list Unit) (team : list nat) :
  match _pick_enemy E h team with
  | (None, E') => _alive h team = [] /\ E' = E
  | (Some t, E') =>
      In t team /\ alive_at h t = true
      /\ _alive h team
         !! Z.to_nat (fst (rng_randbelow
                             (Z.of_nat (length (_alive h team))) (rng E)))
         = Some t
      /\ T E' = T E /\ triggers E' = triggers E
  end.
Proof.
  destruct (_pick_enemy E h team) as [[t|] E'] eqn:Hp.
  - pose proof (pick_enemy_alive E E' h team t Hp) as [Hin Hal].
    destruct (pick_enemy_engine E h team) as [g Hg].
    rewrite Hp in Hg. cbn [snd] in Hg. subst E'.
    repeat split; try assumption.
    unfold _pick_enemy in Hp.
    destruct (_alive h team) as [|r0 rest] eqn:Ea; [discriminate|].
    cbv zeta in Hp.
    pose proof (rng_randbelow_range (Z.of_nat (length (r0 :: rest))) (rng E)
                  ltac:(cbn [length]; lia)) as Hr.
    destruct (rng_randbelow _ _) as [i g']. cbn [fst] in *.
    injection Hp as Ht _.
    assert (Hlt : (Z.to_nat i < length (r0 :: rest))%nat) by lia.
    apply lookup_lt_is_Some_2 in Hlt. destruct Hlt as [x Hx].
    rewrite Hx. f_equal. rewrite <- Ht.
    change (x = nth (Z.to_nat i) (r0 :: rest) r0).
    rewrite nth_lookup, Hx. reflexivity.
  - unfold _pick_enemy in Hp.
    destruct (_alive h team) as [|r0 rest]; [|].
    + injection Hp as <-. split; reflexivity.
    + cbv zeta in Hp. destruct (rng_randbelow _ _). discriminate.
Qed.

End Choice.

(** ** Sorting *)

Section SortFacts.
Context {A : Type} (before : A -> A -> bool).

Lemma insert_by_perm (x : A) (l : list A) : insert_by before x l ≡ₚ x :: l.
Proof.
  induction l as [|y l IH]; cbn; [reflexivity|].
  destruct (before y x); [|reflexivity].
  rewrite IH. apply Permutation_swap.
Qed.

Lemma stable_sort_perm (l : list A) : stable_sort before l ≡ₚ l.
Proof.
  unfold stable_sort. induction l as [|x l IH]; cbn; [reflexivity|].
  rewrite insert_by_perm, IH. reflexivity.
Qed.

(** [y] does not have to precede [x]. *)
Definition in_order (x y : A) : Prop := before y x = false.

Hypothesis before_asym : forall x y, before y x = true -> before x y = false.
Hypothesis in_order_trans :
  forall x y z, in_order x y -> in_order y z -> in_order x z.

Lemma insert_by_sorted (x : A) (l : list A) :
  StronglySorted in_order l -> StronglySorted in_order (insert_by before x l).
Proof.
  induction 1 as [|y l Hs IH Hall]; cbn.
  - repeat constructor.
  - destruct (before y x) eqn:E.
    + constructor; [exact IH|].
      apply Forall_forall. intros z Hz.
      apply list_elem_of_In, insert_by_In in Hz. destruct Hz as [->|Hz].
      * apply before_asym, E.
      * rewrite Forall_forall in Hall. apply Hall, list_elem_of_In, Hz.
    + constructor; [constructor; assumption|].
      constructor; [exact E|].
      eapply Forall_impl; [exact Hall|].
      intros z Hz. exact (in_order_trans x y z E Hz).
Qed.

Lemma stable_sort_sorted (l : list A) :
  StronglySorted in_order (stable_sort before l).
Proof.
  unfold stable_sort. induction l as [|x l IH]; cbn.
  - constructor.
  - apply insert_by_sorted, IH.
Qed.

End SortFacts.

Lemma sorted_app_cross {A} (R : A -> A -> Prop) (l1 l2 : list A) :
  StronglySorted R (l1 ++ l2) ->
  StronglySorted R l1 /\ forall a b, In a l1 -> In b l2 -> R a b.
Proof.
  induction l1 as [|x l1 IH]; cbn; intros H.
  - split; [constructor | intros a b []].
  - apply StronglySorted_inv in H. destruct H as [Hs Hall].
    destruct (IH Hs) as [Hs1 Hc]. split.
    + constructor; [exact Hs1|].
      apply Forall_app in Hall. apply Hall.
    + intros a b [<-|Ha] Hb.
      * rewrite Forall_forall in Hall. apply Hall, list_elem_of_In.
        apply in_or_app. right. exact Hb.
      * apply Hc; assumption.
Qed.

Lemma sorted_map {A B} (R : A -> A -> Prop) (R' : B -> B -> Prop)
    (f : A -> B) (l : list A) :
  (forall x y, In x l -> In y l -> R x y -> R' (f x) (f y)) ->
  StronglySorted R l -> StronglySorted R' (map f l).
Proof.
  intros Hf Hs. induction Hs as [|x l Hs IH Hall]; cbn; constructor.
  - apply IH. intros a b Ha Hb. apply Hf; right; assumption.
  - apply Forall_forall. intros b Hb.
    apply list_elem_of_In, in_map_iff in Hb. destruct Hb as (y & <- & Hy).
    apply Hf; [left; reflexivity | right; exact Hy|].
    rewrite Forall_forall in Hall. apply Hall, list_elem_of_In, Hy.
Qed.

Lemma sorted_impl {A} (R R' : A -> A -> Prop) (l : list A) :
  (forall x y, R x y -> R' x y) ->
  StronglySorted R l -> StronglySorted R' l.
Proof.
  intros Hi Hs. induction Hs as [|x l Hs IH Hall]; constructor;
    [exact IH | eapply Forall_impl; eauto].
Qed.

(** ** The allies with the fewest soldiers *)

(** X4. [_pick_allies_lowest] returns [max(0, min(count, living))] units,
    all of them living units of the team, in ascending order of soldiers;
    the living units it leaves out have at least as many soldiers as each
    unit it returns. *)
Theorem pick_allies_lowest_spec (h : list Unit) (team : list nat)
    (count : Z) :
  let picked := _pick_allies_lowest h team count in
  length picked
  = Z.to_nat (Z.max 0 (Z.min count (Z.of_nat (length (_alive h team)))))
  /\ (forall t, In t picked -> In t team /\ alive_at h t = true)
  /\ StronglySorted (fun a b => soldiers_at h a <= soldiers_at h b) picked
  /\ exists rest,
       picked ++ rest ≡ₚ _alive h team
       /\ forall a b, In a picked -> In b rest ->
                      soldiers_at h a <= soldiers_at h b.
Proof.
  cbv zeta. unfold _pick_allies_lowest.
  set (before := fun y x => soldiers_at h y <? soldiers_at h x).
  set (sorted := stable_sort before (_alive h team)).
  set (n := Z.to_nat (Z.max 0 (Z.min count (Z.of_nat (length sorted))))).
  assert (Hlen : length sorted = length (_alive h team)).
  { apply Permutation_length, stable_sort_perm. }
  assert (Hs : StronglySorted (fun a b => soldiers_at h a <= soldiers_at h b)
                              sorted).
  { assert (H : StronglySorted (in_order before) sorted).
    { apply stable_sort_sorted.
      - intros x y. unfold before. rewrite Z.ltb_lt, Z.ltb_ge. lia.
      - intros x y z. unfold in_order, before. rewrite !Z.ltb_ge. lia. }
    eapply sorted_impl; [|exact H].
    intros a b. unfold in_order, before. rewrite Z.ltb_ge. lia. }
  rewrite <- (take_drop n sorted) in Hs.
  apply sorted_app_cross in Hs. destruct Hs as [Hs1 Hc].
  split; [|split; [|split; [exact Hs1|]]].
  - rewrite length_take. subst n. rewrite <- Hlen. lia.
  - intros t Ht. apply take_In in Ht. apply stable_sort_In in Ht.
    unfold _alive in Ht. apply filter_In in Ht. exact Ht.
  - exists (drop n sorted). split; [|exact Hc].
    rewrite take_drop. apply stable_sort_perm.
Qed.

(** ** The turn order *)

Lemma key_lt_iff (a b : Q * Q) :
  key_lt a b = true
  <-> (fst a < fst b \/ (fst a == fst b /\ snd a < snd b))%Q.
Proof.
  unfold key_lt. destruct (Qeq_bool (fst a) (fst b)) eqn:E.
  - apply Qeq_bool_iff in E. rewrite Qltb_lt. split.
    + intros H. right. split; assumption.
    + intros [H|[_ H]]; [|exact H]. rewrite E in H.
      exfalso. exact (Qlt_irrefl _ H).
  - apply Qeq_bool_neq in E. rewrite Qltb_lt. split.
    + intros H. left. exact H.
    + intros [H|[H _]]; [exact H | contradiction].
Qed.

Lemma key_lt_false_iff (a b : Q * Q) :
  key_lt a b = false
  <-> (fst b < fst a \/ (fst a == fst b /\ snd b <= snd a))%Q.
Proof.
  split.
  - intros H.
    assert (Hn : ~ (fst a < fst b \/ (fst a == fst b /\ snd a < snd b))%Q).
    { intros Hc. apply key_lt_iff in Hc. congruence. }
    destruct (Qlt_le_dec (fst b) (fst a)) as [Hlt|Hle]; [left; exact Hlt|].
    right. apply Qle_lteq in Hle. destruct Hle as [Hlt|Heq].
    + exfalso. apply Hn. left. exact Hlt.
    + split; [exact Heq|].
      destruct (Qlt_le_dec (snd a) (snd b)) as [Hlt|Hle]; [|exact Hle].
      exfalso. apply Hn. right. split; assumption.
  - intros H. destruct (key_lt a b) eqn:E; [|reflexivity].
    apply key_lt_iff in E. exfalso.
    destruct H as [H|[H1 H2]], E as [E|[E1 E2]]; lra.
Qed.

Lemma key_lt_asym (a b : Q * Q) : key_lt a b = true -> key_lt b a = false.
Proof.
  rewrite key_lt_iff, key_lt_false_iff.
  intros [H|[H1 H2]]; [left; exact H | right].
  split; [symmetry; exact H1 | apply Qlt_le_weak, H2].
Qed.

Lemma key_lt_false_trans (a b c : Q * Q) :
  key_lt a b = false -> key_lt b c = false -> key_lt a c = false.
Proof.
  rewrite !key_lt_false_iff.
  intros [H|[H1 H2]] [G|[G1 G2]].
  - left. lra.
  - left. lra.
  - left. lra.
  - right. split; lra.
Qed.

Section TurnOrder.
Context `{RG : RandomGen}.

Lemma sort_keys_spec (h : list Unit) (l : list nat) (g : rng_state) :
  map fst (fst (sort_keys h g l)) = l
  /\ Forall (fun e => fst (snd e) = spd_at h (fst e)) (fst (sort_keys h g l)).
Proof.
  revert g. induction l as [|r l IH]; intros g; cbn [sort_keys].
  - split; [reflexivity | constructor].
  - destruct (rng_random g) as [x g1]. specialize (IH g1).
    destruct (sort_keys h g1 l) as [ks g2]. cbn [fst] in *.
    destruct IH as [IH1 IH2]. split.
    + cbn. rewrite IH1. reflexivity.
    + constructor; [reflexivity | exact IH2].
Qed.

(** X5. The turn order is a rearrangement of the living units of
    [all_units] in which speed never increases: a faster unit always moves
    before a slower one. Computing it changes nothing but the generator. *)
Theorem turn_order_spec (w : World) (all_units : list nat) :
  let order := fst (turn_order w all_units) in
  let w' := snd (turn_order w all_units) in
  order ≡ₚ _alive (heap w) all_units
  /\ StronglySorted
       (fun a b => (spd_at (heap w) b <= spd_at (heap w) a)%Q) order
  /\ heap w' = heap w
  /\ T (eng w') = T (eng w)
  /\ triggers (eng w') = triggers (eng w).
Proof.
  cbv zeta. unfold turn_order.
  destruct (sort_keys_spec (heap w) (_alive (heap w) all_units) (rng (eng w)))
    as [Hfst Hspd].
  destruct (sort_keys _ _ _) as [ks g]. cbn [fst snd] in *.
  set (before := fun y x : nat * (Q * Q) => key_lt (snd x) (snd y)).
  split; [|split; [|repeat split]].
  - rewrite <- Hfst. apply Permutation_map, stable_sort_perm.
  - apply (sorted_map (in_order before)).
    + intros x y Hx Hy Hxy.
      apply stable_sort_In in Hx. apply stable_sort_In in Hy.
      rewrite Forall_forall in Hspd.
      rewrite <- (Hspd x), <- (Hspd y) by (apply list_elem_of_In; assumption).
      unfold in_order, before in Hxy. apply key_lt_false_iff in Hxy.
      destruct Hxy as [H|[H _]]; lra.
    + apply stable_sort_sorted.
      * intros x y. unfold before. apply key_lt_asym.
      * intros x y z. unfold in_order, before. apply key_lt_false_trans.
Qed.

End TurnOrder.

(** ** The result of a battle *)

(** The attributes of a unit that a battle has no reason to write. *)
Definition static_of (u : Unit)
  : string * string * Stats * Z * Skill * option Skill * option Skill :=
  (unit_id u, unit_name u, stats u, max_soldiers u, unique_skill u,
   learn20_skill u, awaken_skill u).

Lemma mutation_static (u u' : Unit) :
  mutation u u' -> static_of u' = static_of u.
Proof.
  intros Hm. destruct Hm; cbn; try reflexivity.
  unfold add_status. destruct (statuses u !! name); reflexivity.
Qed.

Section Result.
Context `{RG : RandomGen}.

Lemma wstep_static (w w' : World) :
  wstep w w' ->
  static_of <$> heap w' = static_of <$> heap w /\ T (eng w') = T (eng w).
Proof.
  intros Hs. destruct Hs as [w g|w sk|w r u u' Hr Hm];
    (split; [|reflexivity]); try reflexivity.
  cbn [heap]. rewrite list_fmap_insert.
  rewrite (mutation_static u u' Hm). apply list_insert_id.
  rewrite list_lookup_fmap, Hr. reflexivity.
Qed.

(** X6. A battle writes only the soldiers and the statuses of the units
    and the generator and the counters of the engine: when [run_battle]
    returns, the store holds the same number of units, each with the
    [unit_id], name, stats, [max_soldiers] and skills it had, and the
    tuning is the one the engine was built with. *)
Theorem run_battle_frame (E : Engine) (team_a team_b : list Unit) :
  let w' := snd (run_battle E team_a team_b) in
  static_of <$> heap w' = static_of <$> (team_a ++ team_b)
  /\ length (heap w') = length (team_a ++ team_b)
  /\ T (eng w') = T E.
Proof.
  cbv zeta.
  assert (H : static_of <$> heap (snd (run_battle E team_a team_b))
              = static_of <$> (team_a ++ team_b)
              /\ T (eng (snd (run_battle E team_a team_b))) = T E).
  { apply (steps_invariant
             (fun w => static_of <$> heap w = static_of <$> (team_a ++ team_b)
                       /\ T (eng w) = T E)
             (fun w w' Hs Hw =>
                conj (eq_trans (proj1 (wstep_static w w' Hs)) (proj1 Hw))
                     (eq_trans (proj2 (wstep_static w w' Hs)) (proj2 Hw)))
             (mkWorld E (team_a ++ team_b))).
    - apply steps_run_battle_refs.
    - split; reflexivity. }
  destruct H as [H1 H2]. split; [exact H1|]. split; [|exact H2].
  rewrite <- (length_fmap static_of (heap _)), H1. apply length_fmap.
Qed.

Lemma battle_loop_turns (n : nat) (turn mx ai bi : Z) (ta tb : list nat)
    (w : World) :
  let r := fst (battle_loop n turn mx ai bi ta tb w) in
  match winner r with
  | WinDraw => turns r = mx
  | _ => turn - 1 <= turns r < turn - 1 + Z.of_nat n
  end.
Proof.
  revert turn w. induction n as [|n IH]; intros turn w; cbn [battle_loop].
  - reflexivity.
  - destruct (_alive (heap w) ta); [cbn; lia|].
    destruct (_alive (heap w) tb); [cbn; lia|].
    specialize (IH (turn + 1) (turn_body ta tb w)). cbv zeta in IH.
    destruct (winner _); [lia | lia | exact IH].
Qed.

(** X7. The turn count of a result tells how the battle ended: a draw
    reports [turns = max_turns] (also when [max_turns <= 0], where no turn
    is played), and a win reports the number of turns played in full,
    which is at least 0 and less than [max_turns]. *)
Theorem run_battle_turns (E : Engine) (team_a team_b : list Unit) :
  let r := fst (run_battle E team_a team_b) in
  let mx := default 8 (max_turns (T E)) in
  match winner r with
  | WinDraw => turns r = mx
  | _ => 0 <= turns r < mx
  end.
Proof.
  cbv zeta. unfold run_battle, run_battle_refs. cbn [eng heap].
  pose proof (battle_loop_turns (Z.to_nat (default 8 (max_turns (T E)))) 1
                (default 8 (max_turns (T E)))
                (sum_soldiers (team_a ++ team_b) (refs_a team_a))
                (sum_soldiers (team_a ++ team_b) (refs_b team_a team_b))
                (refs_a team_a) (refs_b team_a team_b)
                (mkWorld E (team_a ++ team_b))) as H.
  cbv zeta in H. destruct (winner _); [lia | lia | exact H].
Qed.

End Result.

Section Endings.
Context `{RG : RandomGen}.

(** X8. When both teams have a living unit at each of the [max_turns]
    termination checks, the result is a draw with [turns = max_turns],
    whatever the last turn did: no check follows it, so a team that lost
    its last unit in the last turn still draws. *)
Theorem draw_after_max_turns (E : Engine) (team_a team_b : list Unit) :
  let w := mkWorld E (team_a ++ team_b) in
  let ta := refs_a team_a in
  let tb := refs_b team_a team_b in
  let mx := default 8 (max_turns (T E)) in
  (forall j, 1 <= j <= mx -> both_alive ta tb w j) ->
  winner (fst (run_battle E team_a team_b)) = WinDraw
  /\ turns (fst (run_battle E team_a team_b)) = mx
  /\ snd (run_battle E team_a team_b) = world_before_turn ta tb w (mx + 1).
Proof.
  cbv zeta. intros Hall. unfold run_battle, run_battle_refs. cbn [eng heap].
  set (mx := default 8 (max_turns (T E))) in *.
  replace (Z.to_nat mx) with (Z.to_nat mx + 0)%nat at 1 2 3 by lia.
  rewrite battle_loop_played.
  - cbn [battle_loop fst snd _final winner turns]. unfold world_before_turn.
    replace (Z.to_nat (mx + 1 - 1)) with (Z.to_nat mx) by lia.
    repeat split.
  - intros i Hi. specialize (Hall (Z.of_nat i + 1) ltac:(lia)).
    unfold both_alive, world_before_turn in Hall.
    replace (Z.to_nat (Z.of_nat i + 1 - 1)) with i in Hall by lia.
    exact Hall.
Qed.

(** X9. A battle that starts with a team without a living unit ends at
    once (for [max_turns >= 1]): [turns = 0], the other side wins (B when
    team A has none, whatever team B has), no unit and no part of the
    engine is touched, no draw is made, and both loss rates are 0. *)
Theorem battle_of_the_fallen (E : Engine) (team_a team_b : list Unit) :
  let w := mkWorld E (team_a ++ team_b) in
  let ta := refs_a team_a in
  let tb := refs_b team_a team_b in
  1 <= default 8 (max_turns (T E)) ->
  _alive (heap w) ta = [] \/ _alive (heap w) tb = [] ->
  let r := fst (run_battle E team_a team_b) in
  winner r = (if bool_decide (_alive (heap w) ta = []) then WinB else WinA)
  /\ turns r = 0
  /\ snd (run_battle E team_a team_b) = w
  /\ (a_loss_rate r == 0)%Q /\ (b_loss_rate r == 0)%Q
  /\ res_triggers r = triggers E.
Proof.
  cbv zeta. intros Hmx Hdead. unfold run_battle, run_battle_refs.
  cbn [eng heap].
  destruct (Z.to_nat (default 8 (max_turns (T E)))) as [|n] eqn:En; [lia|].
  cbn [battle_loop heap] in *.
  assert (Hz : forall i, (loss_rate i i == 0)%Q).
  { intros i. unfold loss_rate. destruct (i =? 0); cbn [negb]; [reflexivity|].
    rewrite Z.sub_diag. unfold Qdiv. apply Qmult_0_l. }
  destruct (_alive (team_a ++ team_b) (refs_a team_a)) as [|a la] eqn:Ea.
  - rewrite bool_decide_eq_true_2 by reflexivity.
    cbn. repeat split; apply Hz.
  - rewrite bool_decide_eq_false_2 by discriminate.
    destruct Hdead as [Hd|Hd]; [discriminate|]. rewrite Hd.
    cbn. repeat split; apply Hz.
Qed.

Lemma battle_loop_final (n : nat) (turn mx ai bi : Z) (ta tb : list nat)
    (w : World) :
  let r := fst (battle_loop n turn mx ai bi ta tb w) in
  let w' := snd (battle_loop n turn mx ai bi ta tb w) in
  a_loss_rate r = loss_rate ai (sum_soldiers (heap w') ta)
  /\ b_loss_rate r = loss_rate bi (sum_soldiers (heap w') tb).
Proof.
  revert turn w. induction n as [|n IH]; intros turn w; cbn [battle_loop].
  - split; reflexivity.
  - destruct (_alive (heap w) ta); [split; reflexivity|].
    destruct (_alive (heap w) tb); [split; reflexivity|]. apply IH.
Qed.

Lemma sum_soldiers_nonneg (h : list Unit) (team : list nat) :
  Forall bounded h -> 0 <= sum_soldiers h team.
Proof.
  intros Hb. unfold sum_soldiers. induction team as [|r team IH]; cbn; [lia|].
  assert (0 <= soldiers_at h r); [|lia].
  unfold soldiers_at. destruct (h !! r) as [u|] eqn:Hr; [|lia].
  apply (Forall_lookup_1 _ _ _ _ Hb Hr).
Qed.

Lemma loss_rate_le_1 (i now : Z) : 0 <= i -> 0 <= now -> (loss_rate i now <= 1)%Q.
Proof.
  intros Hi Hn. unfold loss_rate. destruct (i =? 0) eqn:E; cbn [negb].
  - discriminate.
  - apply Z.eqb_neq in E. apply Qle_shift_div_r.
    + change 0%Q with (inject_Z 0). rewrite <- Zlt_Qlt. lia.
    + rewrite Qmult_1_l. rewrite <- Zle_Qle. lia.
Qed.

(** X10. In a battle of units within their bound, no loss rate exceeds
    1: a team cannot lose more than it had. *)
Theorem loss_rates_at_most_one (E : Engine) (team_a team_b : list Unit) :
  Forall bounded (team_a ++ team_b) ->
  let r := fst (run_battle E team_a team_b) in
  (a_loss_rate r <= 1)%Q /\ (b_loss_rate r <= 1)%Q.
Proof.
  intros Hb. cbv zeta.
  assert (Hend : Forall bounded (heap (snd (run_battle E team_a team_b)))).
  { apply (steps_invariant (fun w => Forall bounded (heap w)) wstep_bounded
                           (mkWorld E (team_a ++ team_b)));
      [apply steps_run_battle_refs | exact Hb]. }
  unfold run_battle, run_battle_refs in *. cbn [eng heap] in *.
  match goal with
  | |- context [battle_loop ?n ?t ?mx ?ai ?bi ?ta ?tb ?w] =>
      destruct (battle_loop_final n t mx ai bi ta tb w) as [-> ->]
  end.
  split; apply loss_rate_le_1;
    try (apply sum_soldiers_nonneg; assumption).
Qed.

End Endings.

(** A tuning that ends the battle after one turn. *)
Definition one_turn : Tuning :=
  mkTuning None None None None None None None None (Some 1) None.

(** In the mirror match of one turn the unit of team B dies in that turn,
    and the result is a draw. *)
Lemma draw_after_max_turns_witness :
  winner (fst (run_battle (@new_engine lcg one_turn 0) [mirror] [mirror]))
  = WinDraw
  /\ _alive (heap (snd (run_battle (@new_engine lcg one_turn 0)
                                   [mirror] [mirror]))) [1%nat] = [].
Proof.
  split; [|vm_compute; reflexivity].
  apply (draw_after_max_turns (@new_engine lcg one_turn 0) [mirror] [mirror]).
  intros j Hj. change (1 <= j <= 1) in Hj. assert (j = 1) as -> by lia.
  vm_compute. split; discriminate.
Defined.

Lemma battle_of_the_fallen_witness :
  let E := @new_engine lcg no_tuning 0 in
  let r := fst (run_battle E [fallen] [plain]) in
  winner r = WinB /\ turns r = 0
  /\ snd (run_battle E [fallen] [plain]) = mkWorld E ([fallen] ++ [plain]).
Proof.
  cbv zeta.
  destruct (battle_of_the_fallen (@new_engine lcg no_tuning 0)
              [fallen] [plain]) as (Hw & Ht & Hs & _).
  - vm_compute. discriminate.
  - left. reflexivity.
  - split; [exact Hw|]. split; [exact Ht | exact Hs].
Defined.

Lemma loss_rates_at_most_one_witness :
  let r := fst (run_battle (@new_engine lcg no_tuning 0) [mirror] [mirror]) in
  (a_loss_rate r <= 1)%Q /\ (b_loss_rate r <= 1)%Q.
Proof.
  apply (loss_rates_at_most_one (@new_engine lcg no_tuning 0)
                                [mirror] [mirror]).
  repeat constructor; vm_compute; discriminate.
Defined.

(** * Further properties of the Monte Carlo driver *)

Definition wins_total (ws : Wins) : Z := wins_A ws + wins_B ws + wins_draw ws.

Definition wins_nonneg (ws : Wins) : Prop :=
  0 <= wins_A ws /\ 0 <= wins_B ws /\ 0 <= wins_draw ws.

Section Counts.
Context `{RG : RandomGen}.
Variable Env : Type.
Variable pstdev : list Q -> Q.
Variable build_once : Z -> Env -> BattleResult * Env.

Lemma trials_wins (k : nat) (g : rng_state) (acc : Acc) (env : Env) :
  wins_nonneg (acc_wins acc) ->
  let acc' := fst (trials build_once k g acc env) in
  wins_nonneg (acc_wins acc')
  /\ wins_total (acc_wins acc') = wins_total (acc_wins acc) + Z.of_nat k
  /\ length (a_losses acc') = (length (a_losses acc) + k)%nat
  /\ length (b_losses acc') = (length (b_losses acc) + k)%nat.
Proof.
  revert g acc env. induction k as [|k IH]; intros g acc env Hnn;
    cbn [trials].
  - split; [exact Hnn|]. cbn. lia.
  - destruct (randint_seed g) as [sd g'].
    destruct (build_once sd env) as [res env'].
    specialize (IH g' (fold_result acc res) env').
    destruct IH as (H1 & H2 & H3 & H4).
    + unfold wins_nonneg in *. cbn. destruct (winner res); cbn; lia.
    + cbv zeta. split; [exact H1|]. rewrite H2, H3, H4.
      cbn [fold_result a_losses b_losses acc_wins].
      rewrite !length_app. cbn [length].
      unfold wins_total. destruct (winner res); cbn; lia.
Qed.

(** X11. For every factory whose results name one of the winners A, B
    and draw, [simulate_many] counts every trial once: the three win
    counters are not negative and add up to the number of trials
    [max(0, n)], and the reported [n] is the argument; for [n <= 0] the
    factory is never called and no win is counted; for [n = 0] the three
    rates are [0.0]. *)
Theorem simulate_many_counts (n seed : Z) (env : Env) :
  let r := fst (simulate_many pstdev build_once n seed env) in
  agg_n r = n
  /\ wins_nonneg (agg_wins r)
  /\ wins_total (agg_wins r) = Z.max 0 n
  /\ (n <= 0 ->
      snd (simulate_many pstdev build_once n seed env) = env
      /\ agg_wins r = mkWins 0 0 0)
  /\ (n = 0 ->
      win_rate_A r = S754_zero false
      /\ win_rate_B r = S754_zero false
      /\ draw_rate r = S754_zero false).
Proof.
  cbv zeta. unfold simulate_many.
  pose proof (trials_wins (Z.to_nat n) (rng_seed seed) acc0 env) as H.
  destruct H as (H1 & H2 & _); [unfold wins_nonneg; cbn; lia|].
  destruct (trials build_once (Z.to_nat n) (rng_seed seed) acc0 env)
    as [acc env'] eqn:Et.
  cbn [fst snd] in *. cbn [finish agg_n agg_wins win_rate_A win_rate_B draw_rate].
  split; [reflexivity|]. split; [exact H1|]. split; [|split].
  - rewrite H2. unfold wins_total, acc0.
    cbn [acc_wins wins_A wins_B wins_draw]. lia.
  - intros Hn. replace (Z.to_nat n) with 0%nat in Et by lia.
    cbn in Et. injection Et as <- <-. split; reflexivity.
  - intros ->. unfold rate. cbn. repeat split.
Qed.

Lemma sub_seeds_range (k : nat) (g : rng_state) :
  length (sub_seeds k g) = k
  /\ Forall (fun sd => 0 <= sd <= 10 ^ 9) (sub_seeds k g).
Proof.
  revert g. induction k as [|k IH]; intros g; cbn [sub_seeds].
  - split; [reflexivity | constructor].
  - pose proof (rng_randbelow_range (10 ^ 9 + 1) g ltac:(lia)) as Hr.
    unfold randint_seed. destruct (rng_randbelow (10 ^ 9 + 1) g) as [sd g'].
    cbn [fst] in Hr. destruct (IH g') as [IH1 IH2]. split.
    + cbn. rewrite IH1. reflexivity.
    + constructor; [lia | exact IH2].
Qed.

(** X12. The factory is called [max(0, n)] times, one call after the
    other, each with a seed between 0 and [10**9]: the environment that
    [simulate_many] leaves is the one these calls produce in order. *)
Theorem simulate_many_seeds (n seed : Z) (env : Env) :
  exists seeds : list Z,
    length seeds = Z.to_nat n
    /\ Forall (fun sd => 0 <= sd <= 10 ^ 9) seeds
    /\ snd (simulate_many pstdev build_once n seed env)
       = foldl (fun e sd => snd (build_once sd e)) env seeds.
Proof.
  exists (sub_seeds (Z.to_nat n) (rng_seed seed)).
  destruct (sub_seeds_range (Z.to_nat n) (rng_seed seed)) as [Hl Hr].
  split; [exact Hl|]. split; [exact Hr|].
  unfold simulate_many.
  pose proof (trials_calls Env build_once (Z.to_nat n) (rng_seed seed)
                acc0 env) as Hc.
  destruct (trials build_once _ _ _ env) as [acc env']. exact Hc.
Qed.

End Counts.

(** The rates are doubles: those of one win of A, four of B and one draw
    in six trials add up to [1 - 2^-53], the double below 1. *)
Remark rates_in_doubles :
  fadd (fadd (rate 1 6) (rate 4 6)) (rate 1 6)
  = S754_finite false 9007199254740991 (-53)
  /\ of_Q 1 = S754_finite false 4503599627370496 (-52).
Proof. vm_compute. split; reflexivity. Qed.

(** ** The trigger counters of the driver *)

(** The sum of the values stored under [k] in a list of items. *)
Definition counter_total (k : string) (l : list (string * Z)) : Z :=
  foldr (fun kv s => if String.eqb (fst kv) k then snd kv + s else s) 0 l.

Lemma counter_add_keys (k k' : string) (n : Z) (c : list (string * Z)) :
  In k' (fst <$> counter_add k n c) <-> k' = k \/ In k' (fst <$> c).
Proof.
  induction c as [|[a v] c IH]; cbn [counter_add].
  - cbn. intuition.
  - destruct (String.eqb a k) eqn:E.
    + apply String.eqb_eq in E. subst a. cbn. intuition.
    + cbn. rewrite IH. intuition.
Qed.

Lemma counter_add_NoDup (k : string) (n : Z) (c : list (string * Z)) :
  NoDup (fst <$> c) -> NoDup (fst <$> counter_add k n c).
Proof.
  induction c as [|[a v] c IH]; cbn [counter_add]; intros Hnd.
  - cbn. apply NoDup_singleton.
  - cbn in Hnd. apply NoDup_cons in Hnd. destruct Hnd as [Hna Hnd].
    destruct (String.eqb a k) eqn:E.
    + cbn. apply NoDup_cons. split; assumption.
    + cbn. apply NoDup_cons. split; [|apply IH, Hnd].
      rewrite list_elem_of_In, counter_add_keys. intros [->|Hin].
      * rewrite String.eqb_refl in E. discriminate.
      * apply Hna, list_elem_of_In, Hin.
Qed.

Lemma merge_items (k : string) (items c : list (string * Z)) :
  let c' := foldl (fun t kv => counter_add (fst kv) (snd kv) t) c items in
  (NoDup (fst <$> c) -> NoDup (fst <$> c'))
  /\ counter_get k c' = counter_get k c + counter_total k items.
Proof.
  revert c. induction items as [|[a v] items IH]; intros c; cbn [foldl].
  - cbn. split; [tauto | lia].
  - specialize (IH (counter_add a v c)). cbv zeta in IH.
    destruct IH as [IH1 IH2]. split.
    + intros Hnd. apply IH1, counter_add_NoDup, Hnd.
    + unfold counter_total in *. cbn [fst snd foldr] in *.
      rewrite IH2, counter_get_add.
      destruct (String.eqb a k); lia.
Qed.

(** X13. The trigger counters that the driver accumulates are a
    dictionary (no key twice) in which the count of a skill is the sum,
    over the results folded in, of the counts reported for that skill. *)
Theorem trig_accumulates (acc : Acc) (rs : list BattleResult) (k : string) :
  NoDup (fst <$> trig acc) ->
  let acc' := foldl fold_result acc rs in
  NoDup (fst <$> trig acc')
  /\ counter_get k (trig acc')
     = counter_get k (trig acc)
       + foldr (fun r s => counter_total k (res_triggers r) + s) 0 rs.
Proof.
  revert acc. induction rs as [|r rs IH]; intros acc Hnd; cbn [foldl foldr].
  - split; [exact Hnd | lia].
  - destruct (merge_items k (res_triggers r) (trig acc)) as [M1 M2].
    destruct (IH (fold_result acc r)) as [IH1 IH2].
    + cbn [fold_result trig]. apply M1, Hnd.
    + split; [exact IH1|]. rewrite IH2. cbn [fold_result trig].
      rewrite M2. lia.
Qed.

Lemma trig_accumulates_witness :
  let r := mirror_result 0 in
  NoDup (fst <$> trig (foldl fold_result acc0 [r; r]))
  /\ counter_get "drain" (trig (foldl fold_result acc0 [r; r]))
     = counter_get "drain" (trig acc0)
       + foldr (fun r s => counter_total "drain" (res_triggers r) + s)
               0 [r; r].
Proof.
  apply (trig_accumulates acc0 [mirror_result 0; mirror_result 0] "drain").
  constructor.
Defined.

(** X14. [skill_triggers_top] holds the [min(15, number of skills)]
    skills with the highest counts, highest first: no skill left out has
    a higher count than a skill kept, and the cut keeps the keys distinct
    when they were. *)
Theorem trig_top_spec (t : list (string * Z)) :
  let top := trig_top t in
  length top = Nat.min 15 (length t)
  /\ StronglySorted (fun a b => snd b <= snd a) top
  /\ (NoDup (fst <$> t) -> NoDup (fst <$> top))
  /\ exists rest,
       top ++ rest ≡ₚ t
       /\ forall a b, In a top -> In b rest -> snd b <= snd a.
Proof.
  cbv zeta. unfold trig_top.
  set (before := fun y x : string * Z => snd x <? snd y).
  set (sorted := stable_sort before t).
  assert (Hp : sorted ≡ₚ t) by apply stable_sort_perm.
  assert (Hs : StronglySorted (fun a b => snd b <= snd a) sorted).
  { assert (H : StronglySorted (in_order before) sorted).
    { apply stable_sort_sorted.
      - intros x y. unfold before. rewrite Z.ltb_lt, Z.ltb_ge. lia.
      - intros x y z. unfold in_order, before. rewrite !Z.ltb_ge. lia. }
    eapply sorted_impl; [|exact H].
    intros a b. unfold in_order, before. rewrite Z.ltb_ge. lia. }
  pose proof Hs as Hs'. rewrite <- (take_drop 15 sorted) in Hs'.
  apply sorted_app_cross in Hs'. destruct Hs' as [Hs1 Hc].
  split; [|split; [exact Hs1|split]].
  - rewrite length_take, (Permutation_length Hp). reflexivity.
  - intros Hnd.
    assert (Hnd' : NoDup (fst <$> sorted)).
    { rewrite Hp. exact Hnd. }
    rewrite <- (take_drop 15 sorted), fmap_app in Hnd'.
    apply NoDup_app in Hnd'. apply Hnd'.
  - exists (drop 15 sorted). split; [|exact Hc].
    rewrite take_drop. exact Hp.
Qed.

(** * Further properties of the formulas *)


Lemma py_max_0_nonneg (x : Q) : (0 <= py_max 0%Q x)%Q.
Proof.
  unfold py_max. destruct (Qltb 0 x) eqn:E.
  - apply Qltb_lt in E. apply Qlt_le_weak, E.
  - apply Qle_refl.
Qed.

Section MoreFormulas.
Context `{RG : RandomGen}.




End MoreFormulas.




(** * No friendly fire *)

Section FriendlyFire.
Context `{RG : RandomGen}.

(** During the action of [u], only a unit of the team that [u] takes for
    the enemy can lose soldiers. *)
Lemma start_action_grows (ids : list string) (ta tb : list nat) (w : World)
    (u r : nat) :
  teams_apart ids ta tb ->
  settled ids w ->
  ~ In r (if in_team (heap w) u ta then tb else ta) ->
  soldiers_at (heap w) r <= soldiers_at (heap (start_action ta tb w u)) r.
Proof.
  intros Hap [Hb Hi] Hr. subst ids. unfold start_action.
  destruct (heap w !! u) as [uv|] eqn:Hu; [|lia].
  destruct (is_alive uv) eqn:Hal; cbn [negb]; [|lia].
  destruct (confused (T (eng w)) uv); [lia|].
  cbv zeta.
  destruct (pick_enemy_engine (eng w) (heap w)
              (if in_team (heap w) u ta then tb else ta)) as [g Hg].
  destruct (_pick_enemy _ _ _) as [[target|] E1] eqn:Hp; [|lia].
  cbn [snd] in Hg. subst E1.
  pose proof (target_not_self w ta tb u target uv _ _ Hap Hu Hp) as Hne.
  pose proof (pick_enemy_alive _ _ _ _ _ Hp) as [Hin _].
  set (w0 := mkWorld (with_rng (eng w) g) (heap w)).
  destruct (safe_fire_skills "start" ta tb u target
              (if in_team (heap w) u ta then tb else ta)
              (all_skills uv) w0) as [_ G]; [exact Hb | | exact Hne |].
  - cbn [heap w0]. unfold alive_at. rewrite Hu. exact Hal.
  - apply (G r). intros ->. exact (Hr Hin).
Qed.

Lemma attack_action_grows (ids : list string) (ta tb : list nat) (w : World)
    (u r : nat) :
  teams_apart ids ta tb ->
  settled ids w ->
  ~ In r (if in_team (heap w) u ta then tb else ta) ->
  soldiers_at (heap w) r <= soldiers_at (heap (attack_action ta tb w u)) r.
Proof.
  intros Hap [Hb Hi] Hr. subst ids. unfold attack_action, basic_attack.
  destruct (heap w !! u) as [uv|] eqn:Hu; [|lia].
  destruct (is_alive uv) eqn:Hal; cbn [negb]; [|lia].
  destruct (confused (T (eng w)) uv); [lia|].
  cbv zeta.
  destruct (pick_enemy_engine (eng w) (heap w)
              (if in_team (heap w) u ta then tb else ta)) as [g Hg].
  destruct (_pick_enemy _ _ _) as [[target|] E1] eqn:Hp; [|lia].
  cbn [snd] in Hg. subst E1.
  pose proof (target_not_self w ta tb u target uv _ _ Hap Hu Hp) as Hne.
  pose proof (pick_enemy_alive _ _ _ _ _ Hp) as [Hin _].
  assert (Hrt : r <> target) by (intros ->; exact (Hr Hin)).
  set (w0 := mkWorld (with_rng (eng w) g) (heap w)).
  destruct (safe_damage_with physical_damage w0 u target 1%Q
              physical_damage_good) as [H1 G1].
  set (w1 := damage_with physical_damage w0 u target 1%Q) in *.
  pose proof (G1 r Hrt) as Gr. cbn [heap w0] in Gr.
  destruct (alive_at (heap w1) target); [|exact Gr].
  destruct (heap w1 !! u) as [uv1|] eqn:Hu1; [|exact Gr].
  destruct (safe_fire_skills "after_attack" ta tb u target
              (if in_team (heap w) u ta then tb else ta)
              (all_skills uv1) w1) as [_ G]; [| | exact Hne |].
  - exact (sstep_bounded _ _ H1 Hb).
  - apply alive_at_soldiers. specialize (G1 u ltac:(congruence)).
    assert (0 < soldiers_at (heap w0) u); [|lia].
    apply alive_at_soldiers. cbn [heap w0]. unfold alive_at.
    rewrite Hu. exact Hal.
  - specialize (G r Hrt). lia.
Qed.

(** X17. When no [unit_id] occurs in both teams and the units are within
    their bound, there is no friendly fire: in the start action and in
    the attack action of a unit of team A only units of team B can lose
    soldiers, and in the actions of a unit of team B only units of team
    A. *)
Theorem no_friendly_fire (ids : list string) (ta tb : list nat) (w : World)
    (u r : nat) :
  teams_apart ids ta tb ->
  settled ids w ->
  (In u ta /\ ~ In r tb) \/ (In u tb /\ ~ In r ta) ->
  soldiers_at (heap w) r <= soldiers_at (heap (start_action ta tb w u)) r
  /\ soldiers_at (heap w) r <= soldiers_at (heap (attack_action ta tb w u)) r.
Proof.
  intros Hap Hw Hside.
  assert (Hr : ~ In r (if in_team (heap w) u ta then tb else ta)
               \/ heap w !! u = None).
  { destruct (heap w !! u) as [uv|] eqn:Hu; [left | right; reflexivity].
    destruct Hside as [[Hu_a Hr_b]|[Hu_b Hr_a]].
    - rewrite (in_team_self (heap w) u ta Hu_a). exact Hr_b.
    - destruct (in_team (heap w) u ta) eqn:Hit; [|exact Hr_a].
      exfalso. destruct Hw as [_ Hi]. subst ids.
      exact (in_team_not_other w ta tb u uv Hap Hu Hit Hu_b). }
  destruct Hr as [Hr|Hnone].
  - split; [eapply start_action_grows | eapply attack_action_grows]; eauto.
  - unfold start_action, attack_action, basic_attack. rewrite Hnone.
    split; lia.
Qed.

End FriendlyFire.

Lemma no_friendly_fire_witness :
  let w := mkWorld (@new_engine lcg no_tuning 0) [mirror; rival] in
  soldiers_at (heap w) 0
  <= soldiers_at (heap (start_action [0%nat] [1%nat] w 0%nat)) 0
  /\ soldiers_at (heap w) 0
     <= soldiers_at (heap (attack_action [0%nat] [1%nat] w 0%nat)) 0.
Proof.
  apply (no_friendly_fire ["u1"; "u2"]%string [0%nat] [1%nat]
           (mkWorld (@new_engine lcg no_tuning 0) [mirror; rival])
           0%nat 0%nat).
  - intros i j a b [<-|[]] [<-|[]] [= <-] [= <-]. discriminate.
  - split; [repeat constructor; vm_compute; discriminate | reflexivity].
  - left. split; [left; reflexivity | intros [H|[]]; discriminate].
Defined.

(** * Activation of a skill *)

Section Activation.
Context `{RG : RandomGen}.

Lemma damage_with_triggers f (w : World) (self_u enemy_u : nat) (rate : Q) :
  good_formula f ->
  triggers (eng (damage_with f w self_u enemy_u rate)) = triggers (eng w).
Proof.
  intros Hf. unfold damage_with.
  destruct (heap w !! self_u) as [a|]; [|reflexivity].
  destruct (heap w !! enemy_u) as [d|]; [|reflexivity].
  destruct (Hf (eng w) a d rate) as (dmg & g & -> & _). reflexivity.
Qed.

Lemma heals_triggers (self_u : nat) (rate : Q) (targets : list nat)
    (w : World) :
  triggers (eng (foldl (heal_ref self_u rate) w targets)) = triggers (eng w).
Proof.
  revert w. induction targets as [|t ts IH]; intros w; cbn [foldl].
  - reflexivity.
  - rewrite IH. unfold heal_ref.
    destruct (heap w !! self_u) as [hu|]; [|reflexivity].
    destruct (heap w !! t) as [tu|]; [|reflexivity].
    rewrite heal_value. reflexivity.
Qed.

Lemma apply_effects_triggers (w : World) (sk : Skill) (self_u enemy_u : nat)
    (ts te : list nat) :
  triggers (eng (_apply_effects w sk self_u enemy_u ts te))
  = triggers (eng w).
Proof.
  unfold _apply_effects. revert w.
  induction (effects sk) as [|eff effs IH]; intros w; cbn [foldl].
  - reflexivity.
  - rewrite IH. unfold apply_effect.
    destruct (opt_is (eff_type eff) "physical_damage").
    { apply damage_with_triggers, physical_damage_good. }
    destruct (opt_is (eff_type eff) "strategy_damage").
    { apply damage_with_triggers, strategy_damage_good. }
    destruct (opt_is (eff_type eff) "heal").
    { apply heals_triggers. }
    destruct (opt_is (eff_type eff) "status"); [|reflexivity].
    destruct (opt_is (eff_name eff) "confusion"); [|reflexivity].
    destruct (heap w !! enemy_u); reflexivity.
Qed.

(** The draw against a [proc] that is not positive never succeeds. *)
Lemma fire_skill_inert (tm : string) (ta tb : list nat) (u target : nat)
    (te : list nat) (w : World) (sk : Skill) :
  (proc sk <= 0)%Q ->
  heap (fire_skill tm ta tb u target te w sk) = heap w
  /\ triggers (eng (fire_skill tm ta tb u target te w sk))
     = triggers (eng w).
Proof.
  intros Hp. unfold fire_skill.
  destruct (String.eqb (timing sk) tm); [|split; reflexivity].
  pose proof (rng_random_range (rng (eng w))) as [H0 _].
  destruct (rng_random (rng (eng w))) as [x g]. cbn [fst] in H0.
  assert (Hx : Qltb x (proc sk) = false) by (apply Qltb_ge; lra).
  rewrite Hx. split; reflexivity.
Qed.

(** X18. A skill with [proc <= 0] never triggers: when its turn comes
    nothing is recorded and no unit is written. A skill with [proc >= 1]
    always triggers when its timing comes, and a trigger is counted
    exactly once: the counter of its name goes up by 1, also after its
    effects are applied, and no other counter changes. *)
Theorem proc_extremes (tm : string) (ta tb : list nat) (u target : nat)
    (te : list nat) (w : World) (sk : Skill) :
  let w' := fire_skill tm ta tb u target te w sk in
  ((proc sk <= 0)%Q ->
   heap w' = heap w /\ triggers (eng w') = triggers (eng w))
  /\ ((1 <= proc sk)%Q -> timing sk = tm ->
      forall k,
        counter_get k (triggers (eng w'))
        = counter_get k (triggers (eng w))
          + (if String.eqb (skill_name sk) k then 1 else 0)).
Proof.
  cbv zeta. split.
  - apply fire_skill_inert.
  - unfold fire_skill. intros Hp <- k. rewrite String.eqb_refl.
    pose proof (rng_random_range (rng (eng w))) as [_ H1].
    destruct (rng_random (rng (eng w))) as [x g]. cbn [fst] in H1.
    assert (Hx : Qltb x (proc sk) = true) by (apply Qltb_lt; lra).
    rewrite Hx, apply_effects_triggers. unfold _record, with_rng.
    cbn [eng triggers]. rewrite counter_get_add. destruct (String.eqb (skill_name sk) k); lia.
Qed.

End Activation.

Lemma proc_extremes_witness :
  let w := mkWorld (@new_engine lcg no_tuning 0) [mirror; rival] in
  (heap (fire_skill "after_attack" [0%nat] [1%nat] 0 1 [1%nat] w sk_none)
   = heap w
   /\ triggers (eng (fire_skill "after_attack" [0%nat] [1%nat] 0 1 [1%nat]
                                w sk_none))
      = triggers (eng w))
  /\ counter_get "drain"
       (triggers (eng (fire_skill "start" [0%nat] [1%nat] 0 1 [1%nat]
                                  w sk_drain)))
     = counter_get "drain" (triggers (eng w))
       + (if String.eqb (skill_name sk_drain) "drain" then 1 else 0).
Proof.
  cbv zeta. split.
  - apply (proj1 (proc_extremes "after_attack" [0%nat] [1%nat] 0 1 [1%nat]
                    (mkWorld (@new_engine lcg no_tuning 0) [mirror; rival])
                    sk_none)).
    vm_compute. discriminate.
  - apply (proj2 (proc_extremes "start" [0%nat] [1%nat] 0 1 [1%nat]
                    (mkWorld (@new_engine lcg no_tuning 0) [mirror; rival])
                    sk_drain)).
    + vm_compute. discriminate.
    + reflexivity.
Defined.

(** * The after_attack skills *)

Section AfterAttack.
Context `{RG : RandomGen}.

(** A skill of another timing than that of the pass is passed over: no
    draw is made, nothing is recorded and no effect is applied. *)
Lemma fire_skill_other_timing (tm : string) (ta tb : list nat)
    (u target : nat) (te : list nat) (w : World) (sk : Skill) :
  timing sk <> tm -> fire_skill tm ta tb u target te w sk = w.
Proof.
  intros H. unfold fire_skill. apply String.eqb_neq in H. rewrite H.
  reflexivity.
Qed.

(** In a pass the counter of a name changes only through a skill of the
    timing of the pass that has this name. *)
Lemma fire_skills_counter (tm : string) (ta tb : list nat) (u target : nat)
    (te : list nat) (sks : list Skill) (w : World) (k : string) :
  (forall sk, In sk sks -> timing sk = tm -> skill_name sk <> k) ->
  counter_get k (triggers (eng (fire_skills tm ta tb u target te w sks)))
  = counter_get k (triggers (eng w)).
Proof.
  unfold fire_skills. revert w.
  induction sks as [|sk sks IH]; intros w H; cbn [foldl]; [reflexivity|].
  rewrite IH by (intros sk' Hin; apply H; right; exact Hin).
  unfold fire_skill.
  destruct (String.eqb (timing sk) tm) eqn:E; [|reflexivity].
  apply String.eqb_eq in E.
  destruct (rng_random (rng (eng w))) as [x g].
  destruct (Qltb x (proc sk)); [|reflexivity].
  rewrite apply_effects_triggers. unfold _record, with_rng.
  cbn [eng triggers]. rewrite counter_get_add.
  specialize (H sk (or_introl eq_refl) E).
  destruct (String.eqb (skill_name sk) k) eqn:En; [|lia].
  apply String.eqb_eq in En. contradiction.
Qed.

Lemma start_action_counter (ta tb : list nat) (w : World) (u : nat)
    (k : string) :
  (forall uv sk, heap w !! u = Some uv -> In sk (all_skills uv) ->
                 timing sk = "start" -> skill_name sk <> k) ->
  counter_get k (triggers (eng (start_action ta tb w u)))
  = counter_get k (triggers (eng w)).
Proof.
  intros H. unfold start_action.
  destruct (heap w !! u) as [uv|] eqn:Hu; [|reflexivity].
  destruct (negb (is_alive uv)); [reflexivity|].
  destruct (confused (T (eng w)) uv); [reflexivity|].
  cbv zeta.
  destruct (pick_enemy_engine (eng w) (heap w)
              (if in_team (heap w) u ta then tb else ta)) as [g Hg].
  destruct (_pick_enemy _ _ _) as [[t|] E1]; [|reflexivity].
  cbn [snd] in Hg. subst E1.
  rewrite fire_skills_counter by (intros sk Hin; apply (H uv sk eq_refl Hin)).
  reflexivity.
Qed.

(** C8. After the basic attack of a unit:
    - when the target is left with 0 soldiers, the action of the unit ends
      there: the world after the action is the world after the basic
      attack, so no after_attack skill is recorded (the trigger counters
      are those from before the action) and no effect is applied (the
      store differs from the one before the action only in the soldiers of
      the target, now 0);
    - when the target is left alive, the after_attack skills of the unit
      are evaluated, one after the other, in the world after the attack.
    The start pass does not evaluate them either: an after_attack skill is
    passed over there without a draw, and in the start action of a unit
    the counter of a name changes only through a start skill of that
    name. *)
Theorem after_attack_needs_survivor (ta tb : list nat) (w : World)
    (u target : nat) (te : list nat) (w1 : World) :
  basic_attack ta tb w u = Some (target, te, w1) ->
  (soldiers_at (heap w1) target = 0 ->
   attack_action ta tb w u = w1
   /\ triggers (eng (attack_action ta tb w u)) = triggers (eng w)
   /\ exists d, heap w !! target = Some d
                /\ heap (attack_action ta tb w u)
                   = <[target := with_soldiers d 0]> (heap w))
  /\ (0 < soldiers_at (heap w1) target ->
      exists uv,
        heap w1 !! u = Some uv
        /\ attack_action ta tb w u
           = fire_skills "after_attack" ta tb u target te w1 (all_skills uv))
  /\ (forall sk w0 t0 te0,
        timing sk = "after_attack" ->
        fire_skill "start" ta tb u t0 te0 w0 sk = w0)
  /\ (forall w0 k,
        (forall uv sk, heap w0 !! u = Some uv -> In sk (all_skills uv) ->
                       timing sk = "start" -> skill_name sk <> k) ->
        counter_get k (triggers (eng (start_action ta tb w0 u)))
        = counter_get k (triggers (eng w0))).
Proof.
  intros Hb.
  destruct (basic_attack_effect ta tb w u target te w1 Hb)
    as (Ht & d & dmg & Hd & Hdmg & Hh).
  split; [|split; [|split]].
  - intros Hz.
    assert (Ha : attack_action ta tb w u = w1).
    { unfold attack_action. rewrite Hb.
      unfold alive_at, is_alive. unfold soldiers_at in Hz.
      destruct (heap w1 !! target) as [d'|]; [|reflexivity].
      rewrite Hz. reflexivity. }
    rewrite Ha. split; [reflexivity|].
    split; [exact Ht|]. exists d. split; [exact Hd|].
    rewrite Hh in Hz |- *. unfold soldiers_at in Hz.
    rewrite list_lookup_insert_eq in Hz by (eapply lookup_lt_Some; eauto).
    cbn in Hz. rewrite Hz. reflexivity.
  - intros Hpos.
    assert (Hu : is_Some (heap w1 !! u)).
    { apply lookup_lt_is_Some. rewrite Hh, length_insert.
      unfold basic_attack in Hb.
      destruct (heap w !! u) as [uv0|] eqn:Hu0; [|discriminate].
      eapply lookup_lt_Some; eauto. }
    destruct Hu as [uv Hu]. exists uv. split; [exact Hu|].
    unfold attack_action. rewrite Hb.
    unfold alive_at, is_alive. unfold soldiers_at in Hpos.
    destruct (heap w1 !! target) as [d'|]; [|lia].
    apply Z.ltb_lt in Hpos. rewrite Hpos, Hu. reflexivity.
  - intros sk w0 t0 te0 Hsk. apply fire_skill_other_timing.
    rewrite Hsk. discriminate.
  - intros w0 k. apply start_action_counter.
Qed.

End AfterAttack.

(** An after_attack skill that always triggers. *)
Definition sk_followup : Skill :=
  mkSkill "s2" "followup" "unique" "after_attack" 1%Q
    [mkEffect (Some "heal") None None None None None].

(** A unit at full strength with the skill [sk_followup]. *)
Definition striker : Unit := general sk_followup 10000 10000.

Lemma after_attack_needs_survivor_witness :
  let w := mkWorld (@new_engine lcg no_tuning 0) [striker; weakened] in
  let w' := mkWorld (@new_engine lcg no_tuning 0) [striker; plain] in
  (triggers (eng (attack_action [0%nat] [1%nat] w 0%nat)) = triggers (eng w)
   /\ soldiers_at (heap (attack_action [0%nat] [1%nat] w 0%nat)) 1%nat = 0)
  /\ map timing (all_skills striker) = ["after_attack"]
  /\ triggers (eng (attack_action [0%nat] [1%nat] w' 0%nat))
     = [("followup", 1)].
Proof.
  cbv zeta. split; [|split; [reflexivity | vm_compute; reflexivity]].
  pose (w := mkWorld (@new_engine lcg no_tuning 0) [striker; weakened]).
  pose (w1 := damage_with physical_damage
                (mkWorld (snd (_pick_enemy (eng w) (heap w) [1%nat])) (heap w))
                0%nat 1%nat 1%Q).
  assert (Hb : basic_attack [0%nat] [1%nat] w 0%nat
               = Some (1%nat, [1%nat], w1)) by reflexivity.
  assert (Hz : soldiers_at (heap w1) 1%nat = 0) by (vm_compute; reflexivity).
  destruct (after_attack_needs_survivor [0%nat] [1%nat] w 0%nat 1%nat
              [1%nat] w1 Hb) as (Hdead & _).
  destruct (Hdead Hz) as (Ha & Ht & _).
  split; [exact Ht|]. fold w. rewrite Ha. exact Hz.
Defined.

(** * The application: building the units of a battle ([app.py])

    The records of [units.json] and [skills.json] are dictionaries read
    through [get] and through indexing; a key that is absent is [None]
    here, and the values are taken to have the types the application
    writes. *)

(** A record of [skills.json]. *)
Record SkillData := mkSkillData {
  sd_skill_id : option string;
  sd_name : option string;
  sd_slot : option string;
  sd_timing : option string;
  sd_proc : option Q;
  sd_effects : option (list Effect);
  sd_display_name : option string
}.

(** [base_stats] of a record of [units.json]. *)
Record StatsData := mkStatsData {
  bs_str : option Q;
  bs_int : option Q;
  bs_lea : option Q;
  bs_spd : option Q
}.

(** A record of [units.json]. *)
Record UnitData := mkUnitData {
  ud_unit_id : option string;
  ud_name : option string;
  ud_base_stats : option StatsData;
  ud_max_soldiers : option Z;
  ud_unique_skill_id : option string
}.

(** [float(obj.get("proc", 0.0) or 0.0)]. *)
Definition proc_of (o : option Q) : Q :=
  match o with
  | Some p => if Qeq_bool p 0 then 0%Q else p
  | None => 0%Q
  end.

Definition to_skill (obj : SkillData) : Skill :=
  mkSkill (default "" (sd_skill_id obj))
          (default "" (sd_name obj))
          (default "learn20" (sd_slot obj))
          (default "after_attack" (sd_timing obj))
          (proc_of (sd_proc obj))
          (default [] (sd_effects obj)).

(** [to_skill(skill_map[id]) if id else None]: the outer [None] is the
    [KeyError] of the indexing. *)
Definition chosen_skill (skill_map : gmap string SkillData)
    (id : option string) : option (option Skill) :=
  match id with
  | None => Some None
  | Some s =>
      if String.eqb s "" then Some None
      else match skill_map !! s with
           | Some d => Some (Some (to_skill d))
           | None => None
           end
  end.

(** The record that [make_unit] builds for a unique skill that
    [skill_map] does not have. *)
Definition placeholder_skill (unit_data : UnitData) : SkillData :=
  mkSkillData (Some (default "" (ud_unique_skill_id unit_data)))
              (Some (default "" (ud_name unit_data)))
              (Some "unique") (Some "after_attack") (Some 0%Q) (Some [])
              None.

(** [make_unit]; [None] is a [KeyError]. *)
Definition make_unit (unit_data : UnitData)
    (skill_map : gmap string SkillData) (soldiers_ : Z)
    (learn20_id awaken_id : option string) : option Unit :=
  let base := default (mkStatsData None None None None)
                      (ud_base_stats unit_data) in
  let unique_raw :=
    match ud_unique_skill_id unit_data ≫= (skill_map !!.) with
    | Some d => d
    | None => placeholder_skill unit_data
    end in
  let unique_skill_ := to_skill unique_raw in
  match chosen_skill skill_map learn20_id with
  | None => None
  | Some learn20_skill_ =>
      match chosen_skill skill_map awaken_id with
      | None => None
      | Some awaken_skill_ =>
          let max_soldiers_ := default 10000 (ud_max_soldiers unit_data) in
          let soldiers' := Z.max 0 (Z.min max_soldiers_ soldiers_) in
          match ud_unit_id unit_data, ud_name unit_data with
          | Some uid, Some nm =>
              Some (mkUnit uid nm
                      (mkStats (default 0%Q (bs_str base))
                               (default 0%Q (bs_int base))
                               (default 0%Q (bs_lea base))
                               (default 0%Q (bs_spd base)))
                      max_soldiers_ soldiers' unique_skill_
                      learn20_skill_ awaken_skill_ ∅)
          | _, _ => None
          end
      end
  end.

(** [id] names a skill to look up: it is neither [None] nor empty. *)
Definition names_skill (id : option string) : bool :=
  match id with Some s => negb (String.eqb s "") | None => false end.

(** X19. [make_unit] clamps the troop count into [0, max_soldiers]: the
    unit it returns has [soldiers = max(0, min(max_soldiers, soldiers))],
    which is never negative, carries no status, is within the soldier
    bound exactly when its [max_soldiers] is not negative, and is alive
    exactly when both the requested troop count and [max_soldiers] are
    positive. *)
Theorem make_unit_clamps (unit_data : UnitData)
    (skill_map : gmap string SkillData) (soldiers_ : Z)
    (learn20_id awaken_id : option string) (u : Unit) :
  make_unit unit_data skill_map soldiers_ learn20_id awaken_id = Some u ->
  max_soldiers u = default 10000 (ud_max_soldiers unit_data)
  /\ soldiers u = Z.max 0 (Z.min (max_soldiers u) soldiers_)
  /\ 0 <= soldiers u
  /\ (bounded u <-> 0 <= max_soldiers u)
  /\ (is_alive u = true <-> 0 < soldiers_ /\ 0 < max_soldiers u)
  /\ statuses u = ∅.
Proof.
  unfold make_unit. cbv zeta.
  destruct (chosen_skill skill_map learn20_id); [|discriminate].
  destruct (chosen_skill skill_map awaken_id); [|discriminate].
  destruct (ud_unit_id unit_data); [|discriminate].
  destruct (ud_name unit_data); [|discriminate].
  intros [= <-]. unfold bounded, is_alive. cbn. rewrite Z.ltb_lt.
  repeat split; try lia.
Qed.

(** X20. [make_unit] fails (with a [KeyError]) exactly when the record
    has no [unit_id] or no [name], or when a learn20 or awaken skill is
    chosen that [skill_map] does not have; an unknown unique skill is not
    an error. *)
Theorem make_unit_fails (unit_data : UnitData)
    (skill_map : gmap string SkillData) (soldiers_ : Z)
    (learn20_id awaken_id : option string) :
  make_unit unit_data skill_map soldiers_ learn20_id awaken_id = None
  <-> ud_unit_id unit_data = None
      \/ ud_name unit_data = None
      \/ (names_skill learn20_id = true
          /\ learn20_id ≫= (skill_map !!.) = None)
      \/ (names_skill awaken_id = true
          /\ awaken_id ≫= (skill_map !!.) = None).
Proof.
  assert (Hc : forall id,
             chosen_skill skill_map id = None
             <-> names_skill id = true /\ id ≫= (skill_map !!.) = None).
  { intros [s|]; cbn; [|split; [discriminate | intros [H _]; discriminate]].
    destruct (String.eqb s ""); cbn;
      [split; [discriminate | intros [H _]; discriminate]|].
    destruct (skill_map !! s); split; try discriminate; try tauto.
    intros [_ H]. discriminate. }
  unfold make_unit. cbv zeta.
  pose proof (Hc learn20_id) as Hl. pose proof (Hc awaken_id) as Ha.
  destruct (chosen_skill skill_map learn20_id) as [l|].
  - destruct (chosen_skill skill_map awaken_id) as [a|].
    + destruct (ud_unit_id unit_data), (ud_name unit_data);
        split; intros H; try discriminate; try tauto.
      * destruct H as [H|[H|[H|H]]]; try discriminate.
        -- apply Hl in H. discriminate.
        -- apply Ha in H. discriminate.
    + split; [intros _|reflexivity]. right. right. right.
      apply Ha. reflexivity.
  - split; [intros _|reflexivity]. right. right. left. apply Hl. reflexivity.
Qed.

(** A record of [units.json] whose unique skill is not in [skills.json]. *)
Definition nobu_data : UnitData :=
  mkUnitData (Some "U_NOBU") (Some "nobunaga")
             (Some (mkStatsData (Some 95%Q) (Some 90%Q) (Some 92%Q)
                                (Some 85%Q)))
             (Some 10000) (Some "S_UNQ_NOBU").

(** The unit that [make_unit] builds from it for a request of 12000
    troops. *)
Definition nobu : Unit :=
  mkUnit "U_NOBU" "nobunaga" (mkStats 95 90 92 85) 10000 10000
         (to_skill (placeholder_skill nobu_data)) None None ∅.

Lemma make_unit_nobu : make_unit nobu_data ∅ 12000 None None = Some nobu.
Proof. reflexivity. Qed.

Lemma make_unit_clamps_witness :
  max_soldiers nobu = default 10000 (ud_max_soldiers nobu_data)
  /\ soldiers nobu = Z.max 0 (Z.min (max_soldiers nobu) 12000)
  /\ 0 <= soldiers nobu
  /\ (bounded nobu <-> 0 <= max_soldiers nobu)
  /\ (is_alive nobu = true <-> 0 < 12000 /\ 0 < max_soldiers nobu)
  /\ statuses nobu = ∅.
Proof.
  apply (make_unit_clamps nobu_data ∅ 12000 None None nobu).
  exact make_unit_nobu.
Defined.

Section Placeholder.
Context `{RG : RandomGen}.

(** X21. A unit whose unique skill [skill_map] does not have gets a
    unique skill that never triggers: it has [proc = 0] and no effects,
    and when its turn comes in a battle nothing is recorded and no unit
    is written. *)
Theorem unknown_unique_skill_inert (unit_data : UnitData)
    (skill_map : gmap string SkillData) (soldiers_ : Z)
    (learn20_id awaken_id : option string) (u : Unit) :
  make_unit unit_data skill_map soldiers_ learn20_id awaken_id = Some u ->
  ud_unique_skill_id unit_data ≫= (skill_map !!.) = None ->
  proc (unique_skill u) = 0%Q
  /\ effects (unique_skill u) = []
  /\ forall tm ta tb self target te w,
       heap (fire_skill tm ta tb self target te w (unique_skill u)) = heap w
       /\ triggers (eng (fire_skill tm ta tb self target te w
                                    (unique_skill u)))
          = triggers (eng w).
Proof.
  unfold make_unit. cbv zeta. intros Hm Hu. rewrite Hu in Hm.
  destruct (chosen_skill skill_map learn20_id); [|discriminate].
  destruct (chosen_skill skill_map awaken_id); [|discriminate].
  destruct (ud_unit_id unit_data); [|discriminate].
  destruct (ud_name unit_data); [|discriminate].
  injection Hm as <-. cbn [unique_skill].
  split; [reflexivity|]. split; [reflexivity|].
  intros tm ta tb self target te w.
  apply fire_skill_inert. cbn. apply Qle_refl.
Qed.

End Placeholder.

Lemma unknown_unique_skill_inert_witness :
  proc (unique_skill nobu) = 0%Q /\ effects (unique_skill nobu) = [].
Proof.
  destruct (@unknown_unique_skill_inert lcg nobu_data ∅ 12000 None None nobu
              make_unit_nobu eq_refl) as (H1 & H2 & _).
  split; assumption.
Defined.

(** * The application: skill labels ([app.py])

    A Python [str] is the [string] of its UTF-8 bytes: the two functions
    below search for the ASCII parentheses only and cut the text between
    them, which gives the same text on bytes as on code points. *)

(** [l.rfind(c)] for one character: the last index of [c], [None] for
    -1. *)
Fixpoint rfind (c : ascii) (l : list ascii) : option nat :=
  match l with
  | [] => None
  | x :: l' =>
      match rfind c l' with
      | Some i => Some (S i)
      | None => if Ascii.eqb x c then Some 0%nat else None
      end
  end.

Definition str_rfind (c : ascii) (s : string) : option nat :=
  rfind c (String.list_ascii_of_string s).

(** [s[a:b]] for [0 <= a]. *)
Definition str_slice (a b : nat) (s : string) : string :=
  String.string_of_list_ascii (take (b - a) (drop a (String.list_ascii_of_string s))).

(** [x or y] on strings that may be missing. *)
Definition str_or (x : option string) (y : option string) : option string :=
  match x with
  | Some s => if String.eqb s "" then y else x
  | None => y
  end.

(** [skill_display_label]. *)
Definition skill_display_label (s : SkillData) : string :=
  let base :=
    default ""
      (str_or (sd_display_name s)
              (str_or (sd_name s) (Some (default "" (sd_skill_id s))))) in
  String.append base
    (String.append " (" (String.append (default "" (sd_skill_id s)) ")")).

(** The label of "no skill" in the select boxes. *)
Definition none_label : string := "(なし)".

(** [decode], the local function of [team_skills]. *)
Definition decode (v : string) : option string :=
  if String.eqb v none_label then None
  else
    match str_rfind "("%char v, str_rfind ")"%char v with
    | Some m_start, Some m_end =>
        if (m_start <? m_end)%nat then Some (str_slice (m_start + 1) m_end v)
        else None
    | _, _ => None
    end.

Lemma list_ascii_app (s1 s2 : string) :
  String.list_ascii_of_string (String.append s1 s2)
  = String.list_ascii_of_string s1 ++ String.list_ascii_of_string s2.
Proof.
  induction s1 as [|c s1 IH]; [reflexivity|].
  change (c :: String.list_ascii_of_string (String.append s1 s2)
          = c :: String.list_ascii_of_string s1
              ++ String.list_ascii_of_string s2).
  rewrite IH. reflexivity.
Qed.

Lemma rfind_absent (c : ascii) (l : list ascii) : ~ In c l -> rfind c l = None.
Proof.
  induction l as [|x l IH]; cbn; [reflexivity|]. intros Hn.
  rewrite IH by tauto. destruct (Ascii.eqb x c) eqn:E; [|reflexivity].
  apply Ascii.eqb_eq in E. tauto.
Qed.

Lemma rfind_last (c : ascii) (l1 l2 : list ascii) :
  ~ In c l2 -> rfind c (l1 ++ c :: l2) = Some (length l1).
Proof.
  intros Hn. induction l1 as [|x l1 IH]; cbn.
  - rewrite (rfind_absent c l2 Hn), Ascii.eqb_refl. reflexivity.
  - rewrite IH. reflexivity.
Qed.

(** Every list either lacks [c] or splits at its last [c]. *)
Lemma rfind_split (c : ascii) (l : list ascii) :
  match rfind c l with
  | None => ~ In c l
  | Some i => exists l1 l2, l = l1 ++ c :: l2 /\ length l1 = i /\ ~ In c l2
  end.
Proof.
  induction l as [|x l IH]; cbn; [tauto|].
  destruct (rfind c l) as [i|].
  - destruct IH as (l1 & l2 & -> & <- & Hn). exists (x :: l1), l2.
    repeat split; assumption.
  - destruct (Ascii.eqb x c) eqn:E.
    + apply Ascii.eqb_eq in E. subst x. exists [], l. repeat split. exact IH.
    + apply Ascii.eqb_neq in E. intros [H|H]; [congruence | tauto].
Qed.

Lemma slice_mid (l1 l2 l3 L : list ascii) (a b : nat) :
  L = l1 ++ l2 ++ l3 -> a = length l1 -> (b - a)%nat = length l2 ->
  take (b - a) (drop a L) = l2.
Proof.
  intros -> -> ->. rewrite drop_app_length. apply take_app_length.
Qed.

Lemma string_length_list (s : string) :
  String.length s = length (String.list_ascii_of_string s).
Proof. induction s as [|c s IH]; cbn; [reflexivity | rewrite IH; reflexivity]. Qed.

Lemma label_list (s : SkillData) :
  exists B : list ascii,
    String.list_ascii_of_string (skill_display_label s)
    = B ++ " "%char :: "("%char
        :: String.list_ascii_of_string (default "" (sd_skill_id s))
        ++ [")"%char].
Proof.
  unfold skill_display_label. cbv zeta. eexists.
  rewrite !list_ascii_app. reflexivity.
Qed.

Lemma decode_label_eq (s : SkillData) :
  let id := default "" (sd_skill_id s) in
  decode (skill_display_label s)
  = Some (match str_rfind "("%char id with
          | None => id
          | Some i => str_slice (i + 1) (String.length id) id
          end).
Proof.
  cbv zeta. destruct (label_list s) as [B HL].
  set (id := default "" (sd_skill_id s)) in *.
  set (I := String.list_ascii_of_string id) in *.
  unfold decode.
  assert (Hne : String.eqb (skill_display_label s) none_label = false).
  { destruct (String.eqb _ _) eqn:E; [|reflexivity].
    apply String.eqb_eq in E. rewrite E in HL.
    assert (Hin : In " "%char (String.list_ascii_of_string none_label)).
    { rewrite HL. apply in_or_app. right. left. reflexivity. }
    exfalso. cbn in Hin. intuition discriminate. }
  rewrite Hne. unfold str_rfind, str_slice. rewrite HL.
  assert (Hend : rfind ")"%char (B ++ " "%char :: "("%char :: I ++ [")"%char])
                 = Some (length B + 2 + length I)%nat).
  { replace (B ++ " "%char :: "("%char :: I ++ [")"%char])
      with ((B ++ " "%char :: "("%char :: I) ++ ")"%char :: [])
      by (rewrite <- app_assoc; reflexivity).
    rewrite rfind_last by (intros []).
    rewrite length_app. cbn [length]. f_equal. lia. }
  rewrite Hend. fold I.
  pose proof (rfind_split "("%char I) as Hsp.
  destruct (rfind "("%char I) as [i|] eqn:Ei.
  - destruct Hsp as (I1 & I2 & HI & Hi & Hn).
    assert (Hst : rfind "("%char
                    (B ++ " "%char :: "("%char :: I ++ [")"%char])
                  = Some (length B + 2 + i)%nat).
    { rewrite HI.
      replace (B ++ " "%char :: "("%char :: (I1 ++ "("%char :: I2) ++ [")"%char])
        with ((B ++ " "%char :: "("%char :: I1) ++ "("%char :: (I2 ++ [")"%char]))
        by (rewrite <- !app_assoc; reflexivity).
      rewrite rfind_last.
      - rewrite length_app. cbn [length]. f_equal. lia.
      - intros Hin. apply in_app_or in Hin.
        destruct Hin as [Hin|[Hin|[]]]; [tauto | discriminate]. }
    rewrite Hst.
    assert (HlenI : length I = (i + 1 + length I2)%nat).
    { rewrite HI, length_app. cbn [length]. lia. }
    destruct (length B + 2 + i <? length B + 2 + length I)%nat eqn:Elt;
      [|apply Nat.ltb_ge in Elt; lia].
    f_equal. f_equal. rewrite string_length_list. fold I.
    transitivity I2; [|symmetry].
    + apply (slice_mid (B ++ " "%char :: "("%char :: I1 ++ ["("%char])
               I2 [")"%char]).
      * rewrite HI, <- !app_assoc. cbn. rewrite <- !app_assoc. reflexivity.
      * rewrite length_app. cbn [length]. rewrite length_app. cbn [length].
        lia.
      * lia.
    + apply (slice_mid (I1 ++ ["("%char]) I2 []).
      * rewrite HI, app_nil_r, <- app_assoc. reflexivity.
      * rewrite length_app. cbn [length]. lia.
      * lia.
  - assert (Hst : rfind "("%char
                    (B ++ " "%char :: "("%char :: I ++ [")"%char])
                  = Some (length B + 1)%nat).
    { replace (B ++ " "%char :: "("%char :: I ++ [")"%char])
        with ((B ++ [" "%char]) ++ "("%char :: (I ++ [")"%char]))
        by (rewrite <- app_assoc; reflexivity).
      rewrite rfind_last.
      - rewrite length_app. reflexivity.
      - intros Hin. apply in_app_or in Hin.
        destruct Hin as [Hin|[Hin|[]]]; [tauto | discriminate]. }
    rewrite Hst.
    destruct (length B + 1 <? length B + 2 + length I)%nat eqn:Elt;
      [|apply Nat.ltb_ge in Elt; lia].
    f_equal.
    rewrite (slice_mid (B ++ [" "%char; "("%char]) I [")"%char]).
    + apply String.string_of_list_ascii_of_string.
    + rewrite <- app_assoc. reflexivity.
    + rewrite length_app. cbn [length]. lia.
    + lia.
Qed.

(** X22. [decode] undoes [skill_display_label]: from the label of a skill
    it returns the [skill_id], whatever the display name, provided the
    [skill_id] has no opening parenthesis; of a [skill_id] that has one it
    returns only what follows the last one. The label is never taken for
    the "no skill" entry. *)
Theorem decode_label (s : SkillData) :
  let id := default "" (sd_skill_id s) in
  decode (skill_display_label s)
  = Some (match str_rfind "("%char id with
          | None => id
          | Some i => str_slice (i + 1) (String.length id) id
          end).
Proof. exact (decode_label_eq s). Qed.

(** * The application: the skill table ([app.py]) *)

(** [s.get("skill_id")] as a condition: the key of a record, when it has
    one that is not empty. *)
Definition keyed (s : SkillData) : option string :=
  match sd_skill_id s with
  | Some k => if String.eqb k "" then None else Some k
  | None => None
  end.

(** [build_skill_map]: the dictionary comprehension goes through the
    records in order, a later record replacing an earlier one of the same
    key. *)
Definition build_skill_map (skills : list SkillData)
    : gmap string SkillData :=
  foldl (fun m s => match keyed s with
                    | Some k => <[k:=s]> m
                    | None => m
                    end) ∅ skills.

(** [all_skill_ids]. *)
Definition all_skill_ids (skills : list SkillData) : list string :=
  omap keyed skills.

(** [skill_choices]. *)
Definition skill_choices (skills : list SkillData) : gmap string string :=
  foldl (fun m s => match keyed s with
                    | Some k => <[k:=skill_display_label s]> m
                    | None => m
                    end) ∅ skills.

Lemma keyed_id (s : SkillData) (k : string) :
  keyed s = Some k -> sd_skill_id s = Some k /\ k <> "".
Proof.
  unfold keyed. destruct (sd_skill_id s) as [k'|]; [|discriminate].
  destruct (String.eqb k' "") eqn:E; [discriminate|].
  intros [= <-]. split; [reflexivity|]. apply String.eqb_neq. exact E.
Qed.

Lemma skill_choices_labels (skills : list SkillData) :
  skill_choices skills = skill_display_label <$> build_skill_map skills.
Proof.
  unfold skill_choices, build_skill_map.
  induction skills as [|s skills IH] using rev_ind.
  - cbn. rewrite fmap_empty. reflexivity.
  - rewrite !foldl_app. cbn [foldl]. rewrite IH.
    destruct (keyed s); [rewrite fmap_insert|]; reflexivity.
Qed.

(** X23. In the table of [build_skill_map] the last record wins: under a
    key it holds the last record of the list that has this [skill_id],
    and nothing under a key that no record has; records without a
    [skill_id], or with an empty one, are left out. *)
Theorem build_skill_map_last_wins (skills : list SkillData) (k : string) :
  build_skill_map skills !! k
  = last (filter (fun s => keyed s = Some k) skills)
  /\ (build_skill_map skills !! "" = None).
Proof.
  unfold build_skill_map. split.
  - induction skills as [|s skills IH] using rev_ind; [reflexivity|].
    rewrite foldl_app, filter_app, last_app. cbn [foldl].
    rewrite filter_cons, filter_nil.
    destruct (decide (keyed s = Some k)) as [E|E].
    + rewrite E, lookup_insert_eq. reflexivity.
    + cbn [last]. rewrite <- IH. destruct (keyed s) as [k'|]; [|reflexivity].
      apply lookup_insert_ne. congruence.
  - induction skills as [|s skills IH] using rev_ind; [reflexivity|].
    rewrite foldl_app. cbn [foldl].
    destruct (keyed s) as [k'|] eqn:E; [|exact IH].
    apply keyed_id in E as [_ E]. rewrite lookup_insert_ne by exact E.
    exact IH.
Qed.

Lemma build_skill_map_elem (skills : list SkillData) (k : string) :
  k ∈ all_skill_ids skills ->
  exists d, build_skill_map skills !! k = Some d /\ keyed d = Some k.
Proof.
  unfold all_skill_ids, build_skill_map.
  induction skills as [|s skills IH] using rev_ind.
  - cbn. intros H. inversion H.
  - rewrite omap_app, foldl_app, elem_of_app. cbn [foldl omap list_omap].
    destruct (keyed s) as [k'|] eqn:E.
    + destruct (decide (k' = k)) as [->|Hne].
      * intros _. exists s. rewrite lookup_insert_eq. split; [reflexivity|exact E].
      * intros [H|H].
        -- rewrite lookup_insert_ne by exact Hne. apply IH, H.
        -- apply list_elem_of_singleton in H. congruence.
    + intros [H|H]; [apply IH, H | inversion H].
Qed.

(** X24. Every skill on offer can be chosen: for an id of [all_skill_ids]
    that has no opening parenthesis, [skill_choices] has a label, [decode]
    gets the id back from the label, and [make_unit] then finds the skill
    in the table of [build_skill_map] (no [KeyError]) and equips a skill
    with that very [skill_id]. *)
Theorem offered_skill_is_chosen (skills : list SkillData) (k : string) :
  k ∈ all_skill_ids skills ->
  str_rfind "("%char k = None ->
  exists label sk,
    skill_choices skills !! k = Some label
    /\ decode label = Some k
    /\ chosen_skill (build_skill_map skills) (decode label) = Some (Some sk)
    /\ skill_id sk = k.
Proof.
  intros Hin Hp.
  destruct (build_skill_map_elem skills k Hin) as (d & Hd & Hk).
  apply keyed_id in Hk as [Hid Hne].
  assert (Hdec : decode (skill_display_label d) = Some k).
  { pose proof (decode_label_eq d) as H. cbv zeta in H.
    rewrite Hid in H. change (default "" (Some k)) with k in H.
    rewrite Hp in H. exact H. }
  exists (skill_display_label d), (to_skill d).
  rewrite skill_choices_labels, lookup_fmap, Hd. cbn [fmap option_fmap option_map].
  split; [reflexivity|]. split; [exact Hdec|].
  rewrite Hdec. unfold chosen_skill.
  apply String.eqb_neq in Hne. rewrite Hne, Hd.
  split; [reflexivity|]. unfold to_skill. cbn [skill_id]. rewrite Hid.
  reflexivity.
Qed.

(** A skill table of two records with the same id, and one record
    without an id. *)
Definition sample_skills : list SkillData :=
  [ mkSkillData (Some "S_FIRE") (Some "fire") (Some "learn20")
                (Some "start") (Some 0.3%Q) None None;
    mkSkillData None (Some "nameless") None None None None None;
    mkSkillData (Some "S_FIRE") (Some "blaze") (Some "learn20")
                (Some "after_attack") (Some 0.5%Q) None
                (Some "Blaze+") ].

Lemma offered_skill_is_chosen_witness :
  "S_FIRE" ∈ all_skill_ids sample_skills
  /\ str_rfind "("%char "S_FIRE" = None
  /\ exists label sk,
       skill_choices sample_skills !! "S_FIRE" = Some label
       /\ decode label = Some "S_FIRE"
       /\ chosen_skill (build_skill_map sample_skills) (decode label)
          = Some (Some sk)
       /\ skill_id sk = "S_FIRE".
Proof.
  assert (Hin : "S_FIRE" ∈ all_skill_ids sample_skills) by (left).
  assert (Hp : str_rfind "("%char "S_FIRE" = None) by reflexivity.
  split; [exact Hin|]. split; [exact Hp|].
  exact (offered_skill_is_chosen sample_skills "S_FIRE" Hin Hp).
Defined.
